(** * Solar PV design optimiser: scenario engine, capacity sweep, sensitivity
      sweep and objective adapter, embedded from [src/scenario.py],
      [src/pv_sizing.py], [src/sensitivity.py] and [src/optimiser.py].

    Numbers.  Python and numpy floats are modelled by exact rationals extended
    with the three IEEE special values ([F]): finite arithmetic is exact (no
    rounding error, no overflow, no signed zero), and the special values
    follow the IEEE rules numpy applies (a quotient by zero is an infinity or
    NaN, NaN propagates, a missing table cell is NaN).  Equalities between
    numbers are stated up to [Qeq] ([==]).

    Series.  An hourly series is the list of its values, hour 0 first (the
    positional index the two uploaded files share), and its values are finite
    numbers; a missing cell appears in an hourly frame only where a series
    is aligned on a longer index. *)

From Stdlib Require Import ZArith QArith Qabs Qminmax Qround Qpower.
From Stdlib Require Import List Sorted String Bool Lia Lqa.
Import ListNotations.

Local Open Scope Z_scope.

(** ** Exceptions and fallible computations *)

Inductive pyerr : Set :=
| AttributeError
| TypeError
| ValueError
| KeyError
| IndexError
| OverflowError
| LinAlgError.

Inductive result (A : Type) : Type :=
| Ok (a : A)
| Raise (e : pyerr).

Arguments Ok {A} a.
Arguments Raise {A} e.

Definition bind {A B : Type} (m : result A) (k : A -> result B) : result B :=
  match m with
  | Ok a => k a
  | Raise e => Raise e
  end.

Notation "x <- m ;; k" := (bind m (fun x => k))
  (at level 61, m at next level, right associativity).

(** ** Rational helpers *)

Definition Qltb (x y : Q) : bool := negb (Qle_bool y x).

(** Python's [round] and numpy's [rint]: nearest integer, ties to even. *)
Definition round_half_even (q : Q) : Z :=
  let f := Qfloor q in
  match ((q - inject_Z f) ?= (1 # 2))%Q with
  | Lt => f
  | Gt => f + 1
  | Eq => if Z.even f then f else f + 1
  end.

(** [round(q, n)] for [n] decimals: [rint(q * 10^n) / 10^n]. *)
Definition round_decimals (n : nat) (q : Q) : Q :=
  let s := Z.pow 10 (Z.of_nat n) in
  (inject_Z (round_half_even (q * inject_Z s)) / inject_Z s)%Q.

Definition Q_is_integral (q : Q) : bool := Qeq_bool q (inject_Z (Qfloor q)).

(** [range(lo, hi)] *)
Definition py_range (lo hi : Z) : list Z :=
  map (fun i => lo + Z.of_nat i) (seq 0 (Z.to_nat (hi - lo))).

(** ** Floats: rationals with the IEEE special values *)

Inductive F : Set :=
| Fin (q : Q)
| PInf
| NInf
| NaN.

Definition is_nan (x : F) : bool :=
  match x with NaN => true | _ => false end.

Definition is_finite (x : F) : bool :=
  match x with Fin _ => true | _ => false end.

(** Same value (not IEEE [==]: NaN is the same value as NaN here). *)
Definition Feq (x y : F) : Prop :=
  match x, y with
  | Fin a, Fin b => (a == b)%Q
  | PInf, PInf | NInf, NInf | NaN, NaN => True
  | _, _ => False
  end.

Infix "=F=" := Feq (at level 70, no associativity).

(** Sign of a non-NaN value, as a comparison with zero. *)
Definition Fsign (x : F) : comparison :=
  match x with
  | Fin q => (q ?= 0)%Q
  | PInf => Gt
  | NInf => Lt
  | NaN => Eq
  end.

Definition Fopp (x : F) : F :=
  match x with
  | Fin q => Fin (- q)
  | PInf => NInf
  | NInf => PInf
  | NaN => NaN
  end.

Definition Fabs (x : F) : F :=
  match x with
  | Fin q => Fin (Qabs q)
  | PInf | NInf => PInf
  | NaN => NaN
  end.

Definition Fadd (x y : F) : F :=
  match x, y with
  | NaN, _ | _, NaN => NaN
  | Fin a, Fin b => Fin (a + b)
  | PInf, NInf | NInf, PInf => NaN
  | PInf, _ | _, PInf => PInf
  | NInf, _ | _, NInf => NInf
  end.

Definition Fsub (x y : F) : F := Fadd x (Fopp y).

Definition Fmul (x y : F) : F :=
  match x, y with
  | NaN, _ | _, NaN => NaN
  | Fin a, Fin b => Fin (a * b)
  | _, _ =>
      match Fsign x, Fsign y with
      | Eq, _ | _, Eq => NaN
      | Lt, Lt | Gt, Gt => PInf
      | _, _ => NInf
      end
  end.

Definition Fdiv (x y : F) : F :=
  match x, y with
  | NaN, _ | _, NaN => NaN
  | Fin a, Fin b =>
      if Qeq_bool b 0 then
        match (a ?= 0)%Q with
        | Eq => NaN
        | Gt => PInf
        | Lt => NInf
        end
      else Fin (a / b)
  | Fin _, _ => Fin 0
  | _, Fin b =>
      match Fsign x, (b ?= 0)%Q with
      | Gt, Lt | Lt, (Eq | Gt) => NInf
      | _, _ => PInf
      end
  | _, _ => NaN
  end.

(** [x < y] on floats; false as soon as one side is NaN. *)
Definition Fltb (x y : F) : bool :=
  match x, y with
  | NaN, _ | _, NaN => false
  | Fin a, Fin b => Qltb a b
  | NInf, NInf | PInf, _ => false
  | NInf, _ => true
  | Fin _, PInf => true
  | Fin _, NInf => false
  end.

Definition Fle (x y : F) : Prop :=
  match x, y with
  | NaN, _ | _, NaN => False
  | Fin a, Fin b => (a <= b)%Q
  | NInf, _ | _, PInf => True
  | _, _ => False
  end.

(** numpy's [round(x, n)] leaves the special values alone. *)
Definition Fround (n : nat) (x : F) : F :=
  match x with
  | Fin q => Fin (round_decimals n q)
  | _ => x
  end.

(** pandas [Series.sum()] ([skipna=True]): NaN cells count as zero. *)
Definition Fsum (l : list F) : F :=
  fold_left (fun acc x => if is_nan x then acc else Fadd acc x) l (Fin 0).

(** pandas [Series.mean()] ([skipna=True]). *)
Definition Fmean (l : list F) : F :=
  let kept := filter (fun x => negb (is_nan x)) l in
  Fdiv (Fsum kept) (Fin (inject_Z (Z.of_nat (List.length kept)))).

Definition Qsum (l : list Q) : Q := fold_left Qplus l 0%Q.

(** ** Input specification ([UnitVar], [Inputs]) *)

Local Open Scope string_scope.

(** The value a [UnitVar] holds is dynamically typed ([value: Any]). *)
Inductive pyval : Type :=
| VInt (z : Z)
| VFloat (q : Q)
| VSeries (l : list Q)
| VStr (s : string).

Record UnitVar : Type := {
  name : string;
  unit : string;
  value : pyval
}.

Definition title (u : UnitVar) : string := name u ++ " (" ++ unit u ++ ")".

Definition set_value (v : pyval) (u : UnitVar) : UnitVar :=
  {| name := name u; unit := unit u; value := v |}.

(** [Inputs] after [__post_init__]: every field is a [UnitVar]. *)
Record Inputs : Type := {
  load : UnitVar;
  ref_yield : UnitVar;
  ref_capacity : UnitVar;
  postproc_losses : UnitVar;
  ref_specific_yield : UnitVar;
  study_period : UnitVar;
  discount_rate : UnitVar;
  pv_capacity : UnitVar;
  pv_degradation : UnitVar;
  currency : UnitVar;
  devex : UnitVar;
  capex : UnitVar;
  opex : UnitVar;
  opex_increase : UnitVar;
  loan : UnitVar;
  loan_period : UnitVar;
  loan_rate : UnitVar;
  import_tariff : UnitVar;
  export_tariff : UnitVar;
  import_increase : UnitVar;
  export_increase : UnitVar
}.

(** [dataclasses.fields(inputs)], by name, in declaration order. *)
Definition fields : list string :=
  [ "load"; "ref_yield"; "ref_capacity"; "postproc_losses";
    "ref_specific_yield"; "study_period"; "discount_rate"; "pv_capacity";
    "pv_degradation"; "currency"; "devex"; "capex"; "opex"; "opex_increase";
    "loan"; "loan_period"; "loan_rate"; "import_tariff"; "export_tariff";
    "import_increase"; "export_increase" ].

(** [getattr(inputs, n)] for a field name. *)
Definition getattr (i : Inputs) (n : string) : result UnitVar :=
  if n =? "load" then Ok (load i)
  else if n =? "ref_yield" then Ok (ref_yield i)
  else if n =? "ref_capacity" then Ok (ref_capacity i)
  else if n =? "postproc_losses" then Ok (postproc_losses i)
  else if n =? "ref_specific_yield" then Ok (ref_specific_yield i)
  else if n =? "study_period" then Ok (study_period i)
  else if n =? "discount_rate" then Ok (discount_rate i)
  else if n =? "pv_capacity" then Ok (pv_capacity i)
  else if n =? "pv_degradation" then Ok (pv_degradation i)
  else if n =? "currency" then Ok (currency i)
  else if n =? "devex" then Ok (devex i)
  else if n =? "capex" then Ok (capex i)
  else if n =? "opex" then Ok (opex i)
  else if n =? "opex_increase" then Ok (opex_increase i)
  else if n =? "loan" then Ok (loan i)
  else if n =? "loan_period" then Ok (loan_period i)
  else if n =? "loan_rate" then Ok (loan_rate i)
  else if n =? "import_tariff" then Ok (import_tariff i)
  else if n =? "export_tariff" then Ok (export_tariff i)
  else if n =? "import_increase" then Ok (import_increase i)
  else if n =? "export_increase" then Ok (export_increase i)
  else Raise AttributeError.

(** [inputs.pv_capacity.value = v]: the shared object is updated in place;
    here the store is the [Inputs] value itself. *)
Definition set_pv_capacity (v : pyval) (i : Inputs) : Inputs :=
  {| load := load i; ref_yield := ref_yield i; ref_capacity := ref_capacity i;
     postproc_losses := postproc_losses i;
     ref_specific_yield := ref_specific_yield i;
     study_period := study_period i; discount_rate := discount_rate i;
     pv_capacity := set_value v (pv_capacity i);
     pv_degradation := pv_degradation i; currency := currency i;
     devex := devex i; capex := capex i; opex := opex i;
     opex_increase := opex_increase i; loan := loan i;
     loan_period := loan_period i; loan_rate := loan_rate i;
     import_tariff := import_tariff i; export_tariff := export_tariff i;
     import_increase := import_increase i;
     export_increase := export_increase i |}.

(** [getattr(inputs, n).value = v] for a field name [n] (no effect on the
    other fields; [n] outside [fields] is never passed). *)
Definition set_field_value (n : string) (v : pyval) (i : Inputs) : Inputs :=
  let upd (m : string) (u : UnitVar) : UnitVar :=
    if n =? m then set_value v u else u in
  {| load := upd "load" (load i);
     ref_yield := upd "ref_yield" (ref_yield i);
     ref_capacity := upd "ref_capacity" (ref_capacity i);
     postproc_losses := upd "postproc_losses" (postproc_losses i);
     ref_specific_yield := upd "ref_specific_yield" (ref_specific_yield i);
     study_period := upd "study_period" (study_period i);
     discount_rate := upd "discount_rate" (discount_rate i);
     pv_capacity := upd "pv_capacity" (pv_capacity i);
     pv_degradation := upd "pv_degradation" (pv_degradation i);
     currency := upd "currency" (currency i);
     devex := upd "devex" (devex i);
     capex := upd "capex" (capex i);
     opex := upd "opex" (opex i);
     opex_increase := upd "opex_increase" (opex_increase i);
     loan := upd "loan" (loan i);
     loan_period := upd "loan_period" (loan_period i);
     loan_rate := upd "loan_rate" (loan_rate i);
     import_tariff := upd "import_tariff" (import_tariff i);
     export_tariff := upd "export_tariff" (export_tariff i);
     import_increase := upd "import_increase" (import_increase i);
     export_increase := upd "export_increase" (export_increase i) |}.

(** [Inputs._convert_to_unit_variables]: names and units of the fields.
    The unit of the money fields is built from the currency tag. *)
Definition convert_to_unit_variables
    (v_load v_ref_yield v_ref_capacity v_postproc_losses v_ref_specific_yield
     v_study_period v_discount_rate v_pv_capacity v_pv_degradation : pyval)
    (cur : string)
    (v_devex v_capex v_opex v_opex_increase v_loan v_loan_period v_loan_rate
     v_import_tariff v_export_tariff v_import_increase v_export_increase
       : pyval) : Inputs :=
  {| load := {| name := "Load"; unit := "kWh"; value := v_load |};
     ref_yield :=
       {| name := "Reference yield"; unit := "kWh"; value := v_ref_yield |};
     ref_capacity :=
       {| name := "Reference capacity"; unit := "kWp";
          value := v_ref_capacity |};
     postproc_losses :=
       {| name := "Post-processing losses"; unit := "%";
          value := v_postproc_losses |};
     ref_specific_yield :=
       {| name := "Reference specific yield"; unit := "kWh/kWp";
          value := v_ref_specific_yield |};
     study_period :=
       {| name := "Study period"; unit := "yrs"; value := v_study_period |};
     discount_rate :=
       {| name := "Discount rate"; unit := "%"; value := v_discount_rate |};
     pv_capacity :=
       {| name := "PV capacity"; unit := "kWp"; value := v_pv_capacity |};
     pv_degradation :=
       {| name := "PV degradation"; unit := "%"; value := v_pv_degradation |};
     currency := {| name := "Currency"; unit := "NA"; value := VStr cur |};
     devex := {| name := "DevEx"; unit := cur ++ "/kWp"; value := v_devex |};
     capex := {| name := "CapEx"; unit := cur ++ "/kWp"; value := v_capex |};
     opex := {| name := "OpEx"; unit := cur ++ "/kWp"; value := v_opex |};
     opex_increase :=
       {| name := "OpEx increase"; unit := "%"; value := v_opex_increase |};
     loan := {| name := "Loan"; unit := "%"; value := v_loan |};
     loan_period :=
       {| name := "Loan Period"; unit := "yrs"; value := v_loan_period |};
     loan_rate :=
       {| name := "Loan Interest Rate"; unit := "%"; value := v_loan_rate |};
     import_tariff :=
       {| name := "Import tariff"; unit := cur ++ "/kWh";
          value := v_import_tariff |};
     export_tariff :=
       {| name := "Export tariff"; unit := cur ++ "/kWh";
          value := v_export_tariff |};
     import_increase :=
       {| name := "Import increase"; unit := "%";
          value := v_import_increase |};
     export_increase :=
       {| name := "Export increase"; unit := "%";
          value := v_export_increase |} |}.

(** [Inputs(load=.., ref_specific_yield=..)] with the dataclass defaults for
    the scalar fields; the specific yield is given, so [_format_file_inputs]
    is not run and the raw reference yield is kept as it is. *)
Definition default_inputs (ld sy : list Q) : Inputs :=
  convert_to_unit_variables
    (VSeries ld) (VSeries []) (VInt 10000) (VFloat (3 # 100)) (VSeries sy)
    (VInt 25) (VFloat (4 # 100)) (VInt 1000) (VFloat (5 # 1000)) "USD"
    (VInt 0) (VInt 700) (VInt 15) (VFloat 0) (VFloat 0) (VInt 0) (VFloat 0)
    (VFloat (1 # 10)) (VFloat (5 # 100)) (VFloat 0) (VFloat 0).

Local Close Scope string_scope.

(** ** Values read by the scenario engine

    [Scenario.__init__] copies the [.value] of every field of the inputs it
    is given into fields of its own; the engine then reads only those copies.
    [Values] holds the copies the engine reads, with the dynamic type each
    use needs: the study period is used as a [range] bound and must be an
    [int]; the load must be a series (it seeds a [DataFrame]); the specific
    yield is a series indexed by hour, which is aligned on the hours of the
    load when it enters the hourly frame, or a scalar that is broadcast over
    them; the other fields are used in arithmetic.
    Values of another dynamic type are rejected when they are read. *)

Record Values : Type := {
  v_load : list Q;
  v_ref_specific_yield : list Q;
  v_study_period : Z;
  v_discount_rate : Q;
  v_pv_capacity : Q;
  v_pv_degradation : Q;
  v_devex : Q;
  v_capex : Q;
  v_opex : Q;
  v_opex_increase : Q;
  v_loan : Q;
  v_loan_period : Q;
  v_loan_rate : Q;
  v_import_tariff : Q;
  v_export_tariff : Q;
  v_import_increase : Q;
  v_export_increase : Q
}.

Definition as_int (v : pyval) : result Z :=
  match v with
  | VInt z => Ok z
  | _ => Raise TypeError
  end.

Definition as_num (v : pyval) : result Q :=
  match v with
  | VInt z => Ok (inject_Z z)
  | VFloat q => Ok q
  | _ => Raise TypeError
  end.

Definition as_series (v : pyval) : result (list Q) :=
  match v with
  | VSeries l => Ok l
  | _ => Raise ValueError
  end.

Definition as_hourly (hours : nat) (v : pyval) : result (list Q) :=
  match v with
  | VSeries l => Ok l
  | VInt z => Ok (repeat (inject_Z z) hours)
  | VFloat q => Ok (repeat q hours)
  | VStr _ => Raise TypeError
  end.

Definition values_of (i : Inputs) : result Values :=
  ld <- as_series (value (load i)) ;;
  sy <- as_hourly (List.length ld) (value (ref_specific_yield i)) ;;
  sp <- as_int (value (study_period i)) ;;
  dr <- as_num (value (discount_rate i)) ;;
  cap <- as_num (value (pv_capacity i)) ;;
  deg <- as_num (value (pv_degradation i)) ;;
  dx <- as_num (value (devex i)) ;;
  cx <- as_num (value (capex i)) ;;
  ox <- as_num (value (opex i)) ;;
  oi <- as_num (value (opex_increase i)) ;;
  ln <- as_num (value (loan i)) ;;
  lp <- as_num (value (loan_period i)) ;;
  lr <- as_num (value (loan_rate i)) ;;
  it <- as_num (value (import_tariff i)) ;;
  et <- as_num (value (export_tariff i)) ;;
  ii <- as_num (value (import_increase i)) ;;
  ei <- as_num (value (export_increase i)) ;;
  Ok {| v_load := ld; v_ref_specific_yield := sy; v_study_period := sp;
        v_discount_rate := dr; v_pv_capacity := cap; v_pv_degradation := deg;
        v_devex := dx; v_capex := cx; v_opex := ox; v_opex_increase := oi;
        v_loan := ln; v_loan_period := lp; v_loan_rate := lr;
        v_import_tariff := it; v_export_tariff := et;
        v_import_increase := ii; v_export_increase := ei |}.

(** ** Tables *)

(** A table indexed by an integer label (a year): rows in index order. *)
Definition table (R : Type) : Type := list (Z * R).

Fixpoint loc {R : Type} (t : table R) (k : Z) : result R :=
  match t with
  | [] => Raise KeyError
  | (k', r) :: t' => if k' =? k then Ok r else loc t' k
  end%Z.

(** [data.loc[k, columns] = ...] on an existing row. *)
Fixpoint set_row {R : Type} (t : table R) (k : Z) (r : R) : table R :=
  match t with
  | [] => []
  | (k', r') :: t' =>
      if (k' =? k)%Z then (k', r) :: t' else (k', r') :: set_row t' k r
  end.

Definition index {R : Type} (t : table R) : list Z := map fst t.

Fixpoint insert_by_index {R : Type} (x : Z * R) (t : table R) : table R :=
  match t with
  | [] => [x]
  | y :: t' =>
      if (fst x <=? fst y)%Z then x :: y :: t' else y :: insert_by_index x t'
  end.

(** [DataFrame.sort_index()] (ascending, stable). *)
Definition sort_index {R : Type} (t : table R) : table R :=
  fold_right insert_by_index [] t.

Module Hourly.
Record row : Type := {
  enLoad : F;
  enPV_total : F;
  enPV_self_cons : F;
  enGrid_import : F;
  enGrid_export : F
}.
End Hourly.

Module Annual.
Record row : Type := {
  enLoad : F;
  enPV_total : F;
  enPV_self_cons : F;
  enGrid_import : F;
  enGrid_export : F;
  PV_self_cons_pct : F;
  PV_usage_pct : F
}.
End Annual.

Module Cash.
Record row : Type := {
  enLoad : F;
  enPV_total : F;
  enPV_self_cons : F;
  enGrid_import : F;
  enGrid_export : F;
  import_tariff : F;
  export_tariff : F;
  combined_tariff : F;
  import_costs : F;
  export_sales : F;
  enPV_revenues : F;
  opex : F;
  loan_payment : F;
  cashflow : F;
  cash_balance : F
}.

(** A row created by assigning one cell: the other cells are missing. *)
Definition only_cashflow (c : F) : row :=
  {| enLoad := NaN; enPV_total := NaN; enPV_self_cons := NaN;
     enGrid_import := NaN; enGrid_export := NaN; import_tariff := NaN;
     export_tariff := NaN; combined_tariff := NaN; import_costs := NaN;
     export_sales := NaN; enPV_revenues := NaN; opex := NaN;
     loan_payment := NaN; cashflow := c; cash_balance := NaN |}.

Definition with_cash_balance (b : F) (r : row) : row :=
  {| enLoad := enLoad r; enPV_total := enPV_total r;
     enPV_self_cons := enPV_self_cons r; enGrid_import := enGrid_import r;
     enGrid_export := enGrid_export r; import_tariff := import_tariff r;
     export_tariff := export_tariff r; combined_tariff := combined_tariff r;
     import_costs := import_costs r; export_sales := export_sales r;
     enPV_revenues := enPV_revenues r; opex := opex r;
     loan_payment := loan_payment r; cashflow := cashflow r;
     cash_balance := b |}.
End Cash.

Module Summary.
Record row : Type := {
  load : F;
  energy_pv_total : F;
  energy_pv_self_cons : F;
  energy_grid_import : F;
  energy_grid_export : F;
  pv_self_cons : F;
  pv_utilisation : F;
  capex : F;
  opex : F;
  lcoe : F;
  blcoe : F;
  npv : F;
  irr : F;
  pay_back_period : F
}.
End Summary.

(** A scenario: the values it copied from the inputs and its derived
    tables.  [data] is the one-row summary, indexed by the PV capacity. *)
Record Scenario : Type := {
  self : Values;
  energy_balance : table (list Hourly.row);
  energy_balance_summary : table Annual.row;
  cashflow : table Cash.row;
  discounted_cashflow : table Cash.row;
  data : Q * Summary.row
}.

(** ** numpy and pandas primitives used by the engine *)

(** [np.linspace(start, stop, num)] (endpoint included). *)
Definition linspace (start stop : Q) (num : Z) : result (list Q) :=
  if num <? 0 then Raise ValueError
  else
    let div := num - 1 in
    let delta := (stop - start)%Q in
    Ok (map (fun i =>
               if 0 <? div then
                 if i =? div then stop
                 else (inject_Z i * (delta / inject_Z div) + start)%Q
               else (inject_Z i * delta + start)%Q)
            (py_range 0 num)).

(** [Series.reindex(labels)] of a column indexed by year: the cell of the
    year equal to the label, a missing cell otherwise. *)
Fixpoint at_label (col : list (Z * F)) (label : Q) : F :=
  match col with
  | [] => NaN
  | (k, x) :: col' => if Qeq_bool (inject_Z k) label then x else at_label col' label
  end.

Definition reindex (col : list (Z * F)) (labels : list Q) : list (Q * F) :=
  map (fun q => (q, at_label col q)) labels.

(** The [n] cells strictly between two known cells [a] and [b], equally
    spaced by position. *)
Definition fill_gap (a b : F) (n : nat) : list F :=
  map (fun k =>
         Fadd a (Fmul (Fsub b a)
                      (Fin (inject_Z (Z.of_nat k) / inject_Z (Z.of_nat (S n))))))
      (seq 1 n).

(** [Series.interpolate()] (linear, by position): missing cells between two
    known cells are interpolated, those after the last known cell repeat it,
    those before the first known cell stay missing.  [prev] is the last known
    cell and [pending] the number of missing cells seen since. *)
Fixpoint interpolate_from (prev : option F) (pending : nat) (l : list F)
  : list F :=
  match l with
  | [] =>
      match prev with
      | None => repeat NaN pending
      | Some p => repeat p pending
      end
  | x :: l' =>
      if is_nan x then interpolate_from prev (S pending) l'
      else
        (match prev with
         | None => repeat NaN pending
         | Some p => fill_gap p x pending
         end) ++ x :: interpolate_from (Some x) 0 l'
  end.

Definition interpolate (s : list (Q * F)) : list (Q * F) :=
  combine (map fst s) (interpolate_from None 0 (map snd s)).

(** [Series.idxmin()] / [Series.idxmax()]: the label of the first extremal
    cell, missing cells skipped; NaN when every cell is missing.  [better x y]
    tells that [x] strictly beats [y]. *)
Fixpoint idx_best {L : Type} (better : F -> F -> bool) (best : option (L * F))
    (s : list (L * F)) : option (L * F) :=
  match s with
  | [] => best
  | (l, x) :: s' =>
      if is_nan x then idx_best better best s'
      else
        match best with
        | None => idx_best better (Some (l, x)) s'
        | Some (_, b) =>
            if better x b then idx_best better (Some (l, x)) s'
            else idx_best better best s'
        end
  end.

Definition idxmin {L : Type} (s : list (L * F)) : option L :=
  option_map fst (idx_best Fltb None s).

Definition idxmax {L : Type} (s : list (L * F)) : option L :=
  option_map fst (idx_best (fun x y => Fltb y x) None s).

(** The payback period of [_calc_summary]: the cash balance is re-indexed on
    [study_period * 100] labels between 1 and the study period, rounded to two
    decimals, interpolated, and the label where its absolute value is least
    is returned. *)
Definition pay_back_period_of (study_period : Z) (cash_balance : list (Z * F))
  : result F :=
  ys <- linspace 1 (inject_Z study_period) (study_period * 100) ;;
  let new_ys := map (round_decimals 2) ys in
  let regression := interpolate (reindex cash_balance new_ys) in
  Ok (match idxmin (map (fun c => (fst c, Fabs (snd c))) regression) with
      | Some label => Fin label
      | None => NaN
      end).

(** [np.roots] drops the zero coefficients at the two ends of a polynomial
    before it looks for the roots; NaN and the infinities are not zero. *)
Definition is_zero (x : F) : bool :=
  match x with
  | Fin q => Qeq_bool q 0
  | _ => false
  end.

Fixpoint strip_leading_zeros (p : list F) : list F :=
  match p with
  | [] => []
  | x :: p' => if is_zero x then strip_leading_zeros p' else p
  end.

Definition strip_zeros (p : list F) : list F :=
  rev (strip_leading_zeros (rev (strip_leading_zeros p))).

(** ** The scenario engine ([Scenario]) *)

Section Engine.

(** Two library routines are outside rational arithmetic and are left
    abstract: the root finding of [npf.irr] (the roots of the cashflow
    polynomial are the eigenvalues of its companion matrix; the routine
    returns a rate, NaN when no root qualifies, or raises) and the
    floating-point power for an exponent that is not an integer (reached only
    by [npf.pmt] when the loan period is fractional). *)
Variable npf_irr : list F -> result F.
Variable float_pow : Q -> Q -> F.

(** [npf.irr(values)].  The cashflows are the coefficients handed to
    [np.roots], which drops the zeros at their two ends and, when more than
    one coefficient is left, asks [numpy.linalg.eigvals] for the eigenvalues
    of the companion matrix.  A NaN coefficient makes a cell of that matrix
    NaN, and [eigvals] raises [LinAlgError] on such a matrix.  On any other
    column the answer is the abstract routine's. *)
Definition irr (values : list F) : result F :=
  let p := strip_zeros values in
  if Nat.ltb 1 (List.length p) && existsb is_nan p then Raise LinAlgError
  else npf_irr values.

(** [b ** e] on numpy floats. *)
Definition py_pow (b e : Q) : F :=
  if Q_is_integral e then
    if Qeq_bool b 0 && Qltb e 0 then PInf else Fin (b ^ Qfloor e)
  else float_pow b e.

(** [npf.pmt(rate, nper, pv)] with [fv = 0] and payments at period end. *)
Definition pmt (rate nper pv : Q) : F :=
  let temp := py_pow (1 + rate) nper in
  let fact :=
    if Qeq_bool rate 0 then Fin nper
    else Fdiv (Fsub temp (Fin 1)) (Fin rate) in
  Fdiv (Fopp (Fmul (Fin pv) temp)) fact.

(** [data[column] = series]: the series is aligned on the index of the
    frame, here the hours [0 .. hours - 1] of the load; an hour the series
    does not have becomes a missing cell, and what the series has beyond the
    hours of the frame is dropped. *)
Definition align (hours : nat) (series : list F) : list F :=
  map (fun h => nth h series NaN) (seq 0 hours).

(** One row of the hourly frame, from its load and PV cells. *)
Definition hour_row (ld pv_total : F) : Hourly.row :=
  let energy_shortfall := Fltb pv_total ld in
  {| Hourly.enLoad := ld;
     Hourly.enPV_total := pv_total;
     Hourly.enPV_self_cons := if energy_shortfall then pv_total else ld;
     Hourly.enGrid_import :=
       if energy_shortfall then Fsub ld pv_total else Fin 0;
     Hourly.enGrid_export :=
       if energy_shortfall then Fin 0 else Fsub pv_total ld |}.

(** The body of the loop over the years: the hourly frame [data] of one
    year, seeded with the load, one row per hour of the load. *)
Definition year_data (s : Values) (year : Z) : list Hourly.row :=
  let enLoad := map Fin (v_load s) in
  let capacity_dc_degr :=
    (v_pv_capacity s
     * (1 - (v_pv_degradation s * (inject_Z year - (1 # 2)))))%Q in
  let enPV_total :=
    align (List.length enLoad)
          (map (fun sy => Fin (sy * capacity_dc_degr))
               (v_ref_specific_yield s)) in
  map (fun h => hour_row (nth h enLoad NaN) (nth h enPV_total NaN))
      (seq 0 (List.length enLoad)).

Definition _calc_annual_energy_balance (s : Values)
  : table (list Hourly.row) :=
  map (fun year => (year, year_data s year))
      (py_range 1 (v_study_period s + 1)).

Definition annual_row (hours : list Hourly.row) : Annual.row :=
  let total (c : Hourly.row -> F) :=
    Fdiv (Fsum (map c hours)) (Fin 1000) in
  let ld := total Hourly.enLoad in
  let pv := total Hourly.enPV_total in
  let sc := total Hourly.enPV_self_cons in
  {| Annual.enLoad := ld;
     Annual.enPV_total := pv;
     Annual.enPV_self_cons := sc;
     Annual.enGrid_import := total Hourly.enGrid_import;
     Annual.enGrid_export := total Hourly.enGrid_export;
     Annual.PV_self_cons_pct := Fdiv sc ld;
     Annual.PV_usage_pct := Fdiv sc pv |}.

(** The attribute [energy_balance_summary] is assigned inside the loop over
    the years: with no year it is never assigned and reading it fails. *)
Definition _calc_energy_balance_summary (eb : table (list Hourly.row))
  : result (table Annual.row) :=
  match eb with
  | [] => Raise AttributeError
  | _ => Ok (map (fun yd => (fst yd, annual_row (snd yd))) eb)
  end.

Definition total_investment (s : Values) : Q :=
  ((v_capex s + v_devex s) * v_pv_capacity s)%Q.

Definition cashflow_row (s : Values) (year : Z) (e : Annual.row) : Cash.row :=
  let import_tariff :=
    Fin (v_import_tariff s * (1 + v_import_increase s) ^ year) in
  let export_tariff :=
    Fin (v_export_tariff s * (1 + v_export_increase s) ^ year) in
  let combined_tariff :=
    Fadd (Fmul (Annual.PV_usage_pct e) import_tariff)
         (Fmul (Fsub (Fin 1) (Annual.PV_usage_pct e)) export_tariff) in
  let revenues :=
    Fmul combined_tariff (Fmul (Annual.enPV_total e) (Fin 1000)) in
  let opex_increase := ((1 + v_opex_increase s) ^ year)%Q in
  let opex := Fin (v_opex s * opex_increase * v_pv_capacity s) in
  let loan_payment :=
    if Qle_bool (inject_Z year) (v_loan_period s) then
      Fopp (Fround 2 (pmt (v_loan_rate s) (v_loan_period s)
                          (v_loan s * total_investment s)))
    else Fin 0 in
  {| Cash.enLoad := Annual.enLoad e;
     Cash.enPV_total := Annual.enPV_total e;
     Cash.enPV_self_cons := Annual.enPV_self_cons e;
     Cash.enGrid_import := Annual.enGrid_import e;
     Cash.enGrid_export := Annual.enGrid_export e;
     Cash.import_tariff := import_tariff;
     Cash.export_tariff := export_tariff;
     Cash.combined_tariff := combined_tariff;
     Cash.import_costs :=
       Fmul import_tariff (Fmul (Annual.enGrid_import e) (Fin 1000));
     Cash.export_sales :=
       Fmul export_tariff (Fmul (Annual.enGrid_export e) (Fin 1000));
     Cash.enPV_revenues := revenues;
     Cash.opex := opex;
     Cash.loan_payment := loan_payment;
     Cash.cashflow := Fsub (Fadd (Fopp opex) revenues) loan_payment;
     Cash.cash_balance := NaN |}.

(** The loop that fills the cash balance, year after year, reading the
    balance of the year before from the table being filled. *)
Fixpoint cash_balance_loop (years : list Z) (data : table Cash.row)
  : result (table Cash.row) :=
  match years with
  | [] => Ok data
  | year :: rest =>
      r <- loc data year ;;
      if year =? 0 then
        cash_balance_loop rest
          (set_row data year (Cash.with_cash_balance (Cash.cashflow r) r))
      else
        before <- loc data (year - 1) ;;
        cash_balance_loop rest
          (set_row data year
             (Cash.with_cash_balance
                (Fadd (Cash.cash_balance before) (Cash.cashflow r)) r))
  end.

Definition _calc_cashflow (s : Values) (ebs : table Annual.row)
  : result (table Cash.row) :=
  let data := map (fun ye => (fst ye, cashflow_row s (fst ye) (snd ye))) ebs in
  let year0 :=
    Cash.only_cashflow (Fin (- total_investment s * (1 - v_loan s))) in
  let data := sort_index (data ++ [(0, year0)]) in
  data <- cash_balance_loop (index data) data ;;
  Ok (sort_index data).

Definition discounted_row (s : Values) (year : Z) (r before : Cash.row)
  : Cash.row :=
  let discount_rate := Fin ((1 + v_discount_rate s) ^ year) in
  let pv_total := Fdiv (Cash.enPV_total r) discount_rate in
  let revenues := Fmul (Cash.combined_tariff r) (Fmul pv_total (Fin 1000)) in
  let opex := Fdiv (Cash.opex r) discount_rate in
  let loan_payment :=
    if Qle_bool (inject_Z year) (v_loan_period s) then
      Fopp (Fround 2 (Fdiv (pmt (v_loan_rate s) (v_loan_period s)
                                (v_loan s * total_investment s))
                           discount_rate))
    else Fin 0 in
  let cashflow := Fsub (Fadd (Fopp opex) revenues) loan_payment in
  {| Cash.enLoad := Fdiv (Cash.enLoad r) discount_rate;
     Cash.enPV_total := pv_total;
     Cash.enPV_self_cons := Fdiv (Cash.enPV_self_cons r) discount_rate;
     Cash.enGrid_import := Fdiv (Cash.enGrid_import r) discount_rate;
     Cash.enGrid_export := Fdiv (Cash.enGrid_export r) discount_rate;
     Cash.import_tariff := Cash.import_tariff r;
     Cash.export_tariff := Cash.export_tariff r;
     Cash.combined_tariff := Cash.combined_tariff r;
     Cash.import_costs := Fdiv (Cash.import_costs r) discount_rate;
     Cash.export_sales := Fdiv (Cash.export_sales r) discount_rate;
     Cash.enPV_revenues := revenues;
     Cash.opex := opex;
     Cash.loan_payment := loan_payment;
     Cash.cashflow := cashflow;
     Cash.cash_balance := Fadd (Cash.cash_balance before) cashflow |}.

Fixpoint discount_loop (s : Values) (years : list Z) (data : table Cash.row)
  : result (table Cash.row) :=
  match years with
  | [] => Ok data
  | year :: rest =>
      if 0 <? year then
        r <- loc data year ;;
        before <- loc data (year - 1) ;;
        discount_loop s rest (set_row data year (discounted_row s year r before))
      else discount_loop s rest data
  end.

Definition _calc_discounted_cashflow (s : Values) (cf : table Cash.row)
  : result (table Cash.row) :=
  data <- discount_loop s (index cf) cf ;;
  Ok (sort_index data).

Definition column {R : Type} (c : R -> F) (t : table R) : list F :=
  map (fun yr => c (snd yr)) t.

Definition _calc_LCOE (s : Values) (dcf : table Cash.row) : F * F :=
  let investment := total_investment s in
  let equity := Fin (investment * (1 - v_loan s)) in
  let loan_plus_interest := Fsum (column Cash.loan_payment dcf) in
  let opex := Fsum (column Cash.opex dcf) in
  let grid_import := Fsum (column Cash.import_costs dcf) in
  let grid_export := Fsum (column Cash.export_sales dcf) in
  let energy := Fmul (Fsum (column Cash.enPV_self_cons dcf)) (Fin 1000) in
  let load := Fmul (Fsum (column Cash.enLoad dcf)) (Fin 1000) in
  let LCOE :=
    Fdiv (Fsub (Fadd (Fadd equity loan_plus_interest) opex) grid_export)
         energy in
  let BLCOE :=
    Fdiv (Fadd (Fsub (Fadd (Fadd equity loan_plus_interest) opex) grid_export)
               grid_import)
         load in
  (Fmul LCOE (Fin 1000), Fmul BLCOE (Fin 1000)).

Definition _calc_summary (s : Values) (cf dcf : table Cash.row)
  : result (Q * Summary.row) :=
  let total (c : Cash.row -> F) := Fsum (column c cf) in
  let lb := _calc_LCOE s dcf in
  irr <- irr (column Cash.cashflow cf) ;;
  pbp <- pay_back_period_of (v_study_period s)
           (map (fun yr => (fst yr, Cash.cash_balance (snd yr))) cf) ;;
  Ok (v_pv_capacity s,
      {| Summary.load := total Cash.enLoad;
         Summary.energy_pv_total := total Cash.enPV_total;
         Summary.energy_pv_self_cons := total Cash.enPV_self_cons;
         Summary.energy_grid_import := total Cash.enGrid_import;
         Summary.energy_grid_export := total Cash.enGrid_export;
         Summary.pv_self_cons :=
           Fmul (Fdiv (total Cash.enPV_self_cons) (total Cash.enLoad))
                (Fin 100);
         Summary.pv_utilisation :=
           Fmul (Fdiv (total Cash.enPV_self_cons) (total Cash.enPV_total))
                (Fin 100);
         Summary.capex := Fin (v_capex s * v_pv_capacity s);
         Summary.opex := Fmean (column Cash.opex cf);
         Summary.lcoe := fst lb;
         Summary.blcoe := snd lb;
         Summary.npv := Fsum (column Cash.cashflow dcf);
         Summary.irr := Fmul irr (Fin 100);
         Summary.pay_back_period := pbp |}).

(** [Scenario(inputs)] *)
Definition Scenario_init (inputs : Inputs) : result Scenario :=
  s <- values_of inputs ;;
  let eb := _calc_annual_energy_balance s in
  ebs <- _calc_energy_balance_summary eb ;;
  cf <- _calc_cashflow s ebs ;;
  dcf <- _calc_discounted_cashflow s cf ;;
  d <- _calc_summary s cf dcf ;;
  Ok {| self := s; energy_balance := eb; energy_balance_summary := ebs;
        cashflow := cf; discounted_cashflow := dcf; data := d |}.

End Engine.

(** ** Dictionaries

    A Python [dict] keeps its keys in insertion order; assigning to a key
    that is present replaces the value where the key stands. *)

Definition dict (K V : Type) : Type := list (K * V).

Fixpoint dict_set {K V : Type} (eqb : K -> K -> bool) (d : dict K V)
    (k : K) (v : V) : dict K V :=
  match d with
  | [] => [(k, v)]
  | (k', v') :: d' =>
      if eqb k' k then (k', v) :: d' else (k', v') :: dict_set eqb d' k v
  end.

(** [d[label]] where the keys are integers and the label a number. *)
Fixpoint dict_get {V : Type} (d : dict Z V) (label : Q) : result V :=
  match d with
  | [] => Raise KeyError
  | (k, v) :: d' => if Qeq_bool (inject_Z k) label then Ok v else dict_get d' label
  end.

(** [round(x)] on a numpy float: an [int], or an exception on a special
    value. *)
Definition py_round (x : F) : result Z :=
  match x with
  | Fin q => Ok (round_half_even q)
  | NaN => Raise ValueError
  | PInf | NInf => Raise OverflowError
  end.

(** ** The capacity sweep ([PVSizing]) *)

Module PVSizing.

Section Sweep.

Variable npf_irr : list F -> result F.
Variable float_pow : Q -> Q -> F.

(** [math.log10] on a positive argument is outside rational arithmetic and
    left abstract. *)
Variable math_log10 : Q -> Q.

(** [np.logspace(start, stop, num)]: [10 ** np.linspace(start, stop, num)]. *)
Definition logspace (start stop : Q) (num : Z) : result (list F) :=
  ys <- linspace start stop num ;;
  Ok (map (py_pow float_pow 10) ys).

Definition generate_pv_range (var_min var_max : Q) (steps : Z)
    (log_scale : bool) : result (list F) :=
  if log_scale then
    if Qle_bool (var_max - var_min) 0 then Raise ValueError
    else
      let log_delta := math_log10 (var_max - var_min) in
      logspace 0 log_delta steps
  else
    ys <- linspace var_min var_max steps ;;
    Ok (map Fin ys).

(** The loop of [run_pv_sensitivity].  The inputs object is shared: it is
    threaded through the loop and returned, also when an iteration raises. *)
Fixpoint run_loop (pv_range : list F) (all_scenario : dict Z Scenario)
    (inputs : Inputs) : result (dict Z Scenario) * Inputs :=
  match pv_range with
  | [] => (Ok all_scenario, inputs)
  | capacity :: rest =>
      match py_round capacity with
      | Raise e => (Raise e, inputs)
      | Ok c =>
          let inputs := set_pv_capacity (VInt c) inputs in
          match Scenario_init npf_irr float_pow inputs with
          | Raise e => (Raise e, inputs)
          | Ok scenario =>
              run_loop rest (dict_set Z.eqb all_scenario c scenario) inputs
          end
      end
  end.

Definition run_pv_sensitivity (pv_range : list F) (inputs : Inputs)
  : result (dict Z Scenario) * Inputs :=
  run_loop pv_range [] inputs.

Definition aggregate_data (scenario : dict Z Scenario)
  : list (Q * Summary.row) :=
  map (fun ks => data (snd ks)) scenario.

(** [highest_npv]: the label of the largest NPV in the aggregate table, then
    the scenario stored under that label.  An empty table has no [npv]
    column; when every NPV is NaN the label is NaN and the lookup fails. *)
Definition highest_npv (scenario : dict Z Scenario)
    (data : list (Q * Summary.row)) : result Scenario :=
  match data with
  | [] => Raise KeyError
  | _ =>
      match idxmax (map (fun r => (fst r, Summary.npv (snd r))) data) with
      | None => Raise KeyError
      | Some highest_npv_scenario => dict_get scenario highest_npv_scenario
      end
  end.

End Sweep.

Record t : Type := {
  log_scale : bool;
  pv_range : list F;
  scenario : dict Z Scenario;
  data : list (Q * Summary.row);
  best_result : Scenario
}.

(** [PVSizing(inputs, var_min, var_max, steps, log_scale)]; the second
    component is the shared inputs object after the call. *)
Definition init (npf_irr : list F -> result F) (float_pow : Q -> Q -> F)
    (math_log10 : Q -> Q) (inputs : Inputs) (var_min var_max : Q)
    (steps : Z) (log_scale : bool) : result t * Inputs :=
  match generate_pv_range float_pow math_log10 var_min var_max steps
          log_scale with
  | Raise e => (Raise e, inputs)
  | Ok pv_range =>
      match run_pv_sensitivity npf_irr float_pow pv_range inputs with
      | (Raise e, inputs) => (Raise e, inputs)
      | (Ok scenario, inputs) =>
          let data := aggregate_data scenario in
          match highest_npv scenario data with
          | Raise e => (Raise e, inputs)
          | Ok best =>
              (Ok {| log_scale := log_scale; pv_range := pv_range;
                     scenario := scenario; data := data;
                     best_result := best |}, inputs)
          end
      end
  end.

End PVSizing.

(** ** The two-variable sensitivity sweep ([Sensitivity]) *)

Module Sensitivity.

Section Sweep.

Variable npf_irr : list F -> result F.
Variable float_pow : Q -> Q -> F.
Variable math_log10 : Q -> Q.

Variables (pv_var_min pv_var_max : Q) (pv_steps : Z) (pv_log_scale : bool).

(** The inner loop over the values of the chosen variable; [input_var] is
    the field object fetched by [getattr], of which only the unit is read. *)
Fixpoint value_loop (variable : string) (input_var : UnitVar)
    (variable_range : list Q) (results : dict Q PVSizing.t) (inputs : Inputs)
  : result (dict Q PVSizing.t) * Inputs :=
  match variable_range with
  | [] => (Ok results, inputs)
  | sensitivity_val :: rest =>
      let sensitivity_val := round_decimals 4 sensitivity_val in
      let sensitivity_val :=
        if String.eqb (unit input_var) "%" then (sensitivity_val / 100)%Q
        else sensitivity_val in
      let inputs := set_field_value variable (VFloat sensitivity_val) inputs in
      match PVSizing.init npf_irr float_pow math_log10 inputs
              pv_var_min pv_var_max pv_steps pv_log_scale with
      | (Raise e, inputs) => (Raise e, inputs)
      | (Ok pv_sizing, inputs) =>
          value_loop variable input_var rest
            (dict_set Qeq_bool results sensitivity_val pv_sizing) inputs
      end
  end.

(** The outer loop over the fields of the inputs, looking for the one
    named [variable]. *)
Fixpoint field_loop (names : list string) (variable : string)
    (variable_range : list Q) (results : dict Q PVSizing.t) (inputs : Inputs)
  : result (dict Q PVSizing.t) * Inputs :=
  match names with
  | [] => (Ok results, inputs)
  | field_name :: rest =>
      if String.eqb field_name variable then
        match getattr inputs field_name with
        | Raise e => (Raise e, inputs)
        | Ok input_var =>
            match value_loop variable input_var variable_range results
                    inputs with
            | (Raise e, inputs) => (Raise e, inputs)
            | (Ok results, inputs) =>
                field_loop rest variable variable_range results inputs
            end
        end
      else field_loop rest variable variable_range results inputs
  end.

Definition run_sensitivity (variable : string) (variable_range : list Q)
    (inputs : Inputs) : result (dict Q PVSizing.t) * Inputs :=
  field_loop fields variable variable_range [] inputs.

End Sweep.

Record t : Type := {
  variable : string;
  var_min : Q;
  var_max : Q;
  variable_range : list Q;
  pv_var_min : Q;
  pv_var_max : Q;
  pv_steps : Z;
  pv_log_scale : bool;
  pv_sizing : dict Q PVSizing.t
}.

(** [Sensitivity(inputs, variable, var_min, var_max, steps, ...)] *)
Definition init (npf_irr : list F -> result F) (float_pow : Q -> Q -> F)
    (math_log10 : Q -> Q) (inputs : Inputs) (variable : string)
    (var_min var_max : Q) (steps : Z) (pv_var_min pv_var_max : Q)
    (pv_steps : Z) (pv_log_scale : bool) : result t * Inputs :=
  match linspace var_min var_max steps with
  | Raise e => (Raise e, inputs)
  | Ok variable_range =>
      match run_sensitivity npf_irr float_pow math_log10 pv_var_min
              pv_var_max pv_steps pv_log_scale variable variable_range
              inputs with
      | (Raise e, inputs) => (Raise e, inputs)
      | (Ok results, inputs) =>
          (Ok {| variable := variable; var_min := var_min;
                 var_max := var_max; variable_range := variable_range;
                 pv_var_min := pv_var_min; pv_var_max := pv_var_max;
                 pv_steps := pv_steps; pv_log_scale := pv_log_scale;
                 pv_sizing := results |}, inputs)
      end
  end.

End Sensitivity.

(** ** The objective adapter ([ScipyOptimiser]) *)

Module ScipyOptimiser.

Local Open Scope string_scope.

Section Adapter.

(** The adapter drives a scenario object through an interface the
    [Scenario] class above does not provide: plain attributes that are
    assigned, a method [update_scenario()] and a table [summary] read by
    metric name.  That interface is taken as given: [Scn] is the state of the
    scenario object, [setattr] assigns an attribute, [update_scenario] reruns
    the calculations (it may raise) and [summary] reads one metric (it may
    raise on an unknown metric). *)
Variable Scn : Type.
Variable setattr : string -> Q -> Scn -> Scn.
Variable update_scenario : Scn -> result Scn.
Variable summary : Scn -> string -> result F.

Record t : Type := {
  scenario : Scn;
  objective : string;
  optimisation : string;
  variable : string;
  init_value : Q;
  to_value : Q
}.

Definition with_scenario (s : Scn) (o : t) : t :=
  {| scenario := s; objective := objective o;
     optimisation := optimisation o; variable := variable o;
     init_value := init_value o; to_value := to_value o |}.

(** The first [match]: the attribute each supported variable name sets. *)
Definition attribute_of (variable : string) : result string :=
  if variable =? "Study Period" then Ok "study_period"
  else if variable =? "Discount Rate" then Ok "discount_rate"
  else if variable =? "PV Capacity" then Ok "pv_capacity"
  else if variable =? "Module Degradation" then Ok "pv_degradation"
  else if variable =? "CAPEX" then Ok "capex"
  else if variable =? "OPEX" then Ok "opex"
  else if variable =? "Import Tariff" then Ok "import_tariff"
  else if variable =? "Export Tariff" then Ok "export_tariff"
  else Raise ValueError.

(** The second [match]: the value returned for each strategy. *)
Definition objective_value (o : t) (s : Scn) : result F :=
  if optimisation o =? "Min" then summary s (objective o)
  else if optimisation o =? "Max" then
    m <- summary s (objective o) ;; Ok (Fmul m (Fin (-1)))
  else if optimisation o =? "Goal-Seek" then
    m <- summary s (objective o) ;; Ok (Fsub m (Fin (to_value o)))
  else Raise ValueError.

(** [optimising_function_wrapper(x)]: the returned value (or the exception
    raised) and the adapter after the call, whose scenario object has been
    mutated. *)
Definition optimising_function_wrapper (o : t) (x : list Q) : result F * t :=
  match attribute_of (variable o) with
  | Raise e => (Raise e, o)
  | Ok attribute =>
      match x with
      | [] => (Raise IndexError, o)
      | x0 :: _ =>
          let o := with_scenario (setattr attribute x0 (scenario o)) o in
          match update_scenario (scenario o) with
          | Raise e => (Raise e, o)
          | Ok s =>
              let o := with_scenario s o in
              (objective_value o s, o)
          end
      end
  end.

End Adapter.





Arguments scenario {Scn} _.
Arguments objective {Scn} _.
Arguments optimisation {Scn} _.
Arguments variable {Scn} _.
Arguments init_value {Scn} _.
Arguments to_value {Scn} _.
Arguments with_scenario {Scn} _ _.

End ScipyOptimiser.

(** ** The yield normaliser ([Inputs._format_file_inputs])

    The two uploaded frames are given by their first column ([load]) and
    their [E_Grid] column, row by row.  The result is the load as a float
    series and the reference frame with its two added columns. *)

Module Normaliser.

Record ref_row : Type := {
  E_Grid : Q;
  enPV_ref : Q;
  SY : F
}.

Definition _format_file_inputs (load e_grid : list Q)
    (ref_capacity postproc_losses : Q) : result (list Q * list ref_row) :=
  if negb (Nat.eqb (List.length e_grid) (List.length load)) then
    Raise ValueError
  else
    Ok (load,
        map (fun e =>
               let e := if Qltb e 0 then 0%Q else e in
               let en := (e * (1 - postproc_losses))%Q in
               {| E_Grid := e; enPV_ref := en;
                  SY := Fdiv (Fin en) (Fin ref_capacity) |})
            e_grid).

End Normaliser.

(** * Properties *)

(** ** Basic facts *)

Lemma bind_ok {A B : Type} (m : result A) (k : A -> result B) (b : B) :
  bind m k = Ok b -> exists a, m = Ok a /\ k a = Ok b.
Proof. destruct m as [a|e]; simpl; intros H; [eauto | discriminate]. Qed.

Lemma Qltb_true (x y : Q) : Qltb x y = true <-> (x < y)%Q.
Proof.
  unfold Qltb. rewrite negb_true_iff. split; intros H.
  - apply Qnot_le_lt. intros Hle. apply Qle_bool_iff in Hle. congruence.
  - destruct (Qle_bool y x) eqn:E; [|reflexivity].
    apply Qle_bool_iff in E. exfalso. exact (Qlt_not_le _ _ H E).
Qed.

Lemma Qltb_false (x y : Q) : Qltb x y = false <-> (y <= x)%Q.
Proof.
  unfold Qltb. rewrite negb_false_iff. apply Qle_bool_iff.
Qed.


(** ** Tables: lookup, update and sorting *)

Section TableFacts.

Context {R : Type}.
Implicit Types (t : table R) (k : Z) (r : R).

Lemma loc_In t k r : loc t k = Ok r -> In (k, r) t.
Proof.
  induction t as [|[k' r'] t IH]; simpl; [discriminate|].
  destruct (k' =? k) eqn:E; intros H.
  - apply Z.eqb_eq in E. inversion H. subst. now left.
  - right. now apply IH.
Qed.

Lemma loc_index t k : In k (index t) -> exists r, loc t k = Ok r.
Proof.
  induction t as [|[k' r'] t IH]; simpl; [tauto|].
  intros [H|H]; destruct (k' =? k) eqn:E; eauto.
  apply Z.eqb_neq in E. congruence.
Qed.

Lemma loc_in_index t k r : loc t k = Ok r -> In k (index t).
Proof.
  intros H. apply loc_In in H. unfold index.
  change k with (fst (k, r)). now apply in_map.
Qed.

Lemma index_set_row t k r : index (set_row t k r) = index t.
Proof.
  induction t as [|[k' r'] t IH]; simpl; [reflexivity|].
  destruct (k' =? k); simpl; [reflexivity | now rewrite IH].
Qed.

Lemma loc_set_row_same t k r :
  In k (index t) -> loc (set_row t k r) k = Ok r.
Proof.
  induction t as [|[k' r'] t IH]; simpl; [tauto|].
  intros H. destruct (k' =? k) eqn:E; simpl; rewrite E; [reflexivity|].
  apply IH. destruct H as [H|H]; [|exact H].
  apply Z.eqb_neq in E. congruence.
Qed.

Lemma loc_set_row_other t k k' r :
  k <> k' -> loc (set_row t k r) k' = loc t k'.
Proof.
  intros Hne. induction t as [|[k0 r0] t IH]; simpl; [reflexivity|].
  destruct (k0 =? k) eqn:E; simpl.
  - apply Z.eqb_eq in E. subst k0.
    destruct (k =? k') eqn:E'; [|reflexivity].
    apply Z.eqb_eq in E'. congruence.
  - destruct (k0 =? k'); [reflexivity | exact IH].
Qed.

Lemma set_row_Forall (P : R -> Prop) t k r :
  Forall (fun x => P (snd x)) t -> P r ->
  Forall (fun x => P (snd x)) (set_row t k r).
Proof.
  intros Ht Hr. induction Ht as [|[k' r'] t Hx Ht IH]; simpl; [constructor|].
  destruct (k' =? k); constructor; auto.
Qed.

Lemma loc_Forall (P : R -> Prop) t k r :
  Forall (fun x => P (snd x)) t -> loc t k = Ok r -> P r.
Proof.
  intros Ht H. apply loc_In in H.
  rewrite Forall_forall in Ht. exact (Ht _ H).
Qed.

Lemma loc_insert_by_index (x : Z * R) t k :
  loc (insert_by_index x t) k = if fst x =? k then Ok (snd x) else loc t k.
Proof.
  destruct x as [kx rx]. simpl.
  induction t as [|[k' r'] t IH]; simpl; [reflexivity|].
  destruct (kx <=? k') eqn:L; simpl; [reflexivity|].
  rewrite IH. destruct (kx =? k) eqn:E; [|reflexivity].
  apply Z.eqb_eq in E. subst k. apply Z.leb_gt in L.
  destruct (k' =? kx) eqn:E'; [|reflexivity].
  apply Z.eqb_eq in E'. lia.
Qed.

(** Sorting does not change what a label designates. *)
Lemma loc_sort_index t k : loc (sort_index t) k = loc t k.
Proof.
  induction t as [|[k' r'] t IH]; simpl; [reflexivity|].
  rewrite loc_insert_by_index. simpl. now rewrite IH.
Qed.

Lemma insert_by_index_In (x y : Z * R) t :
  In y (insert_by_index x t) <-> y = x \/ In y t.
Proof.
  induction t as [|z t IH]; simpl.
  - intuition congruence.
  - destruct (fst x <=? fst z); simpl; [intuition congruence|].
    rewrite IH. intuition congruence.
Qed.

Lemma sort_index_In (y : Z * R) t : In y (sort_index t) <-> In y t.
Proof.
  induction t as [|z t IH]; simpl; [tauto|].
  rewrite insert_by_index_In, IH. intuition congruence.
Qed.

Lemma sort_index_Forall (P : Z * R -> Prop) t :
  Forall P t -> Forall P (sort_index t).
Proof.
  rewrite !Forall_forall. intros H y Hy. apply H. now apply sort_index_In.
Qed.

Lemma index_sort_index_In t k : In k (index (sort_index t)) <-> In k (index t).
Proof.
  unfold index. rewrite !in_map_iff.
  split; intros [y [Hk Hy]]; exists y; split; auto; now apply sort_index_In.
Qed.

(** The labels of a table are strictly increasing. *)
Definition ascending (l : list Z) : Prop := Sorted Z.lt l.

Lemma insert_by_index_head (x : Z * R) t :
  HdRel Z.lt (fst x) (index t) -> insert_by_index x t = x :: t.
Proof.
  destruct t as [|y t]; simpl; [reflexivity|].
  intros H. inversion H; subst.
  destruct (fst x <=? fst y) eqn:L; [reflexivity|].
  apply Z.leb_gt in L. lia.
Qed.

Lemma sort_index_ascending t : ascending (index t) -> sort_index t = t.
Proof.
  induction t as [|x t IH]; simpl; [reflexivity|].
  intros H. inversion H; subst. rewrite IH by assumption.
  now apply insert_by_index_head.
Qed.

Lemma sort_index_app_least (x : Z * R) t :
  ascending (index t) -> (forall k, In k (index t) -> fst x < k) ->
  sort_index (t ++ [x]) = x :: t.
Proof.
  induction t as [|y t IH]; simpl; [reflexivity|].
  intros H Hlt. inversion H; subst.
  rewrite IH; [|assumption|intros k Hk; apply Hlt; now right].
  simpl. assert (fst x < fst y) by (apply Hlt; now left).
  destruct (fst y <=? fst x) eqn:L; [apply Z.leb_le in L; lia|].
  f_equal. now apply insert_by_index_head.
Qed.

End TableFacts.

Lemma py_range_In lo hi k : In k (py_range lo hi) <-> lo <= k < hi.
Proof.
  unfold py_range. rewrite in_map_iff. split.
  - intros [i [Hk Hi]]. apply in_seq in Hi. lia.
  - intros H. exists (Z.to_nat (k - lo)). split; [lia|].
    apply in_seq. lia.
Qed.

Lemma py_range_length lo hi : List.length (py_range lo hi) = Z.to_nat (hi - lo).
Proof. unfold py_range. now rewrite length_map, length_seq. Qed.

Lemma py_range_cons lo hi :
  lo < hi -> py_range lo hi = lo :: py_range (lo + 1) hi.
Proof.
  intros H. unfold py_range.
  replace (Z.to_nat (hi - lo)) with (S (Z.to_nat (hi - (lo + 1)))) by lia.
  simpl. f_equal; [lia|].
  rewrite <- seq_shift, map_map. apply map_ext. intros i. lia.
Qed.

Lemma py_range_nil lo hi : hi <= lo -> py_range lo hi = [].
Proof.
  intros H. unfold py_range. now replace (Z.to_nat (hi - lo)) with 0%nat by lia.
Qed.

Lemma py_range_ascending lo hi : ascending (py_range lo hi).
Proof.
  remember (Z.to_nat (hi - lo)) as n eqn:En.
  revert lo En. induction n as [|n IH]; intros lo En.
  - rewrite py_range_nil by lia. constructor.
  - rewrite py_range_cons by lia. constructor.
    + apply IH. lia.
    + destruct (Z_lt_dec (lo + 1) hi) as [L|L].
      * rewrite py_range_cons by lia. constructor. lia.
      * rewrite py_range_nil by lia. constructor.
Qed.

(** ** The scenario engine: structure of a build *)

Lemma bind_raise {A B : Type} (m : result A) (k : A -> result B) (e : pyerr) :
  m = Raise e -> bind m k = Raise e.
Proof. intros ->. reflexivity. Qed.

Ltac inv_bind H :=
  let a := fresh "a" in
  let Ha := fresh "Ha" in
  apply bind_ok in H; destruct H as [a [Ha H]].

Section EngineFacts.

Variable npf_irr : list F -> result F.
Variable float_pow : Q -> Q -> F.

Local Abbreviation build := (Scenario_init npf_irr float_pow).
Local Abbreviation calc_cashflow := (_calc_cashflow float_pow).
Local Abbreviation calc_discounted_cashflow :=
  (_calc_discounted_cashflow float_pow).
Local Abbreviation calc_summary := (_calc_summary npf_irr).

Lemma Scenario_init_inv inputs sc :
  build inputs = Ok sc ->
  values_of inputs = Ok (self sc) /\
  energy_balance sc = _calc_annual_energy_balance (self sc) /\
  _calc_energy_balance_summary (energy_balance sc)
    = Ok (energy_balance_summary sc) /\
  calc_cashflow (self sc) (energy_balance_summary sc) = Ok (cashflow sc) /\
  calc_discounted_cashflow (self sc) (cashflow sc)
    = Ok (discounted_cashflow sc) /\
  calc_summary (self sc) (cashflow sc) (discounted_cashflow sc)
    = Ok (data sc).
Proof.
  unfold Scenario_init. intros H.
  inv_bind H. inv_bind H. inv_bind H. inv_bind H. inv_bind H.
  inversion H; subst; simpl. repeat split; assumption.
Qed.

Lemma values_of_pv_capacity i s :
  values_of i = Ok s -> as_num (value (pv_capacity i)) = Ok (v_pv_capacity s).
Proof.
  intros H. unfold values_of in H.
  apply bind_ok in H. destruct H as [ld [_ H]].
  apply bind_ok in H. destruct H as [sy [_ H]].
  apply bind_ok in H. destruct H as [sp [_ H]].
  apply bind_ok in H. destruct H as [dr [_ H]].
  apply bind_ok in H. destruct H as [cap [Hcap H]].
  repeat (apply bind_ok in H; destruct H as [? [_ H]]).
  inversion H. simpl. exact Hcap.
Qed.

Lemma calc_summary_capacity s cf dcf d :
  calc_summary s cf dcf = Ok d -> fst d = v_pv_capacity s.
Proof.
  unfold _calc_summary. intros H. inv_bind H. inv_bind H.
  now inversion H.
Qed.

(** A scenario built after the PV capacity has been set to an integer has
    that integer as its capacity and as the index of its summary row. *)
Lemma built_capacity inputs k sc :
  build (set_pv_capacity (VInt k) inputs) = Ok sc ->
  v_pv_capacity (self sc) = inject_Z k /\ fst (data sc) = inject_Z k.
Proof.
  intros Hb.
  destruct (Scenario_init_inv _ _ Hb) as (Hv & _ & _ & _ & _ & Hs).
  apply values_of_pv_capacity in Hv. simpl in Hv.
  assert (E : v_pv_capacity (self sc) = inject_Z k) by congruence.
  split; [exact E|]. now rewrite (calc_summary_capacity _ _ _ _ Hs).
Qed.

Lemma energy_balance_index s :
  index (_calc_annual_energy_balance s) = py_range 1 (v_study_period s + 1).
Proof.
  unfold _calc_annual_energy_balance, index. rewrite map_map. simpl.
  apply map_id.
Qed.

Lemma energy_balance_loc s year :
  1 <= year <= v_study_period s ->
  loc (_calc_annual_energy_balance s) year = Ok (year_data s year).
Proof.
  intros Hy. unfold _calc_annual_energy_balance.
  assert (Hin : In year (py_range 1 (v_study_period s + 1)))
    by (apply py_range_In; lia).
  induction (py_range 1 (v_study_period s + 1)) as [|y l IH];
    simpl in *; [tauto|].
  destruct (y =? year) eqn:E.
  - apply Z.eqb_eq in E. now subst.
  - apply IH. destruct Hin as [Hin|Hin]; [|exact Hin].
    apply Z.eqb_neq in E. congruence.
Qed.

Lemma energy_balance_summary_index eb ebs :
  _calc_energy_balance_summary eb = Ok ebs -> index ebs = index eb.
Proof.
  unfold _calc_energy_balance_summary. destruct eb as [|x eb]; [discriminate|].
  intros H. inversion H. subst. unfold index. simpl. f_equal.
  now rewrite map_map.
Qed.

Lemma energy_balance_summary_total s :
  1 <= v_study_period s ->
  exists ebs,
    _calc_energy_balance_summary (_calc_annual_energy_balance s) = Ok ebs.
Proof.
  intros H. unfold _calc_energy_balance_summary.
  destruct (_calc_annual_energy_balance s) as [|x eb] eqn:E; [|eauto].
  apply (f_equal index) in E. rewrite energy_balance_index in E.
  rewrite py_range_cons in E by lia. discriminate.
Qed.

(** With no year to simulate the build stops on the summary attribute that
    was never assigned. *)
Lemma energy_balance_summary_empty s :
  v_study_period s < 1 ->
  _calc_energy_balance_summary (_calc_annual_energy_balance s)
    = Raise AttributeError.
Proof.
  intros H. unfold _calc_annual_energy_balance.
  now rewrite py_range_nil by lia.
Qed.

(** *** The two loops over the years *)

Lemma cash_balance_loop_index years t t' :
  cash_balance_loop years t = Ok t' -> index t' = index t.
Proof.
  revert t. induction years as [|y years IH]; simpl; intros t H.
  - now inversion H.
  - inv_bind H. destruct (y =? 0).
    + apply IH in H. now rewrite index_set_row in H.
    + inv_bind H. apply IH in H. now rewrite index_set_row in H.
Qed.

Lemma cash_balance_loop_total years t :
  (forall y, In y years -> In y (index t) /\ (y = 0 \/ In (y - 1) (index t))) ->
  exists t', cash_balance_loop years t = Ok t'.
Proof.
  revert t. induction years as [|y years IH]; simpl; intros t H; [eauto|].
  destruct (H y (or_introl eq_refl)) as [Hy Hp].
  destruct (loc_index _ _ Hy) as [r ->]. simpl.
  destruct (y =? 0) eqn:E.
  - apply IH. intros z Hz. rewrite index_set_row. auto.
  - apply Z.eqb_neq in E. destruct Hp as [Hp|Hp]; [contradiction|].
    destruct (loc_index _ _ Hp) as [b ->]. simpl.
    apply IH. intros z Hz. rewrite index_set_row. auto.
Qed.

(** Rows whose label is not visited keep their cells. *)
Lemma cash_balance_loop_other years t t' k :
  cash_balance_loop years t = Ok t' -> ~ In k years -> loc t' k = loc t k.
Proof.
  revert t. induction years as [|y years IH]; simpl; intros t H Hk.
  - now inversion H.
  - assert (y <> k) by tauto. assert (~ In k years) by tauto.
    inv_bind H. destruct (y =? 0).
    + rewrite (IH _ H) by assumption. now apply loc_set_row_other.
    + inv_bind H. rewrite (IH _ H) by assumption. now apply loc_set_row_other.
Qed.

(** Every row of the result is a row of the start with a new balance. *)
Lemma cash_balance_loop_rows years t t' k r' :
  cash_balance_loop years t = Ok t' -> loc t' k = Ok r' ->
  exists r, loc t k = Ok r /\ r' = Cash.with_cash_balance (Cash.cash_balance r') r.
Proof.
  revert t. induction years as [|y years IH]; simpl; intros t H Hr.
  - inversion H; subst. exists r'. split; [assumption|]. now destruct r'.
  - inv_bind H.
    assert (Hstep : forall b,
      cash_balance_loop years (set_row t y (Cash.with_cash_balance b a)) = Ok t' ->
      exists r, loc t k = Ok r /\
                r' = Cash.with_cash_balance (Cash.cash_balance r') r).
    { intros b Hb. destruct (IH _ Hb Hr) as [r [Hl Hw]].
      destruct (Z.eq_dec y k) as [->|Hne].
      - rewrite loc_set_row_same in Hl by (eapply loc_in_index; eassumption).
        inversion Hl; subst r. exists a. split; [assumption|].
        rewrite Hw. reflexivity.
      - rewrite loc_set_row_other in Hl by assumption. eauto. }
    destruct (y =? 0); [eauto|]. inv_bind H. eauto.
Qed.

Lemma discount_loop_index s years t t' :
  discount_loop float_pow s years t = Ok t' -> index t' = index t.
Proof.
  revert t. induction years as [|y years IH]; simpl; intros t H.
  - now inversion H.
  - destruct (0 <? y); [|now apply IH].
    inv_bind H. inv_bind H. apply IH in H. now rewrite index_set_row in H.
Qed.

Lemma discount_loop_total s years t :
  (forall y, In y years -> In y (index t) /\ (y <= 0 \/ In (y - 1) (index t))) ->
  exists t', discount_loop float_pow s years t = Ok t'.
Proof.
  revert t. induction years as [|y years IH]; simpl; intros t H; [eauto|].
  destruct (H y (or_introl eq_refl)) as [Hy Hp].
  destruct (0 <? y) eqn:E; [|apply IH; auto].
  apply Z.ltb_lt in E. destruct Hp as [Hp|Hp]; [lia|].
  destruct (loc_index _ _ Hy) as [r ->].
  destruct (loc_index _ _ Hp) as [b ->]. simpl.
  apply IH. intros z Hz. rewrite index_set_row. auto.
Qed.

(** Only rows of a positive year are rewritten by the discounting loop. *)
Lemma discount_loop_other s years t t' k :
  discount_loop float_pow s years t = Ok t' ->
  (k <= 0 \/ ~ In k years) -> loc t' k = loc t k.
Proof.
  revert t. induction years as [|y years IH]; simpl; intros t H Hk.
  - now inversion H.
  - assert (Hk' : k <= 0 \/ ~ In k years) by tauto.
    destruct (0 <? y) eqn:E; [|now apply IH].
    apply Z.ltb_lt in E. inv_bind H. inv_bind H.
    rewrite (IH _ H Hk'). apply loc_set_row_other.
    destruct Hk as [Hk|Hk]; [lia | tauto].
Qed.

(** *** The cashflow tables are indexed by the years 0 .. study period *)

Lemma py_range_from_zero n : 0 <= n -> py_range 0 (n + 1) = 0 :: py_range 1 (n + 1).
Proof. intros H. now rewrite py_range_cons by lia. Qed.

Lemma calc_cashflow_total s ebs :
  1 <= v_study_period s ->
  index ebs = py_range 1 (v_study_period s + 1) ->
  exists cf, calc_cashflow s ebs = Ok cf /\
             index cf = py_range 0 (v_study_period s + 1).
Proof.
  intros Hsp Hidx. unfold _calc_cashflow.
  set (data := map (fun ye => (fst ye, cashflow_row float_pow s (fst ye) (snd ye))) ebs).
  set (year0 := Cash.only_cashflow _).
  assert (Hd : index data = py_range 1 (v_study_period s + 1)).
  { unfold data, index. rewrite map_map. simpl. exact Hidx. }
  rewrite sort_index_app_least;
    [|rewrite Hd; apply py_range_ascending
     |intros k Hk; rewrite Hd in Hk; apply py_range_In in Hk; simpl; lia].
  assert (Hall : index ((0, year0) :: data) = py_range 0 (v_study_period s + 1)).
  { simpl. rewrite Hd. symmetry. apply py_range_from_zero. lia. }
  destruct (cash_balance_loop_total (index ((0, year0) :: data))
              ((0, year0) :: data)) as [t' Ht'].
  { intros y Hy. split; [exact Hy|]. rewrite Hall in *.
    apply py_range_In in Hy. destruct (Z.eq_dec y 0); [now left|right].
    apply py_range_In. lia. }
  rewrite Ht'. simpl. exists (sort_index t').
  pose proof (cash_balance_loop_index _ _ _ Ht') as Hi.
  rewrite sort_index_ascending; rewrite Hi, Hall; auto using py_range_ascending.
Qed.

Lemma calc_discounted_cashflow_total s cf :
  index cf = py_range 0 (v_study_period s + 1) ->
  exists dcf, calc_discounted_cashflow s cf = Ok dcf /\
              index dcf = py_range 0 (v_study_period s + 1).
Proof.
  intros Hidx. unfold _calc_discounted_cashflow.
  destruct (discount_loop_total s (index cf) cf) as [t' Ht'].
  { intros y Hy. split; [exact Hy|]. rewrite Hidx in *.
    apply py_range_In in Hy. destruct (Z_le_dec y 0); [now left|right].
    apply py_range_In. lia. }
  rewrite Ht'. simpl. exists (sort_index t').
  pose proof (discount_loop_index _ _ _ _ Ht') as Hi.
  rewrite sort_index_ascending; rewrite Hi, Hidx; auto using py_range_ascending.
Qed.

Lemma pay_back_period_of_total sp col :
  0 <= sp -> exists p, pay_back_period_of sp col = Ok p.
Proof.
  intros H. unfold pay_back_period_of, linspace.
  destruct (sp * 100 <? 0) eqn:E; [apply Z.ltb_lt in E; lia|].
  simpl. eauto.
Qed.

(** The column of cashflows the engine hands to [npf.irr]. *)
Definition irr_argument (s : Values) : result (list F) :=
  ebs <- _calc_energy_balance_summary (_calc_annual_energy_balance s) ;;
  cf <- calc_cashflow s ebs ;;
  Ok (column Cash.cashflow cf).

(** With values of the expected dynamic types and at least one year to
    simulate, every table is built, and the build ends as [npf.irr] does on
    the cashflow column: with its exception, or with a scenario. *)
Lemma Scenario_init_outcome inputs s :
  values_of inputs = Ok s -> 1 <= v_study_period s ->
  exists ebs cf dcf,
    _calc_energy_balance_summary (_calc_annual_energy_balance s) = Ok ebs /\
    calc_cashflow s ebs = Ok cf /\
    calc_discounted_cashflow s cf = Ok dcf /\
    index ebs = py_range 1 (v_study_period s + 1) /\
    index cf = py_range 0 (v_study_period s + 1) /\
    irr_argument s = Ok (column Cash.cashflow cf) /\
    (forall e, irr npf_irr (column Cash.cashflow cf) = Raise e ->
               build inputs = Raise e) /\
    (forall r, irr npf_irr (column Cash.cashflow cf) = Ok r ->
       exists sc,
         build inputs = Ok sc /\ self sc = s /\
         energy_balance_summary sc = ebs /\ cashflow sc = cf /\
         discounted_cashflow sc = dcf /\
         Summary.irr (snd (data sc)) = Fmul r (Fin 100)).
Proof.
  intros Hv Hsp.
  destruct (energy_balance_summary_total s Hsp) as [ebs Hebs].
  assert (Hie : index ebs = py_range 1 (v_study_period s + 1)).
  { rewrite (energy_balance_summary_index _ _ Hebs).
    apply energy_balance_index. }
  destruct (calc_cashflow_total s ebs Hsp Hie) as [cf [Hcf Hi]].
  destruct (calc_discounted_cashflow_total s cf Hi) as [dcf [Hdcf Hj]].
  destruct (pay_back_period_of_total (v_study_period s)
              (map (fun yr => (fst yr, Cash.cash_balance (snd yr))) cf))
    as [p Hp]; [lia|].
  exists ebs, cf, dcf.
  split; [exact Hebs|]. split; [exact Hcf|]. split; [exact Hdcf|].
  split; [exact Hie|]. split; [exact Hi|].
  split; [unfold irr_argument; rewrite Hebs; simpl; now rewrite Hcf|].
  split.
  - intros e He. unfold Scenario_init. rewrite Hv. simpl.
    rewrite Hebs. simpl. rewrite Hcf. simpl. rewrite Hdcf. simpl.
    unfold _calc_summary. now rewrite He.
  - intros r Hr. unfold Scenario_init. rewrite Hv. simpl.
    rewrite Hebs. simpl. rewrite Hcf. simpl. rewrite Hdcf. simpl.
    unfold _calc_summary. rewrite Hr. simpl. rewrite Hp. simpl.
    eexists. split; [reflexivity|]. simpl. auto 10.
Qed.

(** With a study period below one year the build raises. *)
Lemma Scenario_init_no_year inputs s :
  values_of inputs = Ok s -> v_study_period s < 1 ->
  build inputs = Raise AttributeError.
Proof.
  intros Hv Hsp. unfold Scenario_init. rewrite Hv. simpl.
  now rewrite energy_balance_summary_empty.
Qed.

Lemma Scenario_init_indexes inputs sc :
  build inputs = Ok sc ->
  1 <= v_study_period (self sc) /\
  index (energy_balance sc) = py_range 1 (v_study_period (self sc) + 1) /\
  index (energy_balance_summary sc)
    = py_range 1 (v_study_period (self sc) + 1) /\
  index (cashflow sc) = py_range 0 (v_study_period (self sc) + 1) /\
  index (discounted_cashflow sc) = py_range 0 (v_study_period (self sc) + 1).
Proof.
  intros H. pose proof H as Hinv.
  apply Scenario_init_inv in Hinv.
  destruct Hinv as (Hv & Heb & Hebs & Hcf & Hdcf & Hd).
  assert (Hsp : 1 <= v_study_period (self sc)).
  { destruct (Z_lt_dec (v_study_period (self sc)) 1) as [L|L]; [|lia].
    rewrite (Scenario_init_no_year _ _ Hv L) in H. discriminate. }
  assert (H1 : index (energy_balance sc)
               = py_range 1 (v_study_period (self sc) + 1))
    by (rewrite Heb; apply energy_balance_index).
  assert (H2 : index (energy_balance_summary sc)
               = py_range 1 (v_study_period (self sc) + 1))
    by (rewrite (energy_balance_summary_index _ _ Hebs); exact H1).
  destruct (calc_cashflow_total _ _ Hsp H2) as [cf [Hcf' H3]].
  rewrite Hcf in Hcf'. inversion Hcf'; subst cf.
  destruct (calc_discounted_cashflow_total _ _ H3) as [dcf [Hdcf' H4]].
  rewrite Hdcf in Hdcf'. inversion Hdcf'; subst dcf.
  repeat split; assumption.
Qed.

(** ** The hourly energy balance *)

Lemma nth_error_map_seq {A : Type} (f : nat -> A) n h :
  (h < n)%nat -> nth_error (map f (seq 0 n)) h = Some (f h).
Proof.
  intros H. rewrite nth_error_map.
  rewrite (nth_error_nth' _ 0%nat) by (rewrite length_seq; exact H).
  simpl. now rewrite seq_nth.
Qed.

Lemma map_nth_seq {A : Type} (l : list A) d :
  map (fun h => nth h l d) (seq 0 (List.length l)) = l.
Proof.
  induction l as [|a l IH]; simpl; [reflexivity|].
  f_equal. rewrite <- seq_shift, map_map. exact IH.
Qed.

(** The cell of an hour in a scaled series aligned on the hourly index. *)
Lemma nth_scaled_series (c : Q) (series : list Q) h :
  nth h (map (fun sy => Fin (sy * c)) series) NaN
  = match nth_error series h with
    | Some sy => Fin (sy * c)
    | None => NaN
    end.
Proof.
  destruct (nth_error series h) as [sy|] eqn:E.
  - apply nth_error_nth. now rewrite nth_error_map, E.
  - apply nth_overflow. rewrite length_map. now apply nth_error_None.
Qed.

Lemma nth_align hours series h :
  (h < hours)%nat -> nth h (align hours series) NaN = nth h series NaN.
Proof.
  intros H. unfold align. apply nth_error_nth.
  exact (nth_error_map_seq (fun h => nth h series NaN) hours h H).
Qed.

Lemma year_data_length s year :
  List.length (year_data s year) = List.length (v_load s).
Proof.
  unfold year_data. cbv zeta. now rewrite length_map, length_seq, length_map.
Qed.

(** Every hour of the load has its row: the load of the hour, and the yield
    of the hour scaled by the degraded capacity, missing when the yield
    series does not reach the hour. *)
Lemma year_data_nth s year h ld :
  nth_error (v_load s) h = Some ld ->
  nth_error (year_data s year) h
  = Some (hour_row (Fin ld)
            match nth_error (v_ref_specific_yield s) h with
            | Some sy =>
                Fin (sy * (v_pv_capacity s
                           * (1 - v_pv_degradation s
                                  * (inject_Z year - (1 # 2)))))
            | None => NaN
            end).
Proof.
  intros Hld.
  assert (Hh : (h < List.length (v_load s))%nat)
    by (apply nth_error_Some; congruence).
  unfold year_data. cbv zeta. rewrite length_map.
  rewrite nth_error_map_seq by exact Hh. f_equal. f_equal.
  - apply nth_error_nth. now rewrite nth_error_map, Hld.
  - rewrite nth_align by exact Hh. apply nth_scaled_series.
Qed.

Lemma year_data_rows s year row :
  In row (year_data s year) ->
  exists h ld,
    nth_error (v_load s) h = Some ld /\
    nth_error (year_data s year) h = Some row.
Proof.
  intros Hin. apply In_nth_error in Hin. destruct Hin as [h Hh].
  assert (Hlt : (h < List.length (v_load s))%nat).
  { rewrite <- (year_data_length s year). apply nth_error_Some. congruence. }
  destruct (nth_error (v_load s) h) as [ld|] eqn:E.
  - exists h, ld. auto.
  - apply nth_error_None in E. lia.
Qed.

Lemma hour_row_balance ld pv :
  let r := hour_row (Fin ld) (Fin pv) in
  exists sc_ im ex,
    Hourly.enPV_self_cons r = Fin sc_ /\
    Hourly.enGrid_import r = Fin im /\
    Hourly.enGrid_export r = Fin ex /\
    (sc_ == Qmin ld pv /\ im == Qmax (ld - pv) 0 /\
     ex == Qmax (pv - ld) 0 /\ ld == sc_ + im /\ pv == sc_ + ex)%Q.
Proof.
  unfold hour_row. simpl. destruct (Qltb pv ld) eqn:E.
  - apply Qltb_true in E. do 3 eexists.
    split; [reflexivity|]. split; [reflexivity|]. split; [reflexivity|].
    rewrite Q.min_r, Q.max_l, Q.max_r by lra. repeat split; lra.
  - apply Qltb_false in E. do 3 eexists.
    split; [reflexivity|]. split; [reflexivity|]. split; [reflexivity|].
    rewrite Q.min_l, Q.max_r, Q.max_l by lra. repeat split; lra.
Qed.

Lemma built_energy_balance inputs s sc :
  values_of inputs = Ok s -> build inputs = Ok sc ->
  self sc = s /\ energy_balance sc = _calc_annual_energy_balance s.
Proof.
  intros Hv Hsc. destruct (Scenario_init_inv _ _ Hsc) as (Hv' & Heb & _).
  assert (Hs : self sc = s) by congruence.
  split; [exact Hs|]. now rewrite Heb, Hs.
Qed.

(** C1. The energy-balance table the engine builds has, for every year
    1..studyPeriod, one row per hour of the load, and at every hour for
    which the specific-yield series has a value the row satisfies
    pvSelfCons = min(load, pvTotal), gridImport = max(load - pvTotal, 0),
    gridExport = max(pvTotal - load, 0), load = pvSelfCons + gridImport and
    pvTotal = pvSelfCons + gridExport.  With two series of the same length
    that is every hour; at an hour of the load that a shorter specific-yield
    series does not reach, PV production and grid export are missing, the
    self-consumption is the load and nothing is imported.  This is the table
    of every scenario built from the inputs. *)
Theorem C1_energy_conservation inputs s :
  values_of inputs = Ok s ->
  (forall sc, build inputs = Ok sc ->
     energy_balance sc = _calc_annual_energy_balance s) /\
  forall year, 1 <= year <= v_study_period s ->
    exists hours,
      loc (_calc_annual_energy_balance s) year = Ok hours /\
      List.length hours = List.length (v_load s) /\
      forall h ld, nth_error (v_load s) h = Some ld ->
        exists row,
          nth_error hours h = Some row /\
          Hourly.enLoad row = Fin ld /\
          match nth_error (v_ref_specific_yield s) h with
          | Some _ =>
              exists pv sc_ im ex,
                Hourly.enPV_total row = Fin pv /\
                Hourly.enPV_self_cons row = Fin sc_ /\
                Hourly.enGrid_import row = Fin im /\
                Hourly.enGrid_export row = Fin ex /\
                (sc_ == Qmin ld pv /\ im == Qmax (ld - pv) 0 /\
                 ex == Qmax (pv - ld) 0 /\ ld == sc_ + im /\
                 pv == sc_ + ex)%Q
          | None =>
              Hourly.enPV_total row = NaN /\
              Hourly.enPV_self_cons row = Fin ld /\
              Hourly.enGrid_import row = Fin 0 /\
              Hourly.enGrid_export row = NaN
          end.
Proof.
  intros Hv. split.
  - intros sc Hsc. exact (proj2 (built_energy_balance _ _ _ Hv Hsc)).
  - intros year Hy. exists (year_data s year).
    split; [now apply energy_balance_loc|].
    split; [apply year_data_length|].
    intros h ld Hld. eexists.
    split; [apply (year_data_nth s year h ld Hld)|].
    split; [reflexivity|].
    destruct (nth_error (v_ref_specific_yield s) h) as [sy|].
    + eexists.
      destruct (hour_row_balance ld
                  (sy * (v_pv_capacity s
                         * (1 - v_pv_degradation s
                                * (inject_Z year - (1 # 2))))))
        as (sc_ & im & ex & H1 & H2 & H3 & H4).
      exists sc_, im, ex. split; [reflexivity|]. auto.
    + repeat split.
Qed.

(** C6. In the energy-balance table the engine builds, for every year y in
    1..studyPeriod and every hour h of the load there is a row, and its PV
    production is specificYield[h] * pvCapacity * (1 - degradation * (y - 0.5));
    at an hour the specific-yield series does not reach there is no
    production value (the cell is missing).  This is the table of every
    scenario built from the inputs. *)
Theorem C6_degraded_production inputs s :
  values_of inputs = Ok s ->
  (forall sc, build inputs = Ok sc ->
     energy_balance sc = _calc_annual_energy_balance s) /\
  forall year, 1 <= year <= v_study_period s ->
    exists hours,
      loc (_calc_annual_energy_balance s) year = Ok hours /\
      List.length hours = List.length (v_load s) /\
      forall h, (h < List.length (v_load s))%nat ->
        exists row,
          nth_error hours h = Some row /\
          match nth_error (v_ref_specific_yield s) h with
          | Some sy =>
              exists pv,
                Hourly.enPV_total row = Fin pv /\
                (pv == sy * v_pv_capacity s
                       * (1 - v_pv_degradation s
                              * (inject_Z year - (1 # 2))))%Q
          | None => Hourly.enPV_total row = NaN
          end.
Proof.
  intros Hv. split.
  - intros sc Hsc. exact (proj2 (built_energy_balance _ _ _ Hv Hsc)).
  - intros year Hy. exists (year_data s year).
    split; [now apply energy_balance_loc|].
    split; [apply year_data_length|].
    intros h Hh.
    destruct (nth_error (v_load s) h) as [ld|] eqn:Hld;
      [|apply nth_error_None in Hld; lia].
    eexists. split; [apply (year_data_nth s year h ld Hld)|].
    destruct (nth_error (v_ref_specific_yield s) h) as [sy|].
    + eexists. split; [reflexivity|]. ring.
    + reflexivity.
Qed.

(** ** Discounting *)

(** C2. For every built scenario the NPV of the summary row is the sum of
    the cashflow column of the discounted table, whose rows are the years
    0..studyPeriod, and the year-0 row of the discounted table is the year-0
    row of the undiscounted table. *)
Theorem C2_discounting_consistency inputs sc :
  build inputs = Ok sc ->
  Summary.npv (snd (data sc))
    = Fsum (column Cash.cashflow (discounted_cashflow sc)) /\
  index (discounted_cashflow sc)
    = py_range 0 (v_study_period (self sc) + 1) /\
  exists year0,
    loc (cashflow sc) 0 = Ok year0 /\
    loc (discounted_cashflow sc) 0 = Ok year0.
Proof.
  intros H.
  destruct (Scenario_init_indexes _ _ H) as (Hsp & _ & _ & Hcf & Hdcf).
  destruct (Scenario_init_inv _ _ H) as (_ & _ & _ & _ & Hd & Hs).
  split; [|split; [exact Hdcf|]].
  - unfold _calc_summary in Hs. inv_bind Hs. inv_bind Hs. inversion Hs.
    reflexivity.
  - destruct (loc_index (cashflow sc) 0) as [year0 H0].
    { rewrite Hcf. apply py_range_In. lia. }
    exists year0. split; [exact H0|].
    unfold _calc_discounted_cashflow in Hd. inv_bind Hd. inversion Hd.
    rewrite loc_sort_index.
    rewrite (discount_loop_other _ _ _ _ 0 Ha) by (left; lia). exact H0.
Qed.

(** ** Degenerate inputs: no guard on the LCOE and BLCOE quotients *)

(** A cell that is zero or missing. *)
Definition zero_or_missing (x : F) : Prop :=
  match x with
  | Fin q => (q == 0)%Q
  | NaN => True
  | _ => False
  end.

Lemma Fsum_zero_or_missing l :
  Forall zero_or_missing l -> exists q, Fsum l = Fin q /\ (q == 0)%Q.
Proof.
  unfold Fsum. assert (H0 : (0 == 0)%Q) by reflexivity. revert H0.
  generalize 0%Q at 1 3 as a. intros a Ha H. revert a Ha.
  induction H as [|x l Hx Hl IH]; intros a Ha; simpl; [eauto|].
  destruct x as [q| | |]; simpl in *; try contradiction; auto.
  apply IH. lra.
Qed.

Lemma Fdiv_zero_or_missing x d : zero_or_missing x -> zero_or_missing (Fdiv x (Fin d)).
Proof.
  destruct x as [q| | |]; simpl; try tauto. intros Hq.
  destruct (Qeq_bool d 0) eqn:E.
  - destruct (q ?= 0)%Q eqn:C; simpl; auto.
    + apply Qlt_alt in C. lra.
    + apply Qgt_alt in C. lra.
  - simpl. apply Qeq_bool_neq in E. rewrite Hq. field. exact E.
Qed.

Lemma Fdiv_by_zero x z : (z == 0)%Q -> is_finite (Fdiv x (Fin z)) = false.
Proof.
  intros Hz. destruct x as [q| | |]; simpl; try reflexivity.
  - assert (E : Qeq_bool z 0 = true) by now apply Qeq_bool_iff.
    rewrite E. now destruct (q ?= 0)%Q.
  - now destruct (z ?= 0)%Q.
  - now destruct (z ?= 0)%Q.
Qed.

Lemma Fmul_not_finite x k : is_finite x = false -> is_finite (Fmul x (Fin k)) = false.
Proof.
  destruct x as [q| | |]; simpl; try discriminate; intros _;
    now destruct (k ?= 0)%Q.
Qed.

Lemma Qsum_from (l : list Q) (a : Q) : (fold_left Qplus l a == a + Qsum l)%Q.
Proof.
  unfold Qsum. revert a. induction l as [|x l IH]; intros a; simpl; [ring|].
  rewrite (IH (a + x)%Q), (IH (0 + x)%Q). ring.
Qed.

Lemma energy_balance_summary_rows eb e :
  _calc_energy_balance_summary eb = Ok e ->
  e = map (fun yd => (fst yd, annual_row (snd yd))) eb.
Proof.
  unfold _calc_energy_balance_summary. destruct eb; [discriminate|].
  intros H. now inversion H.
Qed.

Lemma Fsum_map_Fin (l : list Q) : Fsum (map Fin l) = Fin (Qsum l).
Proof.
  unfold Fsum, Qsum. generalize 0%Q as a.
  induction l as [|x l IH]; intros a; simpl; [reflexivity | apply IH].
Qed.

Lemma year_data_load s year :
  map Hourly.enLoad (year_data s year) = map Fin (v_load s).
Proof.
  unfold year_data. cbv zeta. rewrite map_map. simpl. apply map_nth_seq.
Qed.

(** The rows of the annual summary are the totals of the hourly frames. *)
Lemma summary_rows_are_annual s ebs year e :
  _calc_energy_balance_summary (_calc_annual_energy_balance s) = Ok ebs ->
  loc ebs year = Ok e ->
  1 <= year <= v_study_period s /\ e = annual_row (year_data s year).
Proof.
  intros Hebs He. apply energy_balance_summary_rows in Hebs. subst ebs.
  apply loc_In in He. unfold _calc_annual_energy_balance in He.
  rewrite map_map in He. apply in_map_iff in He.
  destruct He as [y [Hy Hin]]. simpl in Hy. inversion Hy; subst.
  apply py_range_In in Hin. split; [lia | reflexivity].
Qed.

Lemma annual_load_zero s ebs year e :
  (Qsum (v_load s) == 0)%Q ->
  _calc_energy_balance_summary (_calc_annual_energy_balance s) = Ok ebs ->
  In (year, e) ebs -> zero_or_missing (Annual.enLoad e).
Proof.
  intros Hsum Hebs He. apply energy_balance_summary_rows in Hebs. subst ebs.
  unfold _calc_annual_energy_balance in He. rewrite map_map in He.
  apply in_map_iff in He. destruct He as [y [Hy _]]. simpl in Hy.
  inversion Hy; subst. simpl.
  rewrite year_data_load, Fsum_map_Fin. simpl. rewrite Hsum. reflexivity.
Qed.

Lemma cash_balance_loop_Forall (P : Cash.row -> Prop) years t t' :
  (forall b r, P r -> P (Cash.with_cash_balance b r)) ->
  Forall (fun x => P (snd x)) t ->
  cash_balance_loop years t = Ok t' ->
  Forall (fun x => P (snd x)) t'.
Proof.
  intros Hst. revert t. induction years as [|y years IH]; simpl; intros t Ht H.
  - now inversion H; subst.
  - inv_bind H. pose proof (loc_Forall P _ _ _ Ht Ha) as Hr.
    destruct (y =? 0).
    + eapply IH; [|exact H]. apply set_row_Forall; auto.
    + inv_bind H. eapply IH; [|exact H]. apply set_row_Forall; auto.
Qed.

Lemma discount_loop_Forall (P : Cash.row -> Prop) s years t t' :
  (forall y r b, P r -> P (discounted_row float_pow s y r b)) ->
  Forall (fun x => P (snd x)) t ->
  discount_loop float_pow s years t = Ok t' ->
  Forall (fun x => P (snd x)) t'.
Proof.
  intros Hst. revert t. induction years as [|y years IH]; simpl; intros t Ht H.
  - now inversion H; subst.
  - destruct (0 <? y); [|eapply IH; eassumption].
    inv_bind H. pose proof (loc_Forall P _ _ _ Ht Ha) as Hr.
    inv_bind H. eapply IH; [|exact H]. apply set_row_Forall; auto.
Qed.

Lemma discounted_load_zero s ebs cf dcf :
  Forall (fun x => zero_or_missing (Annual.enLoad (snd x))) ebs ->
  calc_cashflow s ebs = Ok cf ->
  calc_discounted_cashflow s cf = Ok dcf ->
  Forall (fun x => zero_or_missing (Cash.enLoad (snd x))) dcf.
Proof.
  intros He Hcf Hdcf.
  unfold _calc_cashflow in Hcf. inv_bind Hcf. inversion Hcf; subst cf.
  unfold _calc_discounted_cashflow in Hdcf. inv_bind Hdcf.
  inversion Hdcf; subst dcf.
  apply sort_index_Forall.
  eapply (discount_loop_Forall (fun r => zero_or_missing (Cash.enLoad r)));
    [| |exact Ha0].
  - intros y r b Hr. simpl. now apply Fdiv_zero_or_missing.
  - apply sort_index_Forall.
    eapply (cash_balance_loop_Forall (fun r => zero_or_missing (Cash.enLoad r)));
      [| |exact Ha].
    + intros b r Hr. exact Hr.
    + apply sort_index_Forall. apply Forall_app. split.
      * rewrite Forall_map. simpl. exact He.
      * constructor; [exact I | constructor].
Qed.

End EngineFacts.

(** ** Concrete inputs *)

(** Instances of the abstract library routines, for evaluating the engine:
    a root finder that reports no root; a fractional power that is never reached with an integral
    loan period; a logarithm that is never reached on a linear scale. *)
Definition no_irr (cashflows : list F) : result F := Ok NaN.
Definition no_float_pow (b e : Q) : F := NaN.
Definition no_log10 (x : Q) : Q := 0%Q.

Local Open Scope string_scope.

(** Two hours, two years, the default economics. *)
Definition example_inputs : Inputs :=
  set_field_value "study_period" (VInt 2)
    (default_inputs [3; 1]%Q [1 # 1000; 2 # 1000]%Q).

Definition example_values : Values :=
  {| v_load := [3; 1]%Q; v_ref_specific_yield := [1 # 1000; 2 # 1000]%Q;
     v_study_period := 2; v_discount_rate := 4 # 100;
     v_pv_capacity := 1000; v_pv_degradation := 5 # 1000;
     v_devex := 0; v_capex := 700; v_opex := 15; v_opex_increase := 0;
     v_loan := 0; v_loan_period := 0; v_loan_rate := 0;
     v_import_tariff := 1 # 10; v_export_tariff := 5 # 100;
     v_import_increase := 0; v_export_increase := 0 |}.

(** The same with a load that is zero at every hour. *)
Definition zero_load_inputs : Inputs :=
  set_field_value "study_period" (VInt 1)
    (default_inputs [0; 0]%Q [1 # 1000; 2 # 1000]%Q).

Local Close Scope string_scope.

Lemma C1_energy_conservation_witness :
  values_of example_inputs = Ok example_values /\
  (forall sc, Scenario_init no_irr no_float_pow example_inputs = Ok sc ->
     energy_balance sc = _calc_annual_energy_balance example_values) /\
  forall year, 1 <= year <= v_study_period example_values ->
    exists hours,
      loc (_calc_annual_energy_balance example_values) year = Ok hours /\
      List.length hours = List.length (v_load example_values) /\
      forall h ld, nth_error (v_load example_values) h = Some ld ->
        exists row,
          nth_error hours h = Some row /\
          Hourly.enLoad row = Fin ld /\
          match nth_error (v_ref_specific_yield example_values) h with
          | Some _ =>
              exists pv sc_ im ex,
                Hourly.enPV_total row = Fin pv /\
                Hourly.enPV_self_cons row = Fin sc_ /\
                Hourly.enGrid_import row = Fin im /\
                Hourly.enGrid_export row = Fin ex /\
                (sc_ == Qmin ld pv /\ im == Qmax (ld - pv) 0 /\
                 ex == Qmax (pv - ld) 0 /\ ld == sc_ + im /\
                 pv == sc_ + ex)%Q
          | None =>
              Hourly.enPV_total row = NaN /\
              Hourly.enPV_self_cons row = Fin ld /\
              Hourly.enGrid_import row = Fin 0 /\
              Hourly.enGrid_export row = NaN
          end.
Proof.
  split; [reflexivity|].
  apply (C1_energy_conservation no_irr no_float_pow example_inputs
           example_values).
  reflexivity.
Defined.

Lemma C6_degraded_production_witness :
  values_of example_inputs = Ok example_values /\
  (forall sc, Scenario_init no_irr no_float_pow example_inputs = Ok sc ->
     energy_balance sc = _calc_annual_energy_balance example_values) /\
  forall year, 1 <= year <= v_study_period example_values ->
    exists hours,
      loc (_calc_annual_energy_balance example_values) year = Ok hours /\
      List.length hours = List.length (v_load example_values) /\
      forall h, (h < List.length (v_load example_values))%nat ->
        exists row,
          nth_error hours h = Some row /\
          match nth_error (v_ref_specific_yield example_values) h with
          | Some sy =>
              exists pv,
                Hourly.enPV_total row = Fin pv /\
                (pv == sy * v_pv_capacity example_values
                       * (1 - v_pv_degradation example_values
                              * (inject_Z year - (1 # 2))))%Q
          | None => Hourly.enPV_total row = NaN
          end.
Proof.
  split; [reflexivity|].
  apply (C6_degraded_production no_irr no_float_pow example_inputs
           example_values).
  reflexivity.
Defined.

Lemma C2_discounting_consistency_witness :
  exists sc,
    Scenario_init no_irr no_float_pow example_inputs = Ok sc /\
    (Summary.npv (snd (data sc))
       = Fsum (column Cash.cashflow (discounted_cashflow sc)) /\
     index (discounted_cashflow sc)
       = py_range 0 (v_study_period (self sc) + 1) /\
     exists year0,
       loc (cashflow sc) 0 = Ok year0 /\
       loc (discounted_cashflow sc) 0 = Ok year0).
Proof.
  eexists. split; [vm_compute; reflexivity|].
  apply (C2_discounting_consistency no_irr no_float_pow example_inputs).
  vm_compute. reflexivity.
Defined.

(** ** The payback period on a synthetic balance *)

(** [balance[0] = -1000], [balance[y] = balance[y-1] + 100]. *)
Fixpoint synthetic_balance_at (y : nat) : Q :=
  match y with
  | O => (-1000)%Q
  | S y' => (synthetic_balance_at y' + 100)%Q
  end.

Definition synthetic_balance : list (Z * F) :=
  map (fun y => (Z.of_nat y, Fin (synthetic_balance_at y))) (seq 0 26).

(** C3. On the synthetic balance of a 25-year study the payback estimator
    returns a year within 0.05 of 10. *)
Theorem C3_payback_period_example :
  exists p,
    pay_back_period_of 25 synthetic_balance = Ok (Fin p) /\
    (Qabs (p - 10) <= 5 # 100)%Q.
Proof.
  eexists. split; [vm_compute; reflexivity|].
  vm_compute. discriminate.
Qed.

(** ** Extremal labels *)

Lemma Fle_refl x : is_nan x = false -> Fle x x.
Proof. destruct x; simpl; try discriminate; intros _; auto. apply Qle_refl. Qed.

Lemma Fle_trans x y z : Fle x y -> Fle y z -> Fle x z.
Proof.
  destruct x, y, z; simpl; try tauto. apply Qle_trans.
Qed.

Lemma Fltb_Fle x y : Fltb x y = true -> Fle x y.
Proof.
  destruct x, y; simpl; try discriminate; auto.
  intros H. apply Qltb_true in H. now apply Qlt_le_weak.
Qed.

Lemma Fltb_false_Fle x y :
  is_nan x = false -> is_nan y = false -> Fltb x y = false -> Fle y x.
Proof.
  destruct x, y; simpl; try discriminate; auto.
  intros _ _ H. now apply Qltb_false in H.
Qed.

Section IdxBest.

Context {L : Type}.

(** What the scan for the largest cell returns: a cell of the series or the
    running best, not missing, and no smaller than every cell that is not
    missing. *)
Lemma idx_best_max (best : option (L * F)) (s : list (L * F)) l x :
  (forall b, best = Some b -> is_nan (snd b) = false) ->
  idx_best (fun x y => Fltb y x) best s = Some (l, x) ->
  (best = Some (l, x) \/ In (l, x) s) /\
  is_nan x = false /\
  (forall b, best = Some b -> Fle (snd b) x) /\
  (forall l' x', In (l', x') s -> is_nan x' = false -> Fle x' x).
Proof.
  revert best. induction s as [|[l0 x0] s IH]; simpl; intros best Hb H.
  - subst best. repeat split; auto.
    + exact (Hb _ eq_refl).
    + intros b Hb'. inversion Hb'. apply Fle_refl. exact (Hb _ eq_refl).
    + tauto.
  - destruct (is_nan x0) eqn:N0.
    + destruct (IH _ Hb H) as (H1 & H2 & H3 & H4).
      repeat split; auto; [tauto|].
      intros l' x' [E|E] Hn; [inversion E; congruence | eauto].
    + assert (Hnew : forall b, Some (l0, x0) = Some b -> is_nan (snd b) = false)
        by (intros b E; inversion E; exact N0).
      destruct best as [[lb xb]|].
      * pose proof (Hb _ eq_refl) as Nb. simpl in Nb.
        destruct (Fltb xb x0) eqn:C.
        -- destruct (IH _ Hnew H) as (H1 & H2 & H3 & H4).
           pose proof (H3 _ eq_refl) as H0x. simpl in H0x.
           repeat split; auto.
           ++ destruct H1 as [H1|H1]; [inversion H1; subst; auto | auto].
           ++ intros b E. inversion E; subst. simpl.
              eapply Fle_trans; [apply Fltb_Fle; exact C | exact H0x].
           ++ intros l' x' [E|E] Hn; [inversion E; subst; exact H0x | eauto].
        -- destruct (IH _ Hb H) as (H1 & H2 & H3 & H4).
           pose proof (H3 _ eq_refl) as Hbx. simpl in Hbx.
           repeat split; auto; [tauto|].
           intros l' x' [E|E] Hn; [|eauto]. inversion E; subst.
           eapply Fle_trans; [|exact Hbx].
           now apply Fltb_false_Fle.
      * destruct (IH _ Hnew H) as (H1 & H2 & H3 & H4).
        pose proof (H3 _ eq_refl) as H0x. simpl in H0x.
        repeat split; auto.
        -- destruct H1 as [H1|H1]; [inversion H1; subst; auto | auto].
        -- discriminate.
        -- intros l' x' [E|E] Hn; [inversion E; subst; exact H0x | eauto].
Qed.

Lemma idx_best_some (better : F -> F -> bool) (best : option (L * F))
    (s : list (L * F)) :
  (best <> None \/ exists l x, In (l, x) s /\ is_nan x = false) ->
  exists r, idx_best better best s = Some r.
Proof.
  revert best. induction s as [|[l0 x0] s IH]; simpl; intros best H.
  - destruct H as [H|(l & x & [] & _)]. destruct best; [eauto|congruence].
  - destruct (is_nan x0) eqn:N0.
    + apply IH. destruct H as [H|(l & x & [E|E] & Hn)]; auto.
      * inversion E; congruence.
      * right. eauto.
    + destruct best as [[lb xb]|].
      * destruct (better x0 xb); apply IH; left; discriminate.
      * apply IH. left. discriminate.
Qed.

End IdxBest.

(** ** Dictionaries *)

Section DictFacts.

Context {V : Type}.
Implicit Types (d : dict Z V) (k : Z) (v : V).

Lemma dict_set_In d k v x :
  In x (dict_set Z.eqb d k v) -> x = (k, v) \/ In x d.
Proof.
  induction d as [|[k' v'] d IH]; simpl.
  - intros [H|[]]. now left.
  - destruct (k' =? k) eqn:E; simpl.
    + apply Z.eqb_eq in E. subst k'. intros [H|H]; auto.
    + intros [H|H]; auto. destruct (IH H); auto.
Qed.

Lemma dict_set_keys d k v y :
  In y (map fst (dict_set Z.eqb d k v)) <-> y = k \/ In y (map fst d).
Proof.
  induction d as [|[k' v'] d IH]; simpl.
  - intuition.
  - destruct (k' =? k) eqn:E; simpl.
    + apply Z.eqb_eq in E. subst k'. intuition.
    + rewrite IH. intuition.
Qed.

Lemma dict_set_NoDup d k v :
  NoDup (map fst d) -> NoDup (map fst (dict_set Z.eqb d k v)).
Proof.
  induction d as [|[k' v'] d IH]; simpl; intros H.
  - constructor; [tauto | constructor].
  - inversion H; subst. destruct (k' =? k) eqn:E; simpl.
    + now constructor.
    + constructor; [|auto]. rewrite dict_set_keys.
      apply Z.eqb_neq in E. intros [->|Hin]; tauto.
Qed.

(** The value assigned last is the one a lookup returns. *)
Lemma dict_get_dict_set d k v :
  dict_get (dict_set Z.eqb d k v) (inject_Z k) = Ok v.
Proof.
  induction d as [|[k' v'] d IH]; simpl.
  - assert (E : Qeq_bool (inject_Z k) (inject_Z k) = true)
      by (apply Qeq_bool_iff; reflexivity).
    now rewrite E.
  - destruct (k' =? k) eqn:E; simpl.
    + apply Z.eqb_eq in E. subst k'.
      assert (E : Qeq_bool (inject_Z k) (inject_Z k) = true)
        by (apply Qeq_bool_iff; reflexivity).
      now rewrite E.
    + destruct (Qeq_bool (inject_Z k') (inject_Z k)) eqn:E'; [|exact IH].
      apply (proj1 (Qeq_bool_iff _ _)) in E'.
      apply (proj1 (inject_Z_injective _ _)) in E'.
      apply (proj1 (Z.eqb_neq _ _)) in E. congruence.
Qed.

Lemma dict_get_In d k v label :
  NoDup (map fst d) -> In (k, v) d -> (label == inject_Z k)%Q ->
  dict_get d label = Ok v.
Proof.
  intros Hnd Hin Hl. induction d as [|[k' v'] d IH]; simpl; [contradiction|].
  simpl in Hnd. inversion Hnd; subst.
  destruct (Qeq_bool (inject_Z k') label) eqn:E.
  - apply (proj1 (Qeq_bool_iff _ _)) in E. rewrite Hl in E.
    apply (proj1 (inject_Z_injective _ _)) in E. subst k'.
    destruct Hin as [Hin|Hin]; [now inversion Hin|].
    exfalso. apply H1. change k with (fst (k, v)). now apply in_map.
  - destruct Hin as [Hin|Hin]; [|auto].
    inversion Hin; subst. apply Qeq_bool_neq in E.
    exfalso. apply E. now symmetry.
Qed.

End DictFacts.

(** ** The capacity sweep: selection of the best scenario *)

Definition npv_of (sc : Scenario) : F := Summary.npv (snd (data sc)).

(** Every scenario of the dictionary is stored under the capacity that
    indexes its summary row, as in a dictionary filled by a sweep. *)
Definition keyed_by_capacity (d : dict Z Scenario) : Prop :=
  forall k sc, In (k, sc) d -> (fst (data sc) == inject_Z k)%Q.

Definition distinct_npv (d : dict Z Scenario) : Prop :=
  forall k1 s1 k2 s2,
    In (k1, s1) d -> In (k2, s2) d -> npv_of s1 =F= npv_of s2 -> k1 = k2.

(** A scenario with a given capacity and NPV and nothing else. *)
Definition synthetic_scenario (capacity npv : Q) : Scenario :=
  {| self :=
       {| v_load := []; v_ref_specific_yield := []; v_study_period := 0;
          v_discount_rate := 0; v_pv_capacity := capacity;
          v_pv_degradation := 0; v_devex := 0; v_capex := 0; v_opex := 0;
          v_opex_increase := 0; v_loan := 0; v_loan_period := 0;
          v_loan_rate := 0; v_import_tariff := 0; v_export_tariff := 0;
          v_import_increase := 0; v_export_increase := 0 |};
     energy_balance := []; energy_balance_summary := [];
     cashflow := []; discounted_cashflow := [];
     data :=
       (capacity,
        {| Summary.load := NaN; Summary.energy_pv_total := NaN;
           Summary.energy_pv_self_cons := NaN;
           Summary.energy_grid_import := NaN;
           Summary.energy_grid_export := NaN; Summary.pv_self_cons := NaN;
           Summary.pv_utilisation := NaN; Summary.capex := NaN;
           Summary.opex := NaN; Summary.lcoe := NaN; Summary.blcoe := NaN;
           Summary.npv := Fin npv; Summary.irr := NaN;
           Summary.pay_back_period := NaN |}) |}.

Definition synthetic_sweep : dict Z Scenario :=
  [ (1000, synthetic_scenario 1000 100);
    (2000, synthetic_scenario 2000 500);
    (3000, synthetic_scenario 3000 (-50)) ].

Lemma Fle_antisym x y : Fle x y -> Fle y x -> x =F= y.
Proof.
  destruct x, y; simpl; try tauto. intros. now apply Qle_antisym.
Qed.

(** C4. In every capacity sweep the selected scenario is a scenario of the
    sweep whose NPV is the largest of all candidates, whatever the signs of
    the NPV values; when the NPV values are pairwise distinct it is the only
    one.  For NPVs 100, 500 and -50 at capacities 1000, 2000 and 3000 the
    selected capacity is 2000. *)
Theorem C4_best_is_argmax_npv :
  (forall d : dict Z Scenario,
     NoDup (map fst d) -> keyed_by_capacity d ->
     (exists k sc, In (k, sc) d /\ is_nan (npv_of sc) = false) ->
     exists k best,
       PVSizing.highest_npv d (PVSizing.aggregate_data d) = Ok best /\
       In (k, best) d /\
       (forall k' sc', In (k', sc') d -> is_nan (npv_of sc') = false ->
                       Fle (npv_of sc') (npv_of best)) /\
       (distinct_npv d ->
        forall k' sc', In (k', sc') d -> Fle (npv_of best) (npv_of sc') ->
                       k' = k)) /\
  (exists best,
     PVSizing.highest_npv synthetic_sweep
       (PVSizing.aggregate_data synthetic_sweep) = Ok best /\
     v_pv_capacity (self best) = 2000%Q).
Proof.
  split.
  - intros d Hnd Hkey (k0 & sc0 & Hin0 & Hn0).
    unfold PVSizing.highest_npv, PVSizing.aggregate_data.
    destruct d as [|e d']; [contradiction|].
    remember (e :: d') as d eqn:Ed.
    assert (Hne : map (fun ks : Z * Scenario => data (snd ks)) d <> [])
      by (rewrite Ed; discriminate).
    destruct (map (fun ks : Z * Scenario => data (snd ks)) d) as [|r0 rs] eqn:Em;
      [congruence|]. rewrite <- Em. clear Hne Em r0 rs.
    rewrite map_map. unfold idxmax.
    set (series := map (fun ks : Z * Scenario =>
                          (fst (data (snd ks)), Summary.npv (snd (data (snd ks))))) d).
    assert (Hser : forall l x, In (l, x) series ->
              exists k sc, In (k, sc) d /\ l = fst (data sc) /\ x = npv_of sc).
    { intros l x H. apply in_map_iff in H. destruct H as [[k sc] [E H]].
      inversion E. exists k, sc. auto. }
    destruct (idx_best_some (fun x y => Fltb y x) None series) as [[l x] Hbest].
    { right. exists (fst (data sc0)), (npv_of sc0). split; [|exact Hn0].
      apply in_map_iff. exists (k0, sc0). auto. }
    rewrite Hbest. simpl.
    destruct (idx_best_max None series l x) as (H1 & H2 & _ & H4);
      [discriminate | exact Hbest |].
    destruct H1 as [H1|H1]; [discriminate|].
    destruct (Hser _ _ H1) as (k & best & Hin & -> & ->).
    exists k, best. split; [|split; [exact Hin|split]].
    + apply dict_get_In with (k := k); auto.
    + intros k' sc' Hin' Hn'. apply (H4 (fst (data sc')) (npv_of sc')); auto.
      apply in_map_iff. exists (k', sc'). auto.
    + intros Hd k' sc' Hin' Hle.
      apply (Hd k' sc' k best Hin' Hin). apply Fle_antisym; [|exact Hle].
      apply (H4 (fst (data sc')) (npv_of sc')).
      * apply in_map_iff. exists (k', sc'). auto.
      * destruct (npv_of sc'), (npv_of best); simpl in *; tauto.
  - eexists. split; [vm_compute; reflexivity | reflexivity].
Qed.

Lemma C4_best_is_argmax_npv_witness :
  NoDup (map fst synthetic_sweep) /\
  keyed_by_capacity synthetic_sweep /\
  (exists k sc, In (k, sc) synthetic_sweep /\ is_nan (npv_of sc) = false) /\
  exists k best,
    PVSizing.highest_npv synthetic_sweep
      (PVSizing.aggregate_data synthetic_sweep) = Ok best /\
    In (k, best) synthetic_sweep /\
    (forall k' sc', In (k', sc') synthetic_sweep ->
                    is_nan (npv_of sc') = false ->
                    Fle (npv_of sc') (npv_of best)) /\
    (distinct_npv synthetic_sweep ->
     forall k' sc', In (k', sc') synthetic_sweep ->
                    Fle (npv_of best) (npv_of sc') -> k' = k).
Proof.
  assert (Hnd : NoDup (map fst synthetic_sweep)).
  { simpl. repeat constructor; simpl; intuition lia. }
  assert (Hkey : keyed_by_capacity synthetic_sweep).
  { intros k sc [H|[H|[H|[]]]]; inversion H; subst; reflexivity. }
  assert (Hex : exists k sc, In (k, sc) synthetic_sweep /\
                             is_nan (npv_of sc) = false).
  { exists 1000, (synthetic_scenario 1000 100). split; [now left | reflexivity]. }
  split; [exact Hnd|]. split; [exact Hkey|]. split; [exact Hex|].
  exact (proj1 C4_best_is_argmax_npv synthetic_sweep Hnd Hkey Hex).
Defined.

(** ** The capacity sweep: the shared inputs object *)

Lemma set_pv_capacity_twice v v' i :
  set_pv_capacity v (set_pv_capacity v' i) = set_pv_capacity v i.
Proof. reflexivity. Qed.

Section SweepFacts.

Variable npf_irr : list F -> result F.
Variable float_pow : Q -> Q -> F.

Local Abbreviation build := (Scenario_init npf_irr float_pow).
Local Abbreviation run_loop := (PVSizing.run_loop npf_irr float_pow).

(** The state of the inputs object after a completed loop, and where each
    stored scenario comes from. *)
Lemma run_loop_spec pv_range d0 i0 d i' :
  run_loop pv_range d0 i0 = (Ok d, i') ->
  (match pv_range with
   | [] => i' = i0
   | _ => exists c, py_round (last pv_range NaN) = Ok c /\
                    i' = set_pv_capacity (VInt c) i0
   end) /\
  (forall k sc, In (k, sc) d ->
     In (k, sc) d0 \/
     exists capacity, In capacity pv_range /\ py_round capacity = Ok k /\
                      build (set_pv_capacity (VInt k) i0) = Ok sc).
Proof.
  revert d0 i0. induction pv_range as [|capacity rest IH]; intros d0 i0 H.
  - simpl in H. inversion H; subst. auto.
  - simpl in H. destruct (py_round capacity) as [c|e] eqn:Hc; [|discriminate].
    destruct (build (set_pv_capacity (VInt c) i0)) as [sc0|e] eqn:Hb;
      [|discriminate].
    destruct (IH _ _ H) as [Hi Hd]. split.
    + destruct rest as [|c1 rest'].
      * exists c. simpl. split; [exact Hc | exact Hi].
      * destruct Hi as [c' [Hc' Hi]]. exists c'. split; [exact Hc' | exact Hi].
    + intros k sc Hin. destruct (Hd k sc Hin) as [Hold|Hnew].
      * apply dict_set_In in Hold. destruct Hold as [Hold|Hold]; [|now left].
        inversion Hold; subst. right. exists capacity.
        split; [now left | split; assumption].
      * right. destruct Hnew as (cap & Hcap & Hr & Hs).
        exists cap. split; [now right | split; [exact Hr | exact Hs]].
Qed.

(** C10. A capacity sweep works on the inputs object it is given: after a
    sweep over a non-empty grid has returned, the PV capacity of the inputs
    object is the rounded last capacity of the grid and every other field is
    as before; every scenario of the sweep is stored under a rounded capacity
    of the grid and was built from that same inputs object with only the PV
    capacity rewritten to it. *)
Theorem C10_sweep_mutates_shared_inputs pv_range inputs d inputs' :
  pv_range <> [] ->
  PVSizing.run_pv_sensitivity npf_irr float_pow pv_range inputs
    = (Ok d, inputs') ->
  (exists c, py_round (last pv_range NaN) = Ok c /\
             inputs' = set_pv_capacity (VInt c) inputs /\
             value (pv_capacity inputs') = VInt c) /\
  (forall k sc, In (k, sc) d ->
     exists capacity, In capacity pv_range /\ py_round capacity = Ok k /\
                      build (set_pv_capacity (VInt k) inputs) = Ok sc).
Proof.
  intros Hne H. unfold PVSizing.run_pv_sensitivity in H.
  destruct (run_loop_spec _ _ _ _ _ H) as [Hi Hd]. split.
  - destruct pv_range as [|c0 rest]; [congruence|].
    destruct Hi as [c [Hc Hi]]. exists c. split; [exact Hc|].
    split; [exact Hi|]. now rewrite Hi.
  - intros k sc Hin. destruct (Hd k sc Hin) as [[]|Hnew]. exact Hnew.
Qed.

(** The dictionary a sweep fills has one entry per rounded capacity, each
    stored under the capacity that indexes its summary row. *)
Lemma run_loop_keys pv_range d0 i0 d i' :
  run_loop pv_range d0 i0 = (Ok d, i') ->
  NoDup (map fst d0) -> keyed_by_capacity d0 ->
  NoDup (map fst d) /\ keyed_by_capacity d.
Proof.
  revert d0 i0. induction pv_range as [|capacity rest IH]; intros d0 i0 H Hnd Hk.
  - simpl in H. inversion H; subst. auto.
  - simpl in H. destruct (py_round capacity) as [c|e] eqn:Hc; [|discriminate].
    destruct (build (set_pv_capacity (VInt c) i0)) as [sc0|e] eqn:Hb;
      [|discriminate].
    apply (IH _ _ H).
    + now apply dict_set_NoDup.
    + intros k sc Hin. apply dict_set_In in Hin.
      destruct Hin as [Hin|Hin]; [|now apply Hk].
      inversion Hin; subst.
      rewrite (proj2 (built_capacity _ _ _ _ _ Hb)). reflexivity.
Qed.

End SweepFacts.

Lemma C10_sweep_mutates_shared_inputs_witness :
  [Fin (3 # 2); Fin (5 # 2)] <> [] /\
  exists d inputs',
    PVSizing.run_pv_sensitivity no_irr no_float_pow
      [Fin (3 # 2); Fin (5 # 2)] zero_load_inputs = (Ok d, inputs') /\
    (exists c, py_round (last [Fin (3 # 2); Fin (5 # 2)] NaN) = Ok c /\
               inputs' = set_pv_capacity (VInt c) zero_load_inputs /\
               value (pv_capacity inputs') = VInt c) /\
    (forall k sc, In (k, sc) d ->
       exists capacity,
         In capacity [Fin (3 # 2); Fin (5 # 2)] /\ py_round capacity = Ok k /\
         Scenario_init no_irr no_float_pow
           (set_pv_capacity (VInt k) zero_load_inputs) = Ok sc).
Proof.
  split; [discriminate|].
  eexists. eexists. split; [vm_compute; reflexivity|].
  apply (C10_sweep_mutates_shared_inputs no_irr no_float_pow
           [Fin (3 # 2); Fin (5 # 2)] zero_load_inputs);
    [discriminate | vm_compute; reflexivity].
Defined.

(** ** The sensitivity sweep: a variable name that is no field *)

Section SensitivityFacts.

Variable npf_irr : list F -> result F.
Variable float_pow : Q -> Q -> F.
Variable math_log10 : Q -> Q.

Lemma field_loop_no_match pv_min pv_max pv_steps pv_log names variable
    variable_range results inputs :
  ~ In variable names ->
  Sensitivity.field_loop npf_irr float_pow math_log10 pv_min pv_max pv_steps
    pv_log names variable variable_range results inputs
  = (Ok results, inputs).
Proof.
  induction names as [|n names IH]; simpl; intros H; [reflexivity|].
  destruct (String.eqb n variable) eqn:E.
  - apply String.eqb_eq in E. tauto.
  - apply IH. tauto.
Qed.

(** C9 (as the code behaves). For every secondary variable name that is not
    a field of the input specification the sensitivity sweep raises nothing:
    it completes, leaves the inputs object as it was and returns a result
    with no entry (given a number of steps that is not negative, which
    [np.linspace] requires whatever the name). *)
Theorem C9_unknown_variable_gives_empty_result inputs variable var_min
    var_max steps pv_var_min pv_var_max pv_steps pv_log_scale :
  ~ In variable fields -> 0 <= steps ->
  exists r,
    Sensitivity.init npf_irr float_pow math_log10 inputs variable var_min
      var_max steps pv_var_min pv_var_max pv_steps pv_log_scale
    = (Ok r, inputs) /\
    Sensitivity.pv_sizing r = [].
Proof.
  intros Hv Hs. unfold Sensitivity.init, linspace.
  destruct (steps <? 0) eqn:E; [apply Z.ltb_lt in E; lia|].
  unfold Sensitivity.run_sensitivity.
  rewrite field_loop_no_match by exact Hv.
  eexists. split; reflexivity.
Qed.

End SensitivityFacts.

Local Open Scope string_scope.

Lemma C9_unknown_variable_gives_empty_result_witness :
  ~ In "tilt_angle" fields /\ 0 <= 5 /\
  exists r,
    Sensitivity.init no_irr no_float_pow no_log10 example_inputs "tilt_angle"
      1 10 5 1 100 3 false
    = (Ok r, example_inputs) /\
    Sensitivity.pv_sizing r = [].
Proof.
  assert (H : ~ In "tilt_angle" fields).
  { unfold fields. simpl. intuition discriminate. }
  split; [exact H|]. split; [lia|].
  apply C9_unknown_variable_gives_empty_result; [exact H | lia].
Defined.

(** C9, as stated, fails: the name ["tilt_angle"] is no field of the input
    specification, and the sweep returns a result with no entry instead of
    raising. *)
Lemma C9_unknown_variable_counterexample :
  ~ In "tilt_angle" fields /\
  exists r,
    fst (Sensitivity.init no_irr no_float_pow no_log10 example_inputs
           "tilt_angle" 1 10 5 1 100 3 false) = Ok r /\
    Sensitivity.pv_sizing r = [] /\
    forall e,
      fst (Sensitivity.init no_irr no_float_pow no_log10 example_inputs
             "tilt_angle" 1 10 5 1 100 3 false) <> Raise e.
Proof.
  split; [unfold fields; simpl; intuition discriminate|].
  eexists. split; [vm_compute; reflexivity|].
  split; [reflexivity|]. intros e. vm_compute. discriminate.
Qed.

Local Close Scope string_scope.

(** ** The objective adapter *)

Local Open Scope string_scope.

Definition supported_variables : list string :=
  [ "Study Period"; "Discount Rate"; "PV Capacity"; "Module Degradation";
    "CAPEX"; "OPEX"; "Import Tariff"; "Export Tariff" ].

(** The attribute each supported variable name designates. *)
Definition supported_attributes : list (string * string) :=
  [ ("Study Period", "study_period"); ("Discount Rate", "discount_rate");
    ("PV Capacity", "pv_capacity"); ("Module Degradation", "pv_degradation");
    ("CAPEX", "capex"); ("OPEX", "opex"); ("Import Tariff", "import_tariff");
    ("Export Tariff", "export_tariff") ].

Lemma attribute_of_table v a :
  In (v, a) supported_attributes -> ScipyOptimiser.attribute_of v = Ok a.
Proof.
  unfold supported_attributes. intros H.
  repeat (destruct H as [H|H]; [inversion H; reflexivity|]).
  destruct H.
Qed.


Lemma Fmul_minus_one m : Fmul m (Fin (-1)) =F= Fopp m.
Proof. destruct m; simpl; auto. ring. Qed.

Lemma attribute_of_supported v :
  In v supported_variables ->
  exists a, ScipyOptimiser.attribute_of v = Ok a.
Proof.
  unfold supported_variables. simpl.
  intros [<-|[<-|[<-|[<-|[<-|[<-|[<-|[<-|[]]]]]]]]]; eexists; reflexivity.
Qed.


Section AdapterFacts.

Variable Scn : Type.
Variable setattr : string -> Q -> Scn -> Scn.
Variable update_scenario : Scn -> result Scn.
Variable summary : Scn -> string -> result F.

Local Abbreviation adapter := (ScipyOptimiser.t Scn).
Local Abbreviation wrapper :=
  (ScipyOptimiser.optimising_function_wrapper Scn setattr update_scenario
     summary).

(** What the evaluation function does with a scenario object that provides
    the interface it calls: with a supported variable name and a candidate
    value [x[0]], the attribute the name designates is set to that value and
    the scenario is rerun; when the rerun completes, the call returns the
    target metric for strategy 'Min', the metric times -1 for 'Max', the
    metric minus the goal for 'Goal-Seek', and raises ValueError for every
    other strategy tag; the adapter then holds the rerun scenario. *)
Lemma adapter_dispatch (o : adapter) variable attribute x0 xs s :
  In (variable, attribute) supported_attributes ->
  ScipyOptimiser.variable o = variable ->
  update_scenario (setattr attribute x0 (ScipyOptimiser.scenario o)) = Ok s ->
  let o' := ScipyOptimiser.with_scenario s o in
  (forall m,
     summary s (ScipyOptimiser.objective o) = Ok m ->
     (ScipyOptimiser.optimisation o = "Min" ->
      wrapper o (x0 :: xs) = (Ok m, o')) /\
     (ScipyOptimiser.optimisation o = "Max" ->
      wrapper o (x0 :: xs) = (Ok (Fmul m (Fin (-1))), o') /\
      Fmul m (Fin (-1)) =F= Fopp m) /\
     (ScipyOptimiser.optimisation o = "Goal-Seek" ->
      wrapper o (x0 :: xs)
      = (Ok (Fsub m (Fin (ScipyOptimiser.to_value o))), o'))) /\
  (ScipyOptimiser.optimisation o <> "Min" ->
   ScipyOptimiser.optimisation o <> "Max" ->
   ScipyOptimiser.optimisation o <> "Goal-Seek" ->
   wrapper o (x0 :: xs) = (Raise ValueError, o')).
Proof.
  intros Hin Hv Hu o'. subst variable. apply attribute_of_table in Hin.
  unfold ScipyOptimiser.optimising_function_wrapper. rewrite Hin. simpl.
  rewrite Hu. fold o'. unfold ScipyOptimiser.objective_value. simpl.
  split.
  - intros m Hm. rewrite Hm. split; [|split].
    + intros ->. reflexivity.
    + intros ->. split; [reflexivity | apply Fmul_minus_one].
    + intros ->. reflexivity.
  - intros H1 H2 H3.
    destruct (String.eqb_spec (ScipyOptimiser.optimisation o) "Min");
      [contradiction|].
    destruct (String.eqb_spec (ScipyOptimiser.optimisation o) "Max");
      [contradiction|].
    destruct (String.eqb_spec (ScipyOptimiser.optimisation o) "Goal-Seek");
      [contradiction|].
    reflexivity.
Qed.

End AdapterFacts.


(** A scenario object for evaluating the adapter: its attributes by name,
    a rerun that keeps them, and a summary that reads them back. *)
Definition attribute_store : Type := list (string * Q).

Definition store_setattr (n : string) (v : Q) (s : attribute_store)
  : attribute_store := (n, v) :: s.

Definition store_update (s : attribute_store) : result attribute_store := Ok s.

Fixpoint store_summary (s : attribute_store) (metric : string) : result F :=
  match s with
  | [] => Raise KeyError
  | (n, v) :: s' => if n =? metric then Ok (Fin v) else store_summary s' metric
  end.

Definition example_adapter : ScipyOptimiser.t attribute_store :=
  {| ScipyOptimiser.scenario := [];
     ScipyOptimiser.objective := "pv_capacity";
     ScipyOptimiser.optimisation := "Max";
     ScipyOptimiser.variable := "PV Capacity";
     ScipyOptimiser.init_value := 1000;
     ScipyOptimiser.to_value := 0 |}.

Local Close Scope string_scope.

(** ** The capacity grid *)

Lemma py_range_last lo hi d : lo < hi -> last (py_range lo hi) d = hi - 1.
Proof.
  remember (Z.to_nat (hi - lo)) as n eqn:En.
  revert lo En. induction n as [|n IH]; intros lo En H; [lia|].
  rewrite py_range_cons by lia.
  destruct (Z.eq_dec (lo + 1) hi) as [E|E].
  - rewrite py_range_nil by lia. simpl. lia.
  - assert (Hn : py_range (lo + 1) hi <> []).
    { rewrite py_range_cons by lia. discriminate. }
    simpl. destruct (py_range (lo + 1) hi) eqn:El; [congruence|].
    rewrite <- El. apply IH; lia.
Qed.

Lemma last_map_nonempty {A B : Type} (f : A -> B) (l : list A) (d : A) (d' : B) :
  l <> [] -> last (map f l) d' = f (last l d).
Proof.
  induction l as [|a l IH]; [congruence|]. intros _.
  destruct l as [|b l]; [reflexivity|].
  change (last (map f (b :: l)) d' = f (last (b :: l) d)).
  apply IH. discriminate.
Qed.



(** * Further properties of the engine *)

Lemma py_range_split lo y hi :
  lo <= y < hi -> py_range lo hi = py_range lo y ++ y :: py_range (y + 1) hi.
Proof.
  intros H. remember (Z.to_nat (y - lo)) as n eqn:En.
  revert lo En H. induction n as [|n IH]; intros lo En H.
  - assert (lo = y) by lia. subst lo.
    rewrite (py_range_nil y y) by lia. simpl. apply py_range_cons. lia.
  - rewrite (py_range_cons lo hi), (py_range_cons lo y) by lia. simpl.
    f_equal. apply IH; lia.
Qed.

Lemma loc_map_rows {A B : Type} (f : Z -> A -> B) (t : table A) k :
  loc (map (fun ye => (fst ye, f (fst ye) (snd ye))) t) k
  = (e <- loc t k ;; Ok (f k e)).
Proof.
  induction t as [|[k' a] t IH]; simpl; [reflexivity|].
  destruct (k' =? k) eqn:E; [|exact IH].
  apply Z.eqb_eq in E. now subst.
Qed.

(** In a table indexed by consecutive years a row stands at the position of
    its year. *)
Lemma loc_nth_error {R : Type} (t : table R) lo hi k r :
  index t = py_range lo hi -> loc t k = Ok r ->
  nth_error t (Z.to_nat (k - lo)) = Some (k, r).
Proof.
  revert lo. induction t as [|[k' r'] t IH]; intros lo Hidx Hloc;
    [discriminate|].
  simpl in Hidx. destruct (Z_lt_dec lo hi) as [L|L];
    [|rewrite py_range_nil in Hidx by lia; discriminate].
  rewrite py_range_cons in Hidx by lia. inversion Hidx; subst k'.
  simpl in Hloc. destruct (lo =? k) eqn:E.
  - apply Z.eqb_eq in E. inversion Hloc; subst.
    replace (k - k) with 0 by lia. reflexivity.
  - apply Z.eqb_neq in E.
    assert (Hin : In k (py_range (lo + 1) hi)).
    { match goal with H : index t = _ |- _ => rewrite <- H end.
      eapply loc_in_index. exact Hloc. }
    apply py_range_In in Hin.
    replace (Z.to_nat (k - lo)) with (S (Z.to_nat (k - (lo + 1)))) by lia.
    simpl. apply IH; assumption.
Qed.

Lemma column_nth {R : Type} (c : R -> F) (t : table R) n k r :
  index t = py_range 0 n -> loc t k = Ok r ->
  nth_error (column c t) (Z.to_nat k) = Some (c r).
Proof.
  intros Hidx Hloc. pose proof (loc_nth_error t 0 n k r Hidx Hloc) as Hn.
  rewrite Z.sub_0_r in Hn. unfold column. now rewrite nth_error_map, Hn.
Qed.

Lemma column_length {R : Type} (c : R -> F) (t : table R) :
  List.length (column c t) = List.length (index t).
Proof. unfold column, index. now rewrite !length_map. Qed.

Lemma Fadd_not_finite x y : is_finite x = false -> is_finite (Fadd x y) = false.
Proof. destruct x, y; simpl; try discriminate; reflexivity. Qed.

Lemma Fmul_not_finite_zero x k :
  is_finite x = false -> (k == 0)%Q -> Fmul x (Fin k) = NaN.
Proof.
  intros Hx Hk. apply (proj1 (Qeq_alt _ _)) in Hk.
  destruct x; simpl; try discriminate; try reflexivity; now rewrite Hk.
Qed.

(** The revenue of a year is NaN as soon as the PV usage is not a finite
    number and the PV energy is zero. *)
Lemma revenue_nan u it et q :
  is_finite u = false -> (q == 0)%Q ->
  Fmul (Fadd (Fmul u (Fin it)) (Fmul (Fsub (Fin 1) u) (Fin et)))
       (Fmul (Fin q) (Fin 1000)) = NaN.
Proof.
  intros Hu Hq. change (Fmul (Fin q) (Fin 1000)) with (Fin (q * 1000)).
  apply Fmul_not_finite_zero.
  - apply Fadd_not_finite, Fmul_not_finite, Hu.
  - rewrite Hq. reflexivity.
Qed.

(** ** Sums over the hourly frames *)

Lemma Qsum_cons a l : (Qsum (a :: l) == a + Qsum l)%Q.
Proof. unfold Qsum at 1. simpl. rewrite Qsum_from. ring. Qed.

Lemma Qsum_map_plus {A : Type} (f g h : A -> Q) (l : list A) :
  (forall x, In x l -> f x == g x + h x)%Q ->
  (Qsum (map f l) == Qsum (map g l) + Qsum (map h l))%Q.
Proof.
  induction l as [|a l IH]; intros H.
  - reflexivity.
  - pose proof (IH (fun x Hx => H x (or_intror Hx))) as IH'.
    pose proof (H a (or_introl eq_refl)) as Ha.
    simpl map. rewrite !Qsum_cons, IH', Ha. ring.
Qed.

Lemma Qsum_nonneg (l : list Q) :
  (forall x, In x l -> 0 <= x)%Q -> (0 <= Qsum l)%Q.
Proof.
  induction l as [|a l IH]; intros H.
  - apply Qle_refl.
  - rewrite Qsum_cons.
    pose proof (H a (or_introl eq_refl)).
    pose proof (IH (fun x Hx => H x (or_intror Hx))). lra.
Qed.

(** The number a cell counts for in a sum that skips the missing cells. *)
Definition Fval (x : F) : Q :=
  match x with
  | Fin q => q
  | _ => 0%Q
  end.

Definition finite_or_missing (x : F) : Prop := is_finite x = true \/ x = NaN.

Lemma Fsum_from_finite_or_missing l a :
  Forall finite_or_missing l ->
  exists q,
    fold_left (fun acc x => if is_nan x then acc else Fadd acc x) l (Fin a)
    = Fin q /\
    (q == a + Qsum (map Fval l))%Q.
Proof.
  intros H. revert a. induction H as [|x l Hx Hl IH]; intros a.
  - exists a. split; [reflexivity|]. unfold Qsum. simpl. ring.
  - destruct Hx as [Hx|Hx].
    + destruct x as [q| | |]; try discriminate. simpl fold_left.
      destruct (IH (a + q)%Q) as [q' [H1 H2]]. exists q'.
      split; [exact H1|]. rewrite H2. simpl map. rewrite Qsum_cons.
      simpl. ring.
    + subst x. simpl fold_left.
      destruct (IH a) as [q' [H1 H2]]. exists q'.
      split; [exact H1|]. rewrite H2. simpl map. rewrite Qsum_cons.
      simpl. ring.
Qed.

(** An annual total: the sum of the cells that are not missing, in MWh. *)
Lemma annual_total l :
  Forall finite_or_missing l ->
  exists q,
    Fdiv (Fsum l) (Fin 1000) = Fin q /\
    (q * 1000 == Qsum (map Fval l))%Q.
Proof.
  intros H. destruct (Fsum_from_finite_or_missing l 0 H) as [q [Hq Hq']].
  exists (q / 1000)%Q. unfold Fsum. rewrite Hq.
  split; [reflexivity|]. rewrite Hq'. field.
Qed.

(** What every row of an hourly frame satisfies; [covered] tells that the
    yield series has a value at the hour of the row. *)
Definition hour_facts (covered : Prop) (r : Hourly.row) : Prop :=
  is_finite (Hourly.enLoad r) = true /\
  finite_or_missing (Hourly.enPV_total r) /\
  is_finite (Hourly.enPV_self_cons r) = true /\
  is_finite (Hourly.enGrid_import r) = true /\
  finite_or_missing (Hourly.enGrid_export r) /\
  (Fval (Hourly.enLoad r)
     == Fval (Hourly.enPV_self_cons r) + Fval (Hourly.enGrid_import r))%Q /\
  (0 <= Fval (Hourly.enGrid_import r))%Q /\
  (0 <= Fval (Hourly.enGrid_export r))%Q /\
  (covered ->
   (Fval (Hourly.enPV_total r)
      == Fval (Hourly.enPV_self_cons r) + Fval (Hourly.enGrid_export r))%Q).

Lemma hour_facts_covered (covered : Prop) ld pv :
  hour_facts covered (hour_row (Fin ld) (Fin pv)).
Proof.
  unfold hour_facts, hour_row, finite_or_missing. simpl.
  destruct (Qltb pv ld) eqn:E;
    [apply Qltb_true in E | apply Qltb_false in E]; simpl;
    repeat split; auto; try lra; intros _; lra.
Qed.

Lemma hour_facts_missing (covered : Prop) ld :
  ~ covered -> hour_facts covered (hour_row (Fin ld) NaN).
Proof.
  intros Hc. unfold hour_facts, hour_row, finite_or_missing. simpl.
  repeat split; auto; try lra. intros H. contradiction.
Qed.

(** The row of an hour: built from the load of the hour and from its yield
    when the yield series reaches the hour. *)
Lemma year_data_row_cases s year h row :
  nth_error (year_data s year) h = Some row ->
  exists ld,
    nth_error (v_load s) h = Some ld /\
    match nth_error (v_ref_specific_yield s) h with
    | Some sy =>
        row = hour_row (Fin ld)
                (Fin (sy * (v_pv_capacity s
                            * (1 - v_pv_degradation s
                                   * (inject_Z year - (1 # 2))))))
    | None => row = hour_row (Fin ld) NaN
    end.
Proof.
  intros Hrow.
  assert (Hlt : (h < List.length (v_load s))%nat).
  { rewrite <- (year_data_length s year). apply nth_error_Some. congruence. }
  destruct (nth_error (v_load s) h) as [ld|] eqn:Hld;
    [|apply nth_error_None in Hld; lia].
  exists ld. split; [reflexivity|].
  rewrite (year_data_nth s year h ld Hld) in Hrow. inversion Hrow.
  now destruct (nth_error (v_ref_specific_yield s) h).
Qed.

Lemma year_data_facts s year row :
  In row (year_data s year) ->
  hour_facts (List.length (v_load s)
              <= List.length (v_ref_specific_yield s))%nat row.
Proof.
  intros Hin. apply In_nth_error in Hin. destruct Hin as [h Hh].
  destruct (year_data_row_cases s year h row Hh) as [ld [Hld Hrow]].
  destruct (nth_error (v_ref_specific_yield s) h) as [sy|] eqn:Hsy.
  - subst row. apply hour_facts_covered.
  - subst row. apply hour_facts_missing.
    apply nth_error_None in Hsy.
    assert ((h < List.length (v_load s))%nat)
      by (apply nth_error_Some; congruence).
    lia.
Qed.

(** The annual totals of a frame: all finite numbers; load is
    self-consumption plus import, and PV energy is self-consumption plus
    export when the yield covers every hour. *)
Lemma annual_row_cells (covered : Prop) hours :
  (forall row, In row hours -> hour_facts covered row) ->
  exists ld pv sc_ im ex,
    Annual.enLoad (annual_row hours) = Fin ld /\
    Annual.enPV_total (annual_row hours) = Fin pv /\
    Annual.enPV_self_cons (annual_row hours) = Fin sc_ /\
    Annual.enGrid_import (annual_row hours) = Fin im /\
    Annual.enGrid_export (annual_row hours) = Fin ex /\
    (ld == sc_ + im)%Q /\ (0 <= im)%Q /\ (0 <= ex)%Q /\
    (covered -> (pv == sc_ + ex)%Q).
Proof.
  intros H.
  assert (Hcol : forall c : Hourly.row -> F,
            (forall row, hour_facts covered row -> finite_or_missing (c row)) ->
            exists q,
              Fdiv (Fsum (map c hours)) (Fin 1000) = Fin q /\
              (q * 1000 == Qsum (map (fun r => Fval (c r)) hours))%Q).
  { intros c Hc. destruct (annual_total (map c hours)) as [q [H1 H2]].
    - rewrite Forall_map, Forall_forall. intros row Hrow.
      apply Hc, H, Hrow.
    - exists q. split; [exact H1|]. now rewrite map_map in H2. }
  destruct (Hcol Hourly.enLoad) as [ld [Hld Hld']];
    [intros row Hr; left; apply Hr|].
  destruct (Hcol Hourly.enPV_total) as [pv [Hpv Hpv']];
    [intros row Hr; apply Hr|].
  destruct (Hcol Hourly.enPV_self_cons) as [sc_ [Hsc Hsc']];
    [intros row Hr; left; apply Hr|].
  destruct (Hcol Hourly.enGrid_import) as [im [Him Him']];
    [intros row Hr; left; apply Hr|].
  destruct (Hcol Hourly.enGrid_export) as [ex [Hex Hex']];
    [intros row Hr; apply Hr|].
  exists ld, pv, sc_, im, ex.
  split; [exact Hld|]. split; [exact Hpv|]. split; [exact Hsc|].
  split; [exact Him|]. split; [exact Hex|].
  assert (HL : (Qsum (map (fun r => Fval (Hourly.enLoad r)) hours)
                == Qsum (map (fun r => Fval (Hourly.enPV_self_cons r)) hours)
                   + Qsum (map (fun r => Fval (Hourly.enGrid_import r)) hours))%Q).
  { apply Qsum_map_plus. intros row Hrow. apply (H row Hrow). }
  assert (HI : (0 <= Qsum (map (fun r => Fval (Hourly.enGrid_import r)) hours))%Q).
  { apply Qsum_nonneg. intros x Hx. apply in_map_iff in Hx.
    destruct Hx as [row [<- Hrow]]. apply (H row Hrow). }
  assert (HX : (0 <= Qsum (map (fun r => Fval (Hourly.enGrid_export r)) hours))%Q).
  { apply Qsum_nonneg. intros x Hx. apply in_map_iff in Hx.
    destruct Hx as [row [<- Hrow]]. apply (H row Hrow). }
  split; [lra|]. split; [lra|]. split; [lra|].
  intros Hc.
  assert (HP : (Qsum (map (fun r => Fval (Hourly.enPV_total r)) hours)
                == Qsum (map (fun r => Fval (Hourly.enPV_self_cons r)) hours)
                   + Qsum (map (fun r => Fval (Hourly.enGrid_export r)) hours))%Q).
  { apply Qsum_map_plus. intros row Hrow. now apply (H row Hrow). }
  lra.
Qed.

Lemma energy_balance_loc_inv s year hours :
  loc (_calc_annual_energy_balance s) year = Ok hours ->
  1 <= year <= v_study_period s /\ hours = year_data s year.
Proof.
  intros H. assert (Hy : 1 <= year <= v_study_period s).
  { apply loc_in_index in H. rewrite energy_balance_index in H.
    apply py_range_In in H. lia. }
  split; [exact Hy|]. rewrite (energy_balance_loc s year Hy) in H.
  now inversion H.
Qed.

(** *** What [np.roots] keeps of a column *)

Lemma strip_leading_zeros_app l a rest :
  is_zero a = false ->
  exists l', strip_leading_zeros (l ++ a :: rest) = l' ++ a :: rest.
Proof.
  intros Ha. induction l as [|x l IH]; simpl.
  - rewrite Ha. now exists [].
  - destruct (is_zero x); [exact IH|]. now exists (x :: l).
Qed.

(** Two coefficients that are not zero stay, with all that lies between
    them. *)
Lemma strip_zeros_app l a m b r :
  is_zero a = false -> is_zero b = false ->
  exists l' r',
    strip_zeros (l ++ a :: m ++ b :: r) = l' ++ a :: m ++ b :: r'.
Proof.
  intros Ha Hb. unfold strip_zeros.
  destruct (strip_leading_zeros_app l a (m ++ b :: r) Ha) as [l' ->].
  replace (l' ++ a :: m ++ b :: r) with ((l' ++ a :: m) ++ b :: r)
    by now rewrite <- app_assoc.
  rewrite rev_app_distr. simpl rev at 1. rewrite <- app_assoc. simpl app at 2.
  destruct (strip_leading_zeros_app (rev r) b (rev (l' ++ a :: m)) Hb)
    as [r' ->].
  exists l', (rev r').
  rewrite rev_app_distr. simpl rev at 1. rewrite rev_involutive.
  now rewrite <- !app_assoc.
Qed.

Lemma nth_error_two {A : Type} (l : list A) i j a b :
  (i < j)%nat -> nth_error l i = Some a -> nth_error l j = Some b ->
  exists l1 m l2, l = l1 ++ a :: m ++ b :: l2.
Proof.
  intros Hij Hi Hj.
  destruct (nth_error_split l i Hi) as (l1 & rest & -> & Hlen).
  rewrite nth_error_app2 in Hj by lia.
  destruct (j - List.length l1)%nat as [|k] eqn:E; [lia|]. simpl in Hj.
  destruct (nth_error_split rest k Hj) as (m & l2 & -> & _).
  now exists l1, m, l2.
Qed.

(** [npf.irr] raises on a column with a NaN cashflow, unless every other
    cashflow of the column is zero. *)
Lemma irr_rejects_nan npf_irr values i j x :
  nth_error values i = Some NaN -> nth_error values j = Some x ->
  i <> j -> is_zero x = false ->
  irr npf_irr values = Raise LinAlgError.
Proof.
  intros Hi Hj Hij Hx.
  assert (H : exists l a m b r,
             strip_zeros values = l ++ a :: m ++ b :: r /\
             (a = NaN \/ b = NaN)).
  { destruct (Nat.lt_ge_cases i j) as [Hlt|Hge].
    - destruct (nth_error_two values i j _ _ Hlt Hi Hj)
        as (l1 & m & l2 & ->).
      destruct (strip_zeros_app l1 NaN m x l2 eq_refl Hx) as (l' & r' & E).
      exists l', NaN, m, x, r'. auto.
    - destruct (nth_error_two values j i _ _ ltac:(lia) Hj Hi)
        as (l1 & m & l2 & ->).
      destruct (strip_zeros_app l1 x m NaN l2 Hx eq_refl) as (l' & r' & E).
      exists l', x, m, NaN, r'. auto. }
  destruct H as (l & a & m & b & r & E & Hnan).
  unfold irr. rewrite E.
  replace (Nat.ltb 1 (List.length (l ++ a :: m ++ b :: r))) with true.
  2:{ symmetry. apply Nat.ltb_lt. rewrite length_app. simpl.
      rewrite length_app. simpl. lia. }
  replace (existsb is_nan (l ++ a :: m ++ b :: r)) with true; [reflexivity|].
  symmetry. apply existsb_exists. exists NaN. split; [|reflexivity].
  apply in_or_app. right.
  destruct Hnan as [-> | ->]; [now left|].
  right. apply in_or_app. right. now left.
Qed.

Section EngineRows.

Variable npf_irr : list F -> result F.
Variable float_pow : Q -> Q -> F.

Local Abbreviation build := (Scenario_init npf_irr float_pow).
Local Abbreviation cf_row := (cashflow_row float_pow).
Local Abbreviation dcf_row := (discounted_row float_pow).
Local Abbreviation disc_loop := (discount_loop float_pow).

Lemma cash_balance_loop_app l1 l2 t :
  cash_balance_loop (l1 ++ l2) t
  = (t1 <- cash_balance_loop l1 t ;; cash_balance_loop l2 t1).
Proof.
  revert t. induction l1 as [|y l1 IH]; intros t; simpl; [reflexivity|].
  destruct (loc t y) as [r|e]; simpl; [|reflexivity].
  destruct (y =? 0); [apply IH|].
  destruct (loc t (y - 1)) as [b|e]; simpl; [apply IH | reflexivity].
Qed.

Lemma discount_loop_app s l1 l2 t :
  disc_loop s (l1 ++ l2) t
  = (t1 <- disc_loop s l1 t ;; disc_loop s l2 t1).
Proof.
  revert t. induction l1 as [|y l1 IH]; intros t; simpl; [reflexivity|].
  destruct (0 <? y); [|apply IH].
  destruct (loc t y) as [r|e]; simpl; [|reflexivity].
  destruct (loc t (y - 1)) as [b|e]; simpl; [apply IH | reflexivity].
Qed.

(** The row a year ends with: its cells at the start of the loop, and the
    balance of the year before as it ends. *)
Lemma cash_balance_loop_row pre y post t t' :
  ~ In y pre -> ~ In y post -> ~ In (y - 1) post ->
  cash_balance_loop (pre ++ y :: post) t = Ok t' ->
  exists r,
    loc t y = Ok r /\
    (y = 0 -> loc t' y = Ok (Cash.with_cash_balance (Cash.cashflow r) r)) /\
    (y <> 0 ->
     exists before,
       loc t' (y - 1) = Ok before /\
       loc t' y
       = Ok (Cash.with_cash_balance
               (Fadd (Cash.cash_balance before) (Cash.cashflow r)) r)).
Proof.
  intros Hpre Hpost Hpost' H. rewrite cash_balance_loop_app in H.
  inv_bind H. rename a into t1. simpl in H. inv_bind H. rename a into r.
  exists r. split.
  { rewrite <- (cash_balance_loop_other _ _ _ _ Ha Hpre). exact Ha0. }
  pose proof (loc_in_index _ _ _ Ha0) as Hin.
  destruct (y =? 0) eqn:E.
  - apply Z.eqb_eq in E. split; [|congruence]. intros _.
    rewrite (cash_balance_loop_other _ _ _ _ H Hpost).
    now apply loc_set_row_same.
  - apply Z.eqb_neq in E. split; [congruence|]. intros _.
    inv_bind H. rename a into before. exists before. split.
    + rewrite (cash_balance_loop_other _ _ _ _ H Hpost').
      rewrite loc_set_row_other by lia. exact Ha1.
    + rewrite (cash_balance_loop_other _ _ _ _ H Hpost).
      now apply loc_set_row_same.
Qed.

Lemma discount_loop_row s pre y post t t' :
  0 < y -> ~ In y pre -> ~ In y post -> ~ In (y - 1) post ->
  disc_loop s (pre ++ y :: post) t = Ok t' ->
  exists r before,
    loc t y = Ok r /\
    loc t' (y - 1) = Ok before /\
    loc t' y = Ok (dcf_row s y r before).
Proof.
  intros Hy Hpre Hpost Hpost' H. rewrite discount_loop_app in H.
  inv_bind H. rename a into t1. simpl in H.
  destruct (0 <? y) eqn:E; [|apply Z.ltb_ge in E; lia].
  inv_bind H. rename a into r. inv_bind H. rename a into before.
  exists r, before. split; [|split].
  - rewrite <- (discount_loop_other _ _ _ _ _ y Ha) by (right; exact Hpre).
    exact Ha0.
  - rewrite (discount_loop_other _ _ _ _ _ (y - 1) H) by (right; exact Hpost').
    rewrite loc_set_row_other by lia. exact Ha1.
  - rewrite (discount_loop_other _ _ _ _ _ y H) by (right; exact Hpost).
    apply loc_set_row_same. eapply loc_in_index. exact Ha0.
Qed.

(** The rows of the cashflow table. *)
Lemma calc_cashflow_rows s ebs cf :
  1 <= v_study_period s ->
  index ebs = py_range 1 (v_study_period s + 1) ->
  _calc_cashflow float_pow s ebs = Ok cf ->
  let c0 := Fin (- total_investment s * (1 - v_loan s)) in
  loc cf 0 = Ok (Cash.with_cash_balance c0 (Cash.only_cashflow c0)) /\
  forall y, 1 <= y <= v_study_period s ->
    exists e before,
      loc ebs y = Ok e /\
      loc cf (y - 1) = Ok before /\
      loc cf y
      = Ok (Cash.with_cash_balance
              (Fadd (Cash.cash_balance before)
                    (Cash.cashflow (cf_row s y e)))
              (cf_row s y e)).
Proof.
  intros Hsp Hebs Hc c0.
  unfold _calc_cashflow in Hc. fold c0 in Hc.
  set (rows := map (fun ye => (fst ye, cf_row s (fst ye) (snd ye))) ebs) in Hc.
  assert (Hd : index rows = py_range 1 (v_study_period s + 1)).
  { unfold rows, index. rewrite map_map. simpl. exact Hebs. }
  rewrite sort_index_app_least in Hc;
    [|rewrite Hd; apply py_range_ascending
     |intros k Hk; rewrite Hd in Hk; apply py_range_In in Hk; simpl; lia].
  inv_bind Hc. rename a into t'. inversion Hc as [Hcf']. clear Hc.
  assert (Hidx : index ((0, Cash.only_cashflow c0) :: rows)
                 = py_range 0 (v_study_period s + 1)).
  { simpl. rewrite Hd. symmetry. apply py_range_from_zero. lia. }
  rewrite Hidx in Ha. split.
  - rewrite loc_sort_index.
    rewrite (py_range_split 0 0) in Ha by lia.
    rewrite (py_range_nil 0 0) in Ha by lia. simpl app in Ha.
    destruct (cash_balance_loop_row [] 0 (py_range (0 + 1) (v_study_period s + 1))
                _ _ (fun x => x) ltac:(rewrite py_range_In; lia)
                ltac:(rewrite py_range_In; lia) Ha) as (r & Hr & H0 & _).
    simpl in Hr. inversion Hr; subst r. now apply H0.
  - intros y Hy. rewrite !loc_sort_index.
    rewrite (py_range_split 0 y) in Ha by lia.
    destruct (cash_balance_loop_row (py_range 0 y) y
                (py_range (y + 1) (v_study_period s + 1)) _ _
                ltac:(rewrite py_range_In; lia)
                ltac:(rewrite py_range_In; lia)
                ltac:(rewrite py_range_In; lia) Ha) as (r & Hr & _ & Hn).
    destruct (Hn ltac:(lia)) as (before & Hb & Hrow).
    cbn [loc] in Hr. destruct (0 =? y) eqn:E; [apply Z.eqb_eq in E; lia|].
    unfold rows in Hr. rewrite loc_map_rows in Hr.
    inv_bind Hr. rename a into e. inversion Hr; subst r.
    exists e, before. auto.
Qed.

(** The rows of the two cashflow tables of a built scenario. *)
Lemma cashflow_rows inputs sc :
  build inputs = Ok sc ->
  let s := self sc in
  let c0 := Fin (- total_investment s * (1 - v_loan s)) in
  loc (cashflow sc) 0
    = Ok (Cash.with_cash_balance c0 (Cash.only_cashflow c0)) /\
  forall y, 1 <= y <= v_study_period s ->
    exists e before,
      loc (energy_balance_summary sc) y = Ok e /\
      loc (cashflow sc) (y - 1) = Ok before /\
      loc (cashflow sc) y
      = Ok (Cash.with_cash_balance
              (Fadd (Cash.cash_balance before)
                    (Cash.cashflow (cf_row s y e)))
              (cf_row s y e)).
Proof.
  intros H s c0.
  destruct (Scenario_init_indexes _ _ _ _ H) as (Hsp & _ & Hebs & _).
  destruct (Scenario_init_inv _ _ _ _ H) as (_ & _ & _ & Hc & _).
  exact (calc_cashflow_rows _ _ _ Hsp Hebs Hc).
Qed.

Lemma discounted_rows inputs sc :
  build inputs = Ok sc ->
  forall y, 1 <= y <= v_study_period (self sc) ->
    exists r before,
      loc (cashflow sc) y = Ok r /\
      loc (discounted_cashflow sc) (y - 1) = Ok before /\
      loc (discounted_cashflow sc) y
      = Ok (dcf_row (self sc) y r before).
Proof.
  intros H y Hy.
  destruct (Scenario_init_indexes _ _ _ _ H) as (Hsp & _ & _ & Hcf & _).
  destruct (Scenario_init_inv _ _ _ _ H) as (_ & _ & _ & _ & Hd & _).
  unfold _calc_discounted_cashflow in Hd. inv_bind Hd. inversion Hd as [Hd'].
  rewrite Hcf in Ha. rewrite (py_range_split 0 y) in Ha by lia.
  rewrite !loc_sort_index.
  apply (discount_loop_row _ (py_range 0 y) y
           (py_range (y + 1) (v_study_period (self sc) + 1)) _ _ ltac:(lia)
           ltac:(rewrite py_range_In; lia)
           ltac:(rewrite py_range_In; lia)
           ltac:(rewrite py_range_In; lia) Ha).
Qed.

(** A year whose PV energy sums to zero has no defined PV usage, and its
    cashflow is NaN. *)
Lemma zero_pv_cashflow s year hours q :
  Annual.enPV_total (annual_row hours) = Fin q -> (q == 0)%Q ->
  Cash.cashflow (cf_row s year (annual_row hours)) = NaN.
Proof.
  intros Hpv Hq.
  assert (Hu : is_finite (Annual.PV_usage_pct (annual_row hours)) = false).
  { change (Annual.PV_usage_pct (annual_row hours))
      with (Fdiv (Annual.enPV_self_cons (annual_row hours))
                 (Annual.enPV_total (annual_row hours))).
    rewrite Hpv. now apply Fdiv_by_zero. }
  unfold cashflow_row. cbn [Cash.cashflow]. rewrite Hpv.
  rewrite (revenue_nan _ _ _ _ Hu Hq). reflexivity.
Qed.

(** C7 (as the code behaves). No degenerate-input check is made when a
    scenario is built.  For every input specification with a study period of
    at least one year, every table is built and the build ends as npf.irr
    does on the cashflow column, whose year-0 cell is the equity outlay: it
    raises only the exception of that routine, if any, and completes
    otherwise.  When it completes and the load sums to zero, the BLCOE of the
    summary row is the quotient by zero, NaN or an infinity.  A year whose PV
    energy sums to zero has a NaN cashflow in that column, and unless every
    other cashflow of the column is zero the build raises LinAlgError, the
    error of the eigenvalue routine under npf.irr. *)
Theorem C7_degenerate_inputs_unguarded inputs s :
  values_of inputs = Ok s -> 1 <= v_study_period s ->
  exists ebs col,
    _calc_energy_balance_summary (_calc_annual_energy_balance s) = Ok ebs /\
    irr_argument float_pow s = Ok col /\
    nth_error col 0 = Some (Fin (- total_investment s * (1 - v_loan s))) /\
    (forall e, irr npf_irr col = Raise e -> build inputs = Raise e) /\
    (forall r, irr npf_irr col = Ok r ->
       exists sc,
         build inputs = Ok sc /\
         ((Qsum (v_load s) == 0)%Q ->
          is_finite (Summary.blcoe (snd (data sc))) = false)) /\
    (forall year e q,
       loc ebs year = Ok e -> Annual.enPV_total e = Fin q -> (q == 0)%Q ->
       nth_error col (Z.to_nat year) = Some NaN /\
       forall i x,
         i <> Z.to_nat year -> nth_error col i = Some x ->
         is_zero x = false ->
         build inputs = Raise LinAlgError).
Proof.
  intros Hv Hsp.
  destruct (Scenario_init_outcome npf_irr float_pow inputs s Hv Hsp)
    as (ebs & cf & dcf & Hebs & Hcf & Hdcf & Hie & Hic & Hcol & Hraise & Hok).
  exists ebs, (column Cash.cashflow cf).
  split; [exact Hebs|]. split; [exact Hcol|]. split.
  { destruct (calc_cashflow_rows _ _ _ Hsp Hie Hcf) as [H0 _].
    exact (column_nth Cash.cashflow cf _ 0 _ Hic H0). }
  split; [exact Hraise|]. split.
  - intros r Hr. destruct (Hok r Hr) as (sc & Hsc & Hself & _ & _ & Hd & _).
    exists sc. split; [exact Hsc|]. intros Hsum.
    destruct (Scenario_init_inv _ _ _ _ Hsc) as (_ & _ & _ & _ & _ & Hdata).
    assert (Hz : Forall (fun x => zero_or_missing (Cash.enLoad (snd x))) dcf).
    { eapply discounted_load_zero; [|exact Hcf|exact Hdcf].
      rewrite Forall_forall. intros [y r0] Hr0. simpl.
      eapply annual_load_zero; eassumption. }
    unfold _calc_summary in Hdata. inv_bind Hdata. inv_bind Hdata.
    inversion Hdata as [Hrow]. simpl. unfold _calc_LCOE. simpl.
    rewrite Hd.
    destruct (Fsum_zero_or_missing (column Cash.enLoad dcf)) as [q [Hq Hq0]].
    { unfold column. rewrite Forall_map. exact Hz. }
    rewrite Hq. simpl. apply Fmul_not_finite, Fdiv_by_zero. lra.
  - intros year e q He Hpv Hq.
    destruct (summary_rows_are_annual _ _ _ _ Hebs He) as [Hy ->].
    destruct (proj2 (calc_cashflow_rows _ _ _ Hsp Hie Hcf) year Hy)
      as (e' & before & He' & _ & Hrow).
    rewrite He in He'. inversion He'; subst e'.
    assert (Hnan : nth_error (column Cash.cashflow cf) (Z.to_nat year)
                   = Some NaN).
    { rewrite (column_nth Cash.cashflow cf _ year _ Hic Hrow).
      simpl. f_equal. now apply zero_pv_cashflow with (q := q). }
    split; [exact Hnan|]. intros i x Hi Hx Hnz.
    apply Hraise. apply (irr_rejects_nan npf_irr _ (Z.to_nat year) i x);
      auto.
Qed.

(** X1. How a build ends, with values of the expected dynamic types.  With a
    study period below one year it raises AttributeError, the summary
    attribute never having been assigned.  Otherwise no label is ever missing
    in the loops over the years: the cashflow column of the years
    0..studyPeriod reaches npf.irr, and the build raises what that routine
    raises or completes with its result, times 100, as the IRR of the
    summary row. *)
Theorem X1_build_outcome inputs s :
  values_of inputs = Ok s ->
  (v_study_period s < 1 -> build inputs = Raise AttributeError) /\
  (1 <= v_study_period s ->
   exists col,
     irr_argument float_pow s = Ok col /\
     List.length col = Z.to_nat (v_study_period s + 1) /\
     (forall e, irr npf_irr col = Raise e -> build inputs = Raise e) /\
     (forall r, irr npf_irr col = Ok r ->
        exists sc,
          build inputs = Ok sc /\ self sc = s /\
          Summary.irr (snd (data sc)) = Fmul r (Fin 100))).
Proof.
  intros Hv. split; intros Hsp.
  - now apply Scenario_init_no_year with (s := s).
  - destruct (Scenario_init_outcome npf_irr float_pow inputs s Hv Hsp)
      as (ebs & cf & dcf & _ & _ & _ & _ & Hic & Hcol & Hraise & Hok).
    exists (column Cash.cashflow cf). split; [exact Hcol|]. split.
    + rewrite column_length, Hic, py_range_length. f_equal. lia.
    + split; [exact Hraise|]. intros r Hr.
      destruct (Hok r Hr) as (sc & Hsc & Hself & _ & _ & _ & Hirr).
      exists sc. auto.
Qed.

(** X2. In a built scenario the study period is at least one year, the
    energy balance and its summary are indexed by the years 1..studyPeriod
    and the two cashflow tables by the years 0..studyPeriod, in increasing
    order. *)
Theorem X2_tables_are_indexed_by_year inputs sc :
  build inputs = Ok sc ->
  1 <= v_study_period (self sc) /\
  index (energy_balance sc) = py_range 1 (v_study_period (self sc) + 1) /\
  index (energy_balance_summary sc)
    = py_range 1 (v_study_period (self sc) + 1) /\
  index (cashflow sc) = py_range 0 (v_study_period (self sc) + 1) /\
  index (discounted_cashflow sc) = py_range 0 (v_study_period (self sc) + 1).
Proof. apply Scenario_init_indexes. Qed.

(** X3. The cashflow table of a built scenario: the year-0 row holds the
    equity outlay -(capex + devex) * capacity * (1 - loan) as cashflow and as
    cash balance and every other cell of it is missing; in every later year
    the cashflow is -opex + revenues - loan payment and the cash balance is
    the balance of the year before plus the cashflow of the year. *)
Theorem X3_cash_balance_accumulates inputs sc :
  build inputs = Ok sc ->
  let s := self sc in
  (exists year0,
     loc (cashflow sc) 0 = Ok year0 /\
     Cash.cashflow year0
       = Fin (- ((v_capex s + v_devex s) * v_pv_capacity s) * (1 - v_loan s)) /\
     Cash.cash_balance year0 = Cash.cashflow year0 /\
     Cash.enLoad year0 = NaN /\ Cash.enPV_total year0 = NaN /\
     Cash.enPV_self_cons year0 = NaN /\ Cash.enGrid_import year0 = NaN /\
     Cash.enGrid_export year0 = NaN /\ Cash.import_tariff year0 = NaN /\
     Cash.export_tariff year0 = NaN /\ Cash.combined_tariff year0 = NaN /\
     Cash.import_costs year0 = NaN /\ Cash.export_sales year0 = NaN /\
     Cash.enPV_revenues year0 = NaN /\ Cash.opex year0 = NaN /\
     Cash.loan_payment year0 = NaN) /\
  forall y, 1 <= y <= v_study_period s ->
    exists r before,
      loc (cashflow sc) y = Ok r /\
      loc (cashflow sc) (y - 1) = Ok before /\
      Cash.cashflow r
        = Fsub (Fadd (Fopp (Cash.opex r)) (Cash.enPV_revenues r))
               (Cash.loan_payment r) /\
      Cash.cash_balance r = Fadd (Cash.cash_balance before) (Cash.cashflow r).
Proof.
  intros H s. destruct (cashflow_rows _ _ H) as [H0 Hy]. fold s in H0, Hy.
  split.
  - eexists. split; [exact H0|]. repeat split.
  - intros y Hr. destruct (Hy y Hr) as (e & before & _ & Hb & Hrow).
    eexists. exists before. split; [exact Hrow|]. split; [exact Hb|].
    split; reflexivity.
Qed.

(** X4. The discounted table of a built scenario: for every year y >= 1 the
    energy, import-cost, export-sales and opex cells are the undiscounted
    cells divided by (1 + discountRate)^y, the tariffs are left as they are,
    the revenue is recomputed from the undiscounted combined tariff and the
    discounted PV energy, and the cash balance accumulates the discounted
    cashflows on top of the discounted balance of the year before. *)
Theorem X4_discounted_rows inputs sc :
  build inputs = Ok sc ->
  forall y, 1 <= y <= v_study_period (self sc) ->
    exists r rd before,
      loc (cashflow sc) y = Ok r /\
      loc (discounted_cashflow sc) y = Ok rd /\
      loc (discounted_cashflow sc) (y - 1) = Ok before /\
      let d := Fin ((1 + v_discount_rate (self sc)) ^ y) in
      Cash.enLoad rd = Fdiv (Cash.enLoad r) d /\
      Cash.enPV_total rd = Fdiv (Cash.enPV_total r) d /\
      Cash.enPV_self_cons rd = Fdiv (Cash.enPV_self_cons r) d /\
      Cash.enGrid_import rd = Fdiv (Cash.enGrid_import r) d /\
      Cash.enGrid_export rd = Fdiv (Cash.enGrid_export r) d /\
      Cash.import_costs rd = Fdiv (Cash.import_costs r) d /\
      Cash.export_sales rd = Fdiv (Cash.export_sales r) d /\
      Cash.opex rd = Fdiv (Cash.opex r) d /\
      Cash.import_tariff rd = Cash.import_tariff r /\
      Cash.export_tariff rd = Cash.export_tariff r /\
      Cash.combined_tariff rd = Cash.combined_tariff r /\
      Cash.enPV_revenues rd
        = Fmul (Cash.combined_tariff r)
               (Fmul (Fdiv (Cash.enPV_total r) d) (Fin 1000)) /\
      Cash.cashflow rd
        = Fsub (Fadd (Fopp (Cash.opex rd)) (Cash.enPV_revenues rd))
               (Cash.loan_payment rd) /\
      Cash.cash_balance rd
        = Fadd (Cash.cash_balance before) (Cash.cashflow rd).
Proof.
  intros H y Hy. destruct (discounted_rows _ _ H y Hy) as (r & before & Hr & Hb & Hrd).
  exists r. eexists. exists before.
  split; [exact Hr|]. split; [exact Hrd|]. split; [exact Hb|].
  simpl. repeat split.
Qed.

(** X5. No loan payment is booked after the loan period: in every year
    later than the loan period the loan-payment cell is 0 in the cashflow
    table and in the discounted table, whatever the loan fraction (so with
    the default loan period of 0 no repayment is ever booked). *)
Theorem X5_no_loan_payment_after_loan_period inputs sc :
  build inputs = Ok sc ->
  forall y, 1 <= y <= v_study_period (self sc) ->
    (v_loan_period (self sc) < inject_Z y)%Q ->
    exists r rd,
      loc (cashflow sc) y = Ok r /\
      loc (discounted_cashflow sc) y = Ok rd /\
      Cash.loan_payment r = Fin 0 /\
      Cash.loan_payment rd = Fin 0.
Proof.
  intros H y Hy Hlp.
  destruct (cashflow_rows _ _ H) as [_ Hc].
  destruct (Hc y Hy) as (e & b & _ & _ & Hrow).
  destruct (discounted_rows _ _ H y Hy) as (r & before & Hr & _ & Hrd).
  assert (E : Qle_bool (inject_Z y) (v_loan_period (self sc)) = false).
  { destruct (Qle_bool (inject_Z y) (v_loan_period (self sc))) eqn:E;
      [|reflexivity].
    apply Qle_bool_iff in E. lra. }
  exists r. eexists. split; [exact Hr|]. split; [exact Hrd|].
  rewrite Hrow in Hr. inversion Hr; subst r. simpl.
  unfold cashflow_row, discounted_row. simpl.
  rewrite E. split; reflexivity.
Qed.

(** The rows of the annual summary of a built scenario. *)
Lemma built_summary_row inputs sc y e :
  build inputs = Ok sc ->
  loc (energy_balance_summary sc) y = Ok e ->
  1 <= y <= v_study_period (self sc) /\
  e = annual_row (year_data (self sc) y).
Proof.
  intros H He.
  destruct (Scenario_init_inv _ _ _ _ H) as (_ & Heb & Hebs & _).
  rewrite Heb in Hebs. exact (summary_rows_are_annual _ _ _ _ Hebs He).
Qed.

Lemma built_annual_cells inputs sc y :
  build inputs = Ok sc -> 1 <= y <= v_study_period (self sc) ->
  exists e ld pv sc_ im ex,
    loc (energy_balance_summary sc) y = Ok e /\
    Annual.enLoad e = Fin ld /\ Annual.enPV_total e = Fin pv /\
    Annual.enPV_self_cons e = Fin sc_ /\
    Annual.enGrid_import e = Fin im /\ Annual.enGrid_export e = Fin ex /\
    (ld == sc_ + im)%Q /\ (0 <= im)%Q /\ (0 <= ex)%Q /\
    ((List.length (v_load (self sc))
      <= List.length (v_ref_specific_yield (self sc)))%nat ->
     (pv == sc_ + ex)%Q).
Proof.
  intros H Hy.
  destruct (Scenario_init_indexes _ _ _ _ H) as (_ & _ & Hebs & _).
  destruct (loc_index (energy_balance_summary sc) y) as [e He].
  { rewrite Hebs. apply py_range_In. lia. }
  destruct (built_summary_row _ _ _ _ H He) as [_ ->].
  destruct (annual_row_cells _ (year_data (self sc) y)
              (year_data_facts (self sc) y))
    as (ld & pv & sc_ & im & ex & Hcells).
  exists (annual_row (year_data (self sc) y)), ld, pv, sc_, im, ex.
  split; [exact He | exact Hcells].
Qed.

(** X6. Beyond the loan period discounting divides the cashflow of a year by
    (1 + discountRate)^year: when the combined tariff of the year is a finite
    number and 1 + discountRate is not zero, the cashflow cells of the two
    tables are finite and the discounted one is the undiscounted one over
    (1 + discountRate)^year. *)
Theorem X6_discounted_cashflow_is_cashflow_over_factor inputs sc :
  build inputs = Ok sc ->
  forall y r tariff,
    1 <= y <= v_study_period (self sc) ->
    (v_loan_period (self sc) < inject_Z y)%Q ->
    ~ (1 + v_discount_rate (self sc) == 0)%Q ->
    loc (cashflow sc) y = Ok r ->
    Cash.combined_tariff r = Fin tariff ->
    exists rd x xd,
      loc (discounted_cashflow sc) y = Ok rd /\
      Cash.cashflow r = Fin x /\
      Cash.cashflow rd = Fin xd /\
      (xd == x / (1 + v_discount_rate (self sc)) ^ y)%Q.
Proof.
  intros H y r tariff Hy Hlp Hd Hr Ht.
  destruct (cashflow_rows _ _ H) as [_ Hc].
  destruct (Hc y Hy) as (e & b & He & _ & Hrow).
  destruct (discounted_rows _ _ H y Hy) as (r' & before & Hr' & _ & Hrd).
  rewrite Hr in Hr'. inversion Hr'; subst r'. clear Hr'.
  assert (Hpv : exists pv, Annual.enPV_total e = Fin pv).
  { destruct (built_annual_cells _ _ y H Hy)
      as (e' & ld & pv & sc_ & im & ex & He' & _ & Hpv & _).
    rewrite He in He'. inversion He'; subst e'. eauto. }
  destruct Hpv as [pv Hpv].
  assert (E : Qle_bool (inject_Z y) (v_loan_period (self sc)) = false).
  { destruct (Qle_bool (inject_Z y) (v_loan_period (self sc))) eqn:E;
      [|reflexivity].
    apply Qle_bool_iff in E. lra. }
  assert (Hpow : ~ ((1 + v_discount_rate (self sc)) ^ y == 0)%Q)
    by (now apply Qpower_not_0).
  assert (E0 : Qeq_bool ((1 + v_discount_rate (self sc)) ^ y) 0 = false).
  { destruct (Qeq_bool ((1 + v_discount_rate (self sc)) ^ y) 0) eqn:E0;
      [|reflexivity].
    apply Qeq_bool_iff in E0. contradiction. }
  rewrite Hrow in Hr. inversion Hr as [Hreq]. clear Hr. subst r.
  eexists. eexists. eexists. split; [exact Hrd|].
  unfold discounted_row, cashflow_row in *. simpl in *.
  rewrite E. rewrite Ht. rewrite Hpv. simpl. rewrite E0. simpl.
  split; [reflexivity|]. split; [reflexivity|].
  field. exact Hpow.
Qed.

(** X7. The annual totals keep the energy balance: in every year of a built
    scenario the five annual energy cells are finite numbers (in MWh), the
    annual load is the annual self-consumption plus the annual grid import,
    and, when the specific-yield series has a value for every hour of the
    load, the annual PV energy is the annual self-consumption plus the annual
    grid export. *)
Theorem X7_annual_energy_conservation inputs sc :
  build inputs = Ok sc ->
  forall y, 1 <= y <= v_study_period (self sc) ->
    exists e ld pv sc_ im ex,
      loc (energy_balance_summary sc) y = Ok e /\
      Annual.enLoad e = Fin ld /\ Annual.enPV_total e = Fin pv /\
      Annual.enPV_self_cons e = Fin sc_ /\
      Annual.enGrid_import e = Fin im /\ Annual.enGrid_export e = Fin ex /\
      (ld == sc_ + im)%Q /\
      ((List.length (v_load (self sc))
        <= List.length (v_ref_specific_yield (self sc)))%nat ->
       (pv == sc_ + ex)%Q).
Proof.
  intros H y Hy.
  destruct (built_annual_cells _ _ y H Hy)
    as (e & ld & pv & sc_ & im & ex & He & H1 & H2 & H3 & H4 & H5 & HL & _ & _ & HP).
  exists e, ld, pv, sc_, im, ex. auto 10.
Qed.

(** X8. In no hour of a built scenario is energy both imported and
    exported: every frame has one row per hour of the load, and in every row
    grid import or grid export is exactly 0.  At an hour for which the
    specific-yield series has a value both are numbers that are not
    negative; at an hour it does not reach, PV production and grid export
    are missing, nothing is imported and the self-consumption is the load. *)
Theorem X8_never_import_and_export inputs sc :
  build inputs = Ok sc ->
  forall y hours,
    loc (energy_balance sc) y = Ok hours ->
    List.length hours = List.length (v_load (self sc)) /\
    forall h row, nth_error hours h = Some row ->
      (Hourly.enGrid_import row = Fin 0 \/ Hourly.enGrid_export row = Fin 0) /\
      match nth_error (v_ref_specific_yield (self sc)) h with
      | Some _ =>
          exists im ex,
            Hourly.enGrid_import row = Fin im /\
            Hourly.enGrid_export row = Fin ex /\
            (0 <= im)%Q /\ (0 <= ex)%Q
      | None =>
          Hourly.enPV_total row = NaN /\ Hourly.enGrid_export row = NaN /\
          Hourly.enGrid_import row = Fin 0 /\
          Hourly.enPV_self_cons row = Hourly.enLoad row
      end.
Proof.
  intros H y hours Hh.
  destruct (Scenario_init_inv _ _ _ _ H) as (_ & Heb & _).
  rewrite Heb in Hh. apply energy_balance_loc_inv in Hh.
  destruct Hh as [Hy ->]. split; [apply year_data_length|].
  intros h row Hrow.
  destruct (year_data_row_cases _ _ _ _ Hrow) as [ld [Hld Hcase]].
  destruct (nth_error (v_ref_specific_yield (self sc)) h) as [sy|];
    subst row; unfold hour_row; simpl.
  - destruct (Qltb _ ld) eqn:E;
      [apply Qltb_true in E | apply Qltb_false in E]; simpl.
    + split; [now right|]. do 2 eexists.
      split; [reflexivity|]. split; [reflexivity|]. split; lra.
    + split; [now left|]. do 2 eexists.
      split; [reflexivity|]. split; [reflexivity|]. split; lra.
  - split; [now left|]. auto.
Qed.

End EngineRows.

(** * Further properties of the numeric primitives *)

(** Rounding to the nearest integer moves a number by at most one half,
    leaves integers where they are and sends a tie to the even neighbour. *)
Lemma round_half_even_spec (q : Q) :
  (- (1 # 2) <= inject_Z (round_half_even q) - q <= 1 # 2)%Q /\
  (forall z, q = inject_Z z -> round_half_even q = z) /\
  ((q - inject_Z (Qfloor q) == 1 # 2)%Q -> Z.even (round_half_even q) = true).
Proof.
  pose proof (Qfloor_le q) as Hlo. pose proof (Qlt_floor q) as Hhi.
  rewrite inject_Z_plus in Hhi. change (inject_Z 1) with 1%Q in Hhi.
  split; [|split].
  - unfold round_half_even.
    destruct ((q - inject_Z (Qfloor q)) ?= (1 # 2))%Q eqn:C.
    + apply Qeq_alt in C.
      destruct (Z.even (Qfloor q)).
      * remember (inject_Z (Qfloor q)) as f in *. clear Heqf. lra.
      * rewrite inject_Z_plus. change (inject_Z 1) with 1%Q.
        remember (inject_Z (Qfloor q)) as f in *. clear Heqf. lra.
    + apply Qlt_alt in C.
      remember (inject_Z (Qfloor q)) as f in *. clear Heqf. lra.
    + apply Qgt_alt in C. rewrite inject_Z_plus.
      change (inject_Z 1) with 1%Q.
      remember (inject_Z (Qfloor q)) as f in *. clear Heqf. lra.
  - intros z ->. unfold round_half_even. rewrite Qfloor_Z.
    assert (C : ((inject_Z z - inject_Z z) ?= (1 # 2))%Q = Lt).
    { apply (proj1 (Qlt_alt _ _)). clear Hlo Hhi.
      remember (inject_Z z) as f. clear Heqf. lra. }
    now rewrite C.
  - intros Htie. unfold round_half_even.
    assert (C : ((q - inject_Z (Qfloor q)) ?= (1 # 2))%Q = Eq)
      by (apply (proj1 (Qeq_alt _ _)); exact Htie).
    rewrite C. destruct (Z.even (Qfloor q)) eqn:E; [exact E|].
    rewrite Z.even_add, E. reflexivity.
Qed.

Lemma py_range_nth lo hi n :
  (n < Z.to_nat (hi - lo))%nat ->
  nth_error (py_range lo hi) n = Some (lo + Z.of_nat n).
Proof.
  revert lo. induction n as [|n IH]; intros lo H.
  - rewrite py_range_cons by lia. simpl. f_equal. lia.
  - rewrite py_range_cons by lia. simpl. rewrite IH by lia. f_equal. lia.
Qed.

(** The point of [np.linspace] at position [i]. *)
Definition linspace_point (start stop : Q) (num i : Z) : Q :=
  if 0 <? num - 1 then
    if i =? num - 1 then stop
    else (inject_Z i * ((stop - start) / inject_Z (num - 1)) + start)%Q
  else (inject_Z i * (stop - start) + start)%Q.

Lemma linspace_nth start stop num g i :
  linspace start stop num = Ok g -> 0 <= i < num ->
  nth_error g (Z.to_nat i) = Some (linspace_point start stop num i).
Proof.
  unfold linspace. destruct (num <? 0); [discriminate|].
  intros H Hi. inversion H; subst g. clear H.
  rewrite nth_error_map, py_range_nth by lia. simpl.
  unfold linspace_point. now rewrite Z2Nat.id by lia.
Qed.

Lemma linspace_point_increasing start stop num i j :
  (start < stop)%Q -> 0 <= i -> i < j -> j < num ->
  (linspace_point start stop num i < linspace_point start stop num j)%Q.
Proof.
  intros Hlt Hi Hij Hj. unfold linspace_point.
  destruct (0 <? num - 1) eqn:E; [|apply Z.ltb_ge in E; lia].
  destruct (i =? num - 1) eqn:Ei; [apply Z.eqb_eq in Ei; lia|].
  assert (Hdiv : (0 < inject_Z (num - 1))%Q).
  { change 0%Q with (inject_Z 0). rewrite <- Zlt_Qlt. lia. }
  assert (Hstep : (0 < (stop - start) / inject_Z (num - 1))%Q).
  { apply Qlt_shift_div_l; [exact Hdiv | lra]. }
  assert (Hfull : (inject_Z (num - 1) * ((stop - start) / inject_Z (num - 1))
                   == stop - start)%Q).
  { field. lra. }
  set (step := ((stop - start) / inject_Z (num - 1))%Q) in *.
  assert (Hmul : forall a b : Z, a < b ->
            (inject_Z a * step < inject_Z b * step)%Q).
  { intros a b Hab. apply Qmult_lt_compat_r; [exact Hstep|].
    rewrite <- Zlt_Qlt. exact Hab. }
  destruct (j =? num - 1) eqn:Ej.
  - apply Z.eqb_eq in Ej.
    pose proof (Hmul i (num - 1) ltac:(lia)). lra.
  - pose proof (Hmul i j Hij). lra.
Qed.

(** [np.linspace(start, stop, num)] rejects a negative number of
    points; otherwise it returns exactly [num] points, the first one [start]
    and, from two points on, the last one [stop] itself; with [start < stop]
    the points are strictly increasing. *)
Lemma linspace_spec start stop num :
  (num < 0 -> linspace start stop num = Raise ValueError) /\
  (0 <= num ->
   exists g,
     linspace start stop num = Ok g /\
     List.length g = Z.to_nat num /\
     (1 <= num -> exists first, hd_error g = Some first /\ (first == start)%Q) /\
     (2 <= num -> last g 0%Q = stop) /\
     ((start < stop)%Q ->
      forall i j x y, (i < j)%nat ->
        nth_error g i = Some x -> nth_error g j = Some y -> (x < y)%Q)).
Proof.
  split.
  - intros H. unfold linspace.
    destruct (num <? 0) eqn:E; [reflexivity | apply Z.ltb_ge in E; lia].
  - intros H. destruct (linspace start stop num) as [g|e] eqn:Hg.
    2:{ unfold linspace in Hg. destruct (num <? 0) eqn:E; [|discriminate].
        apply Z.ltb_lt in E. lia. }
    assert (Hlen : List.length g = Z.to_nat num).
    { unfold linspace in Hg. destruct (num <? 0); [discriminate|].
      inversion Hg. now rewrite length_map, py_range_length, Z.sub_0_r. }
    exists g. split; [reflexivity|]. split; [exact Hlen|]. split; [|split].
    + intros H1. pose proof (linspace_nth _ _ _ _ 0 Hg ltac:(lia)) as H0.
      simpl in H0. destruct g as [|a g]; [discriminate|]. inversion H0.
      eexists. split; [reflexivity|]. unfold linspace_point.
      destruct (0 <? num - 1) eqn:E1; [|ring]. apply Z.ltb_lt in E1.
      destruct (0 =? num - 1) eqn:E; [apply Z.eqb_eq in E; lia | ring].
    + intros H2.
      pose proof (linspace_nth _ _ _ _ (num - 1) Hg ltac:(lia)) as Hn.
      unfold linspace_point in Hn.
      destruct (0 <? num - 1) eqn:E; [|apply Z.ltb_ge in E; lia].
      rewrite Z.eqb_refl in Hn.
      replace (Z.to_nat (num - 1)) with (List.length g - 1)%nat in Hn by lia.
      destruct g as [|a g] using rev_ind; [simpl in Hlen; lia|].
      rewrite last_last. rewrite length_app in Hn. simpl in Hn.
      rewrite nth_error_app2 in Hn by lia.
      replace (List.length g + 1 - 1 - List.length g)%nat with 0%nat in Hn by lia.
      simpl in Hn. now inversion Hn.
    + intros Hlt i j x y Hij Hx Hy.
      assert (Hj : (j < List.length g)%nat)
        by (apply nth_error_Some; congruence).
      rewrite <- (Nat2Z.id i) in Hx. rewrite <- (Nat2Z.id j) in Hy.
      rewrite (linspace_nth _ _ _ _ _ Hg) in Hx by lia.
      rewrite (linspace_nth _ _ _ _ _ Hg) in Hy by lia.
      inversion Hx. inversion Hy.
      apply linspace_point_increasing; auto; lia.
Qed.

(** * The capacity grid *)

(** An instance of [math.log10] for evaluating log-scale grids: the integer
    part of the logarithm, which is the logarithm itself on the powers of
    ten. *)
Fixpoint log10_floor (fuel : nat) (n : Z) : Z :=
  match fuel with
  | O => 0
  | S fuel' => if n <? 10 then 0 else 1 + log10_floor fuel' (n / 10)
  end.

Definition floor_log10 (x : Q) : Q :=
  inject_Z (log10_floor (Z.to_nat (Qfloor x)) (Qfloor x)).

Section CapacityGrid.

Variable float_pow : Q -> Q -> F.
Variable math_log10 : Q -> Q.

Lemma py_pow_ten_zero e : (e == 0)%Q -> py_pow float_pow 10 e = Fin 1.
Proof.
  intros He. unfold py_pow, Q_is_integral.
  assert (Hf : Qfloor e = 0) by (rewrite He; reflexivity).
  rewrite Hf.
  assert (Hi : Qeq_bool e (inject_Z 0) = true) by (apply Qeq_bool_iff; exact He).
  rewrite Hi. reflexivity.
Qed.

(** The points of [np.linspace] are equally spaced. *)
Lemma linspace_point_spacing start stop num i :
  0 <= i < num ->
  ((linspace_point start stop num i - start) * inject_Z (num - 1)
   == inject_Z i * (stop - start))%Q.
Proof.
  intros Hi. unfold linspace_point.
  destruct (0 <? num - 1) eqn:E.
  - apply Z.ltb_lt in E. destruct (i =? num - 1) eqn:Ei.
    + apply Z.eqb_eq in Ei. subst i. ring.
    + assert (Hd : ~ (inject_Z (num - 1) == 0)%Q).
      { change 0%Q with (inject_Z 0). intros H.
        apply (proj1 (inject_Z_injective _ _)) in H. lia. }
      field. exact Hd.
  - apply Z.ltb_ge in E. assert (num = 1) by lia. subst num.
    assert (i = 0) by lia. subst i. simpl. ring.
Qed.

Lemma linspace_total start stop num :
  0 <= num ->
  exists g,
    linspace start stop num = Ok g /\
    List.length g = Z.to_nat num /\
    (forall i, 0 <= i < num ->
       nth_error g (Z.to_nat i) = Some (linspace_point start stop num i)) /\
    (2 <= num -> last g 0%Q = stop).
Proof.
  intros H. destruct (proj2 (linspace_spec start stop num) H)
    as (g & Hg & Hlen & _ & Hlast & _).
  exists g. split; [exact Hg|]. split; [exact Hlen|].
  split; [|exact Hlast].
  intros i Hi. now apply linspace_nth.
Qed.

(** C5 (as the code behaves). With log scale requested and
    var_max > var_min, the capacity grid is ten to the power of the
    exponents np.linspace lays out, equally spaced, from 0 to
    log10(var_max - var_min): it has the requested number of elements; its
    first element is 1 whatever the requested minimum; with at least two
    steps its last element is 10 ** log10(var_max - var_min), which is
    var_max - var_min whenever the power undoes the logarithm there; with a
    single step the grid is the single element 1.  With log scale off the
    grid is np.linspace from var_min to var_max with the requested number of
    steps: equally spaced, starting at var_min and, from two steps on,
    ending at var_max. *)
Theorem C5_capacity_grid var_min var_max steps :
  ((var_min < var_max)%Q -> 0 <= steps ->
   exists exps g,
     linspace 0 (math_log10 (var_max - var_min)) steps = Ok exps /\
     PVSizing.generate_pv_range float_pow math_log10 var_min var_max steps
       true = Ok g /\
     g = map (py_pow float_pow 10) exps /\
     List.length g = Z.to_nat steps /\
     (forall i, 0 <= i < steps ->
        exists e,
          nth_error exps (Z.to_nat i) = Some e /\
          (e * inject_Z (steps - 1)
           == inject_Z i * math_log10 (var_max - var_min))%Q) /\
     (1 <= steps -> hd_error g = Some (Fin 1)) /\
     (2 <= steps ->
      last g NaN = py_pow float_pow 10 (math_log10 (var_max - var_min)) /\
      (py_pow float_pow 10 (math_log10 (var_max - var_min))
         =F= Fin (var_max - var_min) ->
       last g NaN =F= Fin (var_max - var_min))) /\
     (steps = 1 -> g = [Fin 1])) /\
  (0 <= steps ->
   exists g,
     linspace var_min var_max steps = Ok g /\
     PVSizing.generate_pv_range float_pow math_log10 var_min var_max steps
       false = Ok (map Fin g) /\
     List.length g = Z.to_nat steps /\
     (forall i, 0 <= i < steps ->
        exists c,
          nth_error g (Z.to_nat i) = Some c /\
          ((c - var_min) * inject_Z (steps - 1)
           == inject_Z i * (var_max - var_min))%Q) /\
     (1 <= steps ->
      exists first, hd_error g = Some first /\ (first == var_min)%Q) /\
     (2 <= steps -> last g 0%Q = var_max)).
Proof.
  split.
  - intros Hlt Hs.
    set (ld := math_log10 (var_max - var_min)).
    destruct (linspace_total 0 ld steps Hs) as (exps & He & Hlen & Hnth & Hlast).
    exists exps, (map (py_pow float_pow 10) exps).
    split; [exact He|]. split.
    { unfold PVSizing.generate_pv_range.
      assert (E : Qle_bool (var_max - var_min) 0 = false).
      { destruct (Qle_bool (var_max - var_min) 0) eqn:E; [|reflexivity].
        apply Qle_bool_iff in E. lra. }
      rewrite E. unfold PVSizing.logspace. fold ld. now rewrite He. }
    split; [reflexivity|]. split; [now rewrite length_map|].
    assert (Hexp : forall i, 0 <= i < steps ->
              exists e, nth_error exps (Z.to_nat i) = Some e /\
                        (e * inject_Z (steps - 1) == inject_Z i * ld)%Q).
    { intros i Hi. eexists. split; [apply (Hnth i Hi)|].
      pose proof (linspace_point_spacing 0 ld steps i Hi) as Hsp.
      rewrite <- (Qplus_0_r (linspace_point 0 ld steps i)).
      setoid_replace (inject_Z i * ld)%Q with (inject_Z i * (ld - 0))%Q
        by ring.
      rewrite <- Hsp. ring. }
    split; [exact Hexp|].
    assert (Hfirst : 1 <= steps ->
              hd_error (map (py_pow float_pow 10) exps) = Some (Fin 1)).
    { intros H1. destruct (Hexp 0) as [e [Hn Hq]]; [lia|].
      simpl in Hn. destruct exps as [|e0 exps']; [discriminate|].
      inversion Hn; subst e0. simpl. f_equal. apply py_pow_ten_zero.
      destruct (Z.eq_dec steps 1) as [->|Hne].
      - pose proof (Hnth 0 ltac:(lia)) as Hp. simpl in Hp.
        inversion Hp. unfold linspace_point. simpl. ring.
      - assert (Hd : ~ (inject_Z (steps - 1) == 0)%Q).
        { change 0%Q with (inject_Z 0). intros H.
          apply (proj1 (inject_Z_injective _ _)) in H. lia. }
        change (inject_Z 0) with 0%Q in Hq.
        setoid_replace e with (e * inject_Z (steps - 1) / inject_Z (steps - 1))%Q
          by (field; exact Hd).
        rewrite Hq. field. exact Hd. }
    split; [exact Hfirst|]. split.
    + intros H2.
      assert (Hl : last (map (py_pow float_pow 10) exps) NaN
                   = py_pow float_pow 10 ld).
      { rewrite last_map_nonempty with (d := 0%Q).
        - now rewrite (Hlast H2).
        - destruct exps; [simpl in Hlen; lia | discriminate]. }
      split; [exact Hl|]. intros Hinv. now rewrite Hl.
    + intros ->. specialize (Hfirst ltac:(lia)).
      destruct exps as [|e0 [|e1 exps']]; simpl in Hlen; try discriminate.
      simpl in *. now inversion Hfirst.
  - intros Hs.
    destruct (linspace_total var_min var_max steps Hs)
      as (g & Hg & Hlen & Hnth & Hlast).
    destruct (proj2 (linspace_spec var_min var_max steps) Hs)
      as (g' & Hg' & _ & Hfirst & _).
    rewrite Hg in Hg'. inversion Hg'; subst g'.
    exists g. split; [exact Hg|]. split.
    { unfold PVSizing.generate_pv_range. now rewrite Hg. }
    split; [exact Hlen|]. split; [|split; [exact Hfirst | exact Hlast]].
    intros i Hi. eexists. split; [apply (Hnth i Hi)|].
    apply linspace_point_spacing. exact Hi.
Qed.

(** A single step of a log-scale grid is the capacity 1. *)
Lemma single_step_grid var_min var_max :
  (var_min < var_max)%Q ->
  PVSizing.generate_pv_range float_pow math_log10 var_min var_max 1 true
  = Ok [Fin 1].
Proof.
  intros Hlt. unfold PVSizing.generate_pv_range.
  assert (E : Qle_bool (var_max - var_min) 0 = false).
  { destruct (Qle_bool (var_max - var_min) 0) eqn:E; [|reflexivity].
    apply Qle_bool_iff in E. lra. }
  rewrite E. reflexivity.
Qed.

End CapacityGrid.

Lemma C5_capacity_grid_witness :
  (0 < 100)%Q /\ 0 <= 3 /\
  exists exps g,
    linspace 0 (floor_log10 (100 - 0)) 3 = Ok exps /\
    PVSizing.generate_pv_range no_float_pow floor_log10 0 100 3 true = Ok g /\
    g = map (py_pow no_float_pow 10) exps /\
    List.length g = 3%nat /\
    hd_error g = Some (Fin 1) /\
    last g NaN =F= Fin (100 - 0).
Proof.
  assert (H : (0 < 100)%Q) by reflexivity.
  split; [exact H|]. split; [lia|].
  destruct (proj1 (C5_capacity_grid no_float_pow floor_log10 0 100 3) H)
    as (exps & g & He & Hg & Hmap & Hlen & _ & Hfirst & Hlast & _); [lia|].
  exists exps, g. split; [exact He|]. split; [exact Hg|].
  split; [exact Hmap|]. split; [exact Hlen|].
  split; [apply Hfirst; lia|].
  apply (proj2 (Hlast ltac:(lia))). vm_compute. reflexivity.
Defined.

(** C5, as stated, fails: a log-scale sweep from 0 to 100 with a single step
    has the grid [[1]], whose last element is 1 and not var_max - var_min. *)
Lemma C5_single_step_counterexample :
  (100 > 0 + 1)%Q /\
  exists g,
    PVSizing.generate_pv_range no_float_pow floor_log10 0 100 1 true = Ok g /\
    last g NaN = Fin 1 /\
    ~ (last g NaN =F= Fin (100 - 0)).
Proof.
  split; [reflexivity|]. exists [Fin 1].
  split; [apply single_step_grid; reflexivity|].
  split; [reflexivity|]. simpl. intros H. discriminate H.
Qed.

(** * Further properties of the capacity sweep *)

Lemma dict_set_length {V : Type} (d : dict Z V) k v :
  (List.length (dict_set Z.eqb d k v) <= S (List.length d))%nat.
Proof.
  induction d as [|[k' v'] d IH]; simpl; [lia|].
  destruct (k' =? k); simpl; lia.
Qed.

Lemma dict_key_has_value {V : Type} (d : dict Z V) k :
  In k (map fst d) -> exists v, In (k, v) d.
Proof.
  intros H. apply in_map_iff in H. destruct H as [[k' v] [E H]].
  simpl in E. subst. eauto.
Qed.

(** What [highest_npv] returns when it returns: a scenario of the
    dictionary whose NPV is not NaN and at least every NPV that is not
    NaN. *)
Lemma highest_npv_sound (d : dict Z Scenario) best :
  NoDup (map fst d) -> keyed_by_capacity d ->
  PVSizing.highest_npv d (PVSizing.aggregate_data d) = Ok best ->
  exists k,
    In (k, best) d /\ is_nan (npv_of best) = false /\
    forall k' sc', In (k', sc') d -> is_nan (npv_of sc') = false ->
                   Fle (npv_of sc') (npv_of best).
Proof.
  intros Hnd Hkey H. unfold PVSizing.highest_npv, PVSizing.aggregate_data in H.
  destruct (map (fun ks : Z * Scenario => data (snd ks)) d) as [|r0 rs] eqn:Em;
    [discriminate|]. rewrite <- Em in H. clear Em r0 rs.
  rewrite map_map in H. unfold idxmax in H.
  set (series := map (fun ks : Z * Scenario =>
                        (fst (data (snd ks)), Summary.npv (snd (data (snd ks))))) d)
    in H.
  destruct (idx_best (fun x y => Fltb y x) None series) as [[l x]|] eqn:Hbest;
    [|discriminate].
  simpl in H.
  destruct (idx_best_max None series l x) as (H1 & H2 & _ & H4);
    [discriminate | exact Hbest |].
  destruct H1 as [H1|H1]; [discriminate|].
  apply in_map_iff in H1. destruct H1 as [[k sc] [E Hin]].
  inversion E; subst l x. simpl in *.
  rewrite (dict_get_In d k sc) in H by auto.
  inversion H; subst best. exists k. split; [exact Hin|]. split; [exact H2|].
  intros k' sc' Hin' Hn'. apply (H4 (fst (data sc')) (npv_of sc')); auto.
  apply in_map_iff. exists (k', sc'). auto.
Qed.

Section SweepMore.

Variable npf_irr : list F -> result F.
Variable float_pow : Q -> Q -> F.
Variable math_log10 : Q -> Q.

Local Abbreviation build := (Scenario_init npf_irr float_pow).
Local Abbreviation run_loop := (PVSizing.run_loop npf_irr float_pow).
Local Abbreviation run_pv_sensitivity :=
  (PVSizing.run_pv_sensitivity npf_irr float_pow).
Local Abbreviation sweep := (PVSizing.init npf_irr float_pow math_log10).

Lemma run_loop_covers pv_range d0 i0 d i' :
  run_loop pv_range d0 i0 = (Ok d, i') ->
  (forall k, In k (map fst d0) -> In k (map fst d)) /\
  (forall capacity, In capacity pv_range ->
     exists k, py_round capacity = Ok k /\ In k (map fst d)) /\
  (List.length d <= List.length d0 + List.length pv_range)%nat.
Proof.
  revert d0 i0. induction pv_range as [|capacity rest IH]; intros d0 i0 H.
  - simpl in H. inversion H; subst. split; [auto|]. split.
    + intros capacity [].
    + simpl. lia.
  - simpl in H. destruct (py_round capacity) as [c|e] eqn:Hc; [|discriminate].
    destruct (build (set_pv_capacity (VInt c) i0)) as [sc0|e] eqn:Hb;
      [|discriminate].
    destruct (IH _ _ H) as (Hkeep & Hcov & Hlen). split; [|split].
    + intros k Hk. apply Hkeep. apply dict_set_keys. now right.
    + intros cap [<-|Hin]; [|now apply Hcov].
      exists c. split; [exact Hc|]. apply Hkeep. apply dict_set_keys. now left.
    + pose proof (dict_set_length d0 c sc0). simpl. lia.
Qed.

(** X11. The dictionary a completed sweep returns has one entry per rounded
    capacity: its keys are pairwise distinct, every scenario is stored under
    the capacity that indexes its summary row, every capacity of the grid has
    its rounded value among the keys, and there are at most as many entries
    as grid points (capacities that round to the same integer share one
    entry). *)
Theorem X11_sweep_dictionary pv_range inputs d inputs' :
  run_pv_sensitivity pv_range inputs = (Ok d, inputs') ->
  NoDup (map fst d) /\
  keyed_by_capacity d /\
  (forall capacity, In capacity pv_range ->
     exists k sc, py_round capacity = Ok k /\ In (k, sc) d) /\
  (List.length d <= List.length pv_range)%nat.
Proof.
  intros H. unfold PVSizing.run_pv_sensitivity in H.
  destruct (run_loop_keys _ _ _ _ _ _ _ H) as [Hnd Hkey];
    [constructor | intros k sc [] |].
  destruct (run_loop_covers _ _ _ _ _ H) as (_ & Hcov & Hlen).
  split; [exact Hnd|]. split; [exact Hkey|]. split; [|exact Hlen].
  intros capacity Hin. destruct (Hcov capacity Hin) as (k & Hk & Hkeys).
  destruct (dict_key_has_value _ _ Hkeys) as [sc Hsc]. eauto.
Qed.

Lemma run_loop_raise pv_range d0 i0 e i' :
  run_loop pv_range d0 i0 = (Raise e, i') ->
  i' = i0 \/
  exists capacity k,
    In capacity pv_range /\ py_round capacity = Ok k /\
    i' = set_pv_capacity (VInt k) i0.
Proof.
  revert d0 i0. induction pv_range as [|capacity rest IH]; intros d0 i0 H.
  - discriminate.
  - simpl in H. destruct (py_round capacity) as [c|e0] eqn:Hc.
    2:{ inversion H. now left. }
    destruct (build (set_pv_capacity (VInt c) i0)) as [sc0|e0] eqn:Hb.
    + destruct (IH _ _ H) as [->|(cap & k & Hin & Hk & ->)].
      * right. exists capacity, c. simpl. auto.
      * right. exists cap, k. simpl. auto.
    + inversion H. right. exists capacity, c. simpl. auto.
Qed.

(** X12. A sweep that raises leaves its mark on the inputs object: when
    [run_pv_sensitivity] raises, the inputs object is either untouched or has
    its PV capacity overwritten by the rounded value of a capacity of the
    grid (nothing is restored); when the build of the first capacity raises,
    the sweep raises that error with the PV capacity set to the rounded first
    capacity. *)
Theorem X12_failed_sweep_keeps_mutation pv_range inputs :
  (forall e inputs',
     run_pv_sensitivity pv_range inputs = (Raise e, inputs') ->
     inputs' = inputs \/
     exists capacity k,
       In capacity pv_range /\ py_round capacity = Ok k /\
       inputs' = set_pv_capacity (VInt k) inputs) /\
  (forall capacity rest k e,
     pv_range = capacity :: rest -> py_round capacity = Ok k ->
     build (set_pv_capacity (VInt k) inputs) = Raise e ->
     run_pv_sensitivity pv_range inputs
     = (Raise e, set_pv_capacity (VInt k) inputs)).
Proof.
  split.
  - intros e inputs' H. exact (run_loop_raise _ _ _ _ _ H).
  - intros capacity rest k e -> Hk Hb.
    unfold PVSizing.run_pv_sensitivity. simpl. now rewrite Hk, Hb.
Qed.

(** X13. A capacity sweep that completes: its grid is the generated one,
    its aggregate table lists the summary rows of its scenarios in dictionary
    order, its best result is a scenario of the sweep whose NPV is not NaN
    and at least every NPV that is not NaN, and on a non-empty grid the
    inputs object comes back with its PV capacity set to the rounded last
    capacity. *)
Theorem X13_completed_sweep inputs var_min var_max steps log_scale sz inputs' :
  sweep inputs var_min var_max steps log_scale = (Ok sz, inputs') ->
  PVSizing.generate_pv_range float_pow math_log10 var_min var_max steps
    log_scale = Ok (PVSizing.pv_range sz) /\
  PVSizing.log_scale sz = log_scale /\
  PVSizing.data sz = map (fun ks => data (snd ks)) (PVSizing.scenario sz) /\
  (exists k,
     In (k, PVSizing.best_result sz) (PVSizing.scenario sz) /\
     is_nan (npv_of (PVSizing.best_result sz)) = false /\
     forall k' sc', In (k', sc') (PVSizing.scenario sz) ->
                    is_nan (npv_of sc') = false ->
                    Fle (npv_of sc') (npv_of (PVSizing.best_result sz))) /\
  (PVSizing.pv_range sz <> [] ->
   exists c, py_round (last (PVSizing.pv_range sz) NaN) = Ok c /\
             inputs' = set_pv_capacity (VInt c) inputs).
Proof.
  unfold PVSizing.init. intros H.
  destruct (PVSizing.generate_pv_range float_pow math_log10 var_min var_max
              steps log_scale) as [grid|e] eqn:Hg; [|discriminate].
  destruct (run_pv_sensitivity grid inputs) as [[d|e] i1] eqn:Hr;
    [|discriminate].
  destruct (PVSizing.highest_npv d (PVSizing.aggregate_data d))
    as [best|e] eqn:Hb; [|discriminate].
  inversion H; subst sz inputs'. simpl. clear H.
  pose proof Hr as Hr'. unfold PVSizing.run_pv_sensitivity in Hr'.
  destruct (run_loop_keys _ _ _ _ _ _ _ Hr') as [Hnd Hkey];
    [constructor | intros k sc [] |].
  repeat split; auto.
  - exact (highest_npv_sound d best Hnd Hkey Hb).
  - intros Hne. destruct (run_loop_spec _ _ _ _ _ _ _ Hr') as [Hi _].
    destruct grid; [congruence | exact Hi].
Qed.

(** X14. A sweep with no grid point raises KeyError (the aggregate table
    has no [npv] column) and leaves the inputs object untouched: this is
    what zero steps give on a linear scale, and on a log scale when
    var_max > var_min; a negative number of steps raises ValueError, and so
    does a log scale with var_max <= var_min. *)
Theorem X14_degenerate_grids inputs var_min var_max :
  PVSizing.init npf_irr float_pow math_log10 inputs var_min var_max 0 false
  = (Raise KeyError, inputs) /\
  ((var_min < var_max)%Q ->
   PVSizing.init npf_irr float_pow math_log10 inputs var_min var_max 0 true
   = (Raise KeyError, inputs)) /\
  (forall steps log_scale, steps < 0 ->
     ((var_min < var_max)%Q \/ log_scale = false) ->
     PVSizing.init npf_irr float_pow math_log10 inputs var_min var_max steps
       log_scale
     = (Raise ValueError, inputs)) /\
  (forall steps, (var_max <= var_min)%Q ->
     PVSizing.init npf_irr float_pow math_log10 inputs var_min var_max steps
       true
     = (Raise ValueError, inputs)).
Proof.
  assert (Hpos : (var_min < var_max)%Q ->
                 Qle_bool (var_max - var_min) 0 = false).
  { intros H. destruct (Qle_bool (var_max - var_min) 0) eqn:E; [|reflexivity].
    apply Qle_bool_iff in E. lra. }
  split; [reflexivity|]. split; [|split].
  - intros H. unfold PVSizing.init, PVSizing.generate_pv_range.
    now rewrite (Hpos H).
  - intros steps log_scale Hs Hcase.
    unfold PVSizing.init, PVSizing.generate_pv_range, PVSizing.logspace,
      linspace.
    assert (E : (steps <? 0) = true) by now apply Z.ltb_lt.
    destruct log_scale.
    + destruct Hcase as [H|H]; [|discriminate].
      rewrite (Hpos H), E. reflexivity.
    + rewrite E. reflexivity.
  - intros steps H. unfold PVSizing.init, PVSizing.generate_pv_range.
    assert (E : Qle_bool (var_max - var_min) 0 = true)
      by (apply Qle_bool_iff; lra).
    now rewrite E.
Qed.

End SweepMore.

(** * Further properties of the sensitivity sweep *)

Lemma linspace_nonempty start stop num :
  1 <= num -> exists x xs, linspace start stop num = Ok (x :: xs).
Proof.
  intros H. unfold linspace.
  destruct (num <? 0) eqn:E; [apply Z.ltb_lt in E; lia|].
  rewrite py_range_cons by lia. simpl. eauto.
Qed.

Local Open Scope string_scope.

Section SensitivityMore.

Variable npf_irr : list F -> result F.
Variable float_pow : Q -> Q -> F.
Variable math_log10 : Q -> Q.

Lemma build_with_float_study_period inputs s v c :
  values_of inputs = Ok s ->
  Scenario_init npf_irr float_pow
    (set_pv_capacity c (set_field_value "study_period" (VFloat v) inputs))
  = Raise TypeError.
Proof.
  intros Hv. unfold values_of in Hv. inv_bind Hv. inv_bind Hv. clear Hv.
  unfold Scenario_init, values_of. simpl.
  rewrite Ha. simpl. rewrite Ha0. reflexivity.
Qed.

(** X15. A sensitivity sweep over the study period cannot run: the values
    of the secondary variable are assigned as floats, and the engine needs an
    integer study period for its [range].  With inputs that build as they
    are, at least one value of the variable and a linear capacity grid of at
    least one point, the sweep raises TypeError at its first scenario. *)
Theorem X15_study_period_sensitivity_raises inputs s var_min var_max steps
    pv_var_min pv_var_max pv_steps :
  values_of inputs = Ok s -> 1 <= steps -> 1 <= pv_steps ->
  fst (Sensitivity.init npf_irr float_pow math_log10 inputs "study_period"
         var_min var_max steps pv_var_min pv_var_max pv_steps false)
  = Raise TypeError.
Proof.
  intros Hv Hs Hp. unfold Sensitivity.init.
  destruct (linspace_nonempty var_min var_max steps Hs) as (v0 & vs & ->).
  unfold Sensitivity.run_sensitivity, fields. simpl Sensitivity.field_loop.
  unfold PVSizing.init at 1, PVSizing.generate_pv_range.
  destruct (linspace_nonempty pv_var_min pv_var_max pv_steps Hp)
    as (c0 & cs & ->).
  simpl bind. unfold PVSizing.run_pv_sensitivity. simpl map.
  simpl PVSizing.run_loop.
  rewrite (build_with_float_study_period inputs s _ _ Hv). reflexivity.
Qed.

End SensitivityMore.

Local Close Scope string_scope.

(** * Further properties: yield normaliser, interpolation, payback period *)

(** X17. The yield normaliser rejects a reference-yield series whose length
    differs from the load's with ValueError.  Otherwise it returns the load
    unchanged and one row per hour in which the reference yield is clipped at
    zero, the final yield is the clipped yield times (1 - losses), and the
    specific yield is the final yield over the reference capacity: a finite
    number when that capacity is not zero, NaN or an infinity when it is. *)
Theorem X17_yield_normaliser load e_grid ref_capacity postproc_losses :
  (List.length e_grid <> List.length load ->
   Normaliser._format_file_inputs load e_grid ref_capacity postproc_losses
   = Raise ValueError) /\
  (List.length e_grid = List.length load ->
   exists rows,
     Normaliser._format_file_inputs load e_grid ref_capacity postproc_losses
     = Ok (load, rows) /\
     List.length rows = List.length load /\
     forall h row, nth_error rows h = Some row ->
       exists e,
         nth_error e_grid h = Some e /\
         (Normaliser.E_Grid row == Qmax e 0)%Q /\
         (Normaliser.enPV_ref row
            == Normaliser.E_Grid row * (1 - postproc_losses))%Q /\
         (~ (ref_capacity == 0)%Q ->
          Normaliser.SY row
            =F= Fin (Qmax e 0 * (1 - postproc_losses) / ref_capacity)) /\
         ((ref_capacity == 0)%Q -> is_finite (Normaliser.SY row) = false)).
Proof.
  unfold Normaliser._format_file_inputs. split; intros Hlen.
  - apply Nat.eqb_neq in Hlen. now rewrite Hlen.
  - rewrite (proj2 (Nat.eqb_eq _ _) Hlen). simpl.
    eexists. split; [reflexivity|]. split; [now rewrite length_map|].
    intros h row Hrow. rewrite nth_error_map in Hrow.
    destruct (nth_error e_grid h) as [e|]; [|discriminate].
    simpl in Hrow. inversion Hrow; subst row. clear Hrow. simpl.
    exists e. split; [reflexivity|].
    assert (Hclip : ((if Qltb e 0 then 0 else e) == Qmax e 0)%Q).
    { destruct (Qltb e 0) eqn:E.
      - apply Qltb_true in E. rewrite Q.max_r by lra. reflexivity.
      - apply Qltb_false in E. rewrite Q.max_l by lra. reflexivity. }
    split; [exact Hclip|]. split; [reflexivity|]. split.
    + intros Hcap.
      destruct (Qeq_bool ref_capacity 0) eqn:E;
        [apply Qeq_bool_iff in E; contradiction|].
      simpl. rewrite Hclip. reflexivity.
    + intros Hcap.
      assert (E : Qeq_bool ref_capacity 0 = true) by now apply Qeq_bool_iff.
      rewrite E. now destruct (_ ?= 0)%Q.
Qed.

Lemma interpolate_from_length prev pending l :
  List.length (interpolate_from prev pending l)
  = (pending + List.length l)%nat.
Proof.
  revert prev pending. induction l as [|x l IH]; intros prev pending; simpl.
  - destruct prev; rewrite repeat_length; lia.
  - destruct (is_nan x).
    + rewrite IH. lia.
    + rewrite length_app. simpl. rewrite IH.
      destruct prev; [unfold fill_gap; rewrite length_map, length_seq
                     | rewrite repeat_length]; lia.
Qed.

Lemma interpolate_from_known prev pending l i x :
  nth_error l i = Some x -> is_nan x = false ->
  nth_error (interpolate_from prev pending l) (pending + i) = Some x.
Proof.
  revert prev pending i. induction l as [|y l IH]; intros prev pending i Hi Hx.
  - destruct i; discriminate.
  - simpl. destruct i as [|i]; simpl in Hi.
    + inversion Hi; subst y. rewrite Hx.
      assert (Hlen : List.length
                (match prev with
                 | Some p => fill_gap p x pending
                 | None => repeat NaN pending
                 end) = pending).
      { destruct prev; [unfold fill_gap; rewrite length_map, length_seq
                       | rewrite repeat_length]; reflexivity. }
      rewrite nth_error_app2 by lia. rewrite Hlen.
      replace (pending + 0 - pending)%nat with 0%nat by lia. reflexivity.
    + destruct (is_nan y).
      * replace (pending + S i)%nat with (S pending + i)%nat by lia.
        now apply IH.
      * assert (Hlen : List.length
                  (match prev with
                   | Some p => fill_gap p y pending
                   | None => repeat NaN pending
                   end) = pending).
        { destruct prev; [unfold fill_gap; rewrite length_map, length_seq
                         | rewrite repeat_length]; reflexivity. }
        rewrite nth_error_app2 by lia. rewrite Hlen.
        replace (pending + S i - pending)%nat with (S i) by lia. simpl.
        apply (IH (Some y) 0%nat i Hi Hx).
Qed.

(** Interpolating a series keeps its labels and its length and leaves
    every cell that is not missing as it is. *)
Lemma interpolate_keeps_known_cells (s : list (Q * F)) :
  map fst (interpolate s) = map fst s /\
  List.length (interpolate s) = List.length s /\
  forall i l x, nth_error s i = Some (l, x) -> is_nan x = false ->
                nth_error (interpolate s) i = Some (l, x).
Proof.
  unfold interpolate.
  assert (Hlen : List.length (interpolate_from None 0 (map snd s))
                 = List.length (map fst s)).
  { rewrite interpolate_from_length, !length_map. reflexivity. }
  split; [|split].
  - clear - Hlen. revert Hlen.
    generalize (interpolate_from None 0 (map snd s)).
    generalize (map fst s). intros a. induction a as [|x a IH]; intros [|y b];
      simpl; intros H; try reflexivity; try discriminate.
    f_equal. apply IH. lia.
  - rewrite length_combine, Hlen, length_map. lia.
  - intros i l x Hi Hx.
    assert (H1 : nth_error (map fst s) i = Some l)
      by (rewrite nth_error_map, Hi; reflexivity).
    assert (H2 : nth_error (interpolate_from None 0 (map snd s)) i = Some x).
    { apply (interpolate_from_known None 0 (map snd s) i x); [|exact Hx].
      rewrite nth_error_map, Hi. reflexivity. }
    clear - H1 H2. revert H1 H2.
    generalize (interpolate_from None 0 (map snd s)).
    generalize (map fst s). intros a. revert i.
    induction a as [|x0 a IH]; intros [|i] [|y b]; simpl; intros H1 H2;
      try discriminate.
    + now inversion H1; inversion H2.
    + now apply IH.
Qed.

Lemma idx_best_In {L : Type} (better : F -> F -> bool)
    (best : option (L * F)) (s : list (L * F)) r :
  idx_best better best s = Some r -> best = Some r \/ In r s.
Proof.
  revert best. induction s as [|[l0 x0] s IH]; simpl; intros best H; [auto|].
  destruct (is_nan x0).
  - destruct (IH _ H); auto.
  - destruct best as [[lb xb]|].
    + destruct (better x0 xb); destruct (IH _ H) as [E|E]; auto.
      inversion E. auto.
    + destruct (IH _ H) as [E|E]; auto. inversion E. auto.
Qed.

Lemma round_half_even_ge a q :
  (inject_Z a <= q)%Q -> a <= round_half_even q.
Proof.
  intros H. apply Qfloor_resp_le in H. rewrite Qfloor_Z in H.
  unfold round_half_even.
  destruct (_ ?= _)%Q; [destruct (Z.even (Qfloor q))| |]; lia.
Qed.

Lemma round_half_even_le b q :
  (q <= inject_Z b)%Q -> round_half_even q <= b.
Proof.
  intros H. pose proof (Qfloor_resp_le _ _ H) as Hf. rewrite Qfloor_Z in Hf.
  pose proof (Qfloor_le q) as Hlo.
  unfold round_half_even.
  destruct (Z.eq_dec (Qfloor q) b) as [E|E].
  - assert (C : ((q - inject_Z (Qfloor q)) ?= (1 # 2))%Q = Lt).
    { apply (proj1 (Qlt_alt _ _)). rewrite E in *.
      remember (inject_Z b) as f in *. clear Heqf. lra. }
    rewrite C. lia.
  - destruct (_ ?= _)%Q; [destruct (Z.even (Qfloor q))| |]; lia.
Qed.

Lemma round_decimals_between a b q :
  (inject_Z a <= q <= inject_Z b)%Q ->
  (inject_Z a <= round_decimals 2 q <= inject_Z b)%Q.
Proof.
  intros [Ha Hb]. unfold round_decimals.
  change (inject_Z (10 ^ Z.of_nat 2)) with 100%Q.
  assert (H1 : a * 100 <= round_half_even (q * 100)).
  { apply round_half_even_ge. rewrite inject_Z_mult.
    change (inject_Z 100) with 100%Q.
    remember (inject_Z a) as a' in *. clear Heqa'. lra. }
  assert (H2 : round_half_even (q * 100) <= b * 100).
  { apply round_half_even_le. rewrite inject_Z_mult.
    change (inject_Z 100) with 100%Q.
    remember (inject_Z b) as b' in *. clear Heqb'. lra. }
  rewrite Zle_Qle in H1, H2. rewrite inject_Z_mult in H1, H2.
  change (inject_Z 100) with 100%Q in H1, H2.
  remember (inject_Z (round_half_even (q * 100))) as r in *. clear Heqr.
  remember (inject_Z a) as a' in *. remember (inject_Z b) as b' in *.
  clear Heqa' Heqb'.
  split.
  - apply Qle_shift_div_l; lra.
  - apply Qle_shift_div_r; lra.
Qed.

Lemma linspace_point_between start stop num i :
  (start <= stop)%Q -> 0 <= i < num ->
  (start <= linspace_point start stop num i <= stop)%Q.
Proof.
  intros Hle Hi. unfold linspace_point.
  destruct (0 <? num - 1) eqn:E.
  - apply Z.ltb_lt in E.
    destruct (i =? num - 1) eqn:Ei; [lra|]. apply Z.eqb_neq in Ei.
    assert (Hdiv : (0 < inject_Z (num - 1))%Q).
    { change 0%Q with (inject_Z 0). rewrite <- Zlt_Qlt. lia. }
    assert (Hstep : (0 <= (stop - start) / inject_Z (num - 1))%Q).
    { apply Qle_shift_div_l; [exact Hdiv | lra]. }
    assert (Hfull : (inject_Z (num - 1) * ((stop - start) / inject_Z (num - 1))
                     == stop - start)%Q).
    { field. lra. }
    set (step := ((stop - start) / inject_Z (num - 1))%Q) in *.
    assert (H0 : (0 <= inject_Z i * step)%Q).
    { apply Qmult_le_0_compat; [|exact Hstep].
      change 0%Q with (inject_Z 0). rewrite <- Zle_Qle. lia. }
    assert (H1 : (inject_Z i * step <= inject_Z (num - 1) * step)%Q).
    { apply Qmult_le_compat_r; [|exact Hstep]. rewrite <- Zle_Qle. lia. }
    lra.
  - apply Z.ltb_ge in E. assert (i = 0) by lia. subst i.
    change (inject_Z 0) with 0%Q. lra.
Qed.

Lemma linspace_In start stop num g y :
  linspace start stop num = Ok g -> In y g ->
  exists i, 0 <= i < num /\ y = linspace_point start stop num i.
Proof.
  unfold linspace. destruct (num <? 0); [discriminate|].
  intros H Hy. inversion H; subst g. apply in_map_iff in Hy.
  destruct Hy as [i [<- Hi]]. apply py_range_In in Hi.
  exists i. split; [lia | reflexivity].
Qed.

(** X18. The payback period of a study of at least one year is NaN or a
    year between 1 and the study period: the balance is only looked at on
    labels from 1 to the study period, so a payback before the end of the
    first year, or none within the study, is reported inside that range. *)
Theorem X18_payback_period_range sp col :
  1 <= sp ->
  exists p,
    pay_back_period_of sp col = Ok p /\
    (p = NaN \/ exists q, p = Fin q /\ (1 <= q <= inject_Z sp)%Q).
Proof.
  intros Hsp. unfold pay_back_period_of.
  destruct (linspace 1 (inject_Z sp) (sp * 100)) as [ys|e] eqn:Hys.
  2:{ unfold linspace in Hys. destruct (sp * 100 <? 0) eqn:E; [|discriminate].
      apply Z.ltb_lt in E. lia. }
  simpl. eexists. split; [reflexivity|].
  unfold idxmin.
  destruct (idx_best Fltb None _) as [[l x]|] eqn:Hbest; simpl; [|now left].
  right. exists l. split; [reflexivity|].
  apply idx_best_In in Hbest. destruct Hbest as [Hbest|Hbest]; [discriminate|].
  apply in_map_iff in Hbest. destruct Hbest as [[l' x'] [E Hin]].
  simpl in E. inversion E; subst l'. clear E.
  unfold interpolate in Hin. apply in_combine_l in Hin.
  unfold reindex in Hin. rewrite map_map in Hin. simpl in Hin.
  rewrite map_id in Hin. apply in_map_iff in Hin.
  destruct Hin as [y [<- Hy]].
  destruct (linspace_In _ _ _ _ _ Hys Hy) as [i [Hi ->]].
  apply (round_decimals_between 1 sp).
  apply linspace_point_between; [|exact Hi].
  change 1%Q with (inject_Z 1). rewrite <- Zle_Qle. lia.
Qed.

(** * Further properties: ties and the secondary grid *)

Lemma idx_best_app {L : Type} (better : F -> F -> bool)
    (best : option (L * F)) (s1 s2 : list (L * F)) :
  idx_best better best (s1 ++ s2)
  = idx_best better (idx_best better best s1) s2.
Proof.
  revert best. induction s1 as [|[l x] s1 IH]; intros best; simpl;
    [reflexivity|].
  destruct (is_nan x); [apply IH|].
  destruct best as [[lb xb]|]; [destruct (better x xb)|]; apply IH.
Qed.

Lemma Fle_not_Fltb x y : Fle x y -> Fltb y x = false.
Proof.
  destruct x, y; simpl; try tauto. intros H. now apply Qltb_false.
Qed.

Lemma idx_best_keeps {L : Type} (l : L) x (s : list (L * F)) :
  (forall l' x', In (l', x') s -> is_nan x' = true \/ Fle x' x) ->
  idx_best (fun a b => Fltb b a) (Some (l, x)) s = Some (l, x).
Proof.
  induction s as [|[l0 x0] s IH]; intros H; simpl; [reflexivity|].
  assert (IH' := IH (fun l' x' Hin => H l' x' (or_intror Hin))).
  destruct (is_nan x0) eqn:N; [exact IH'|].
  destruct (H l0 x0 (or_introl eq_refl)) as [Hn|Hle]; [congruence|].
  now rewrite (Fle_not_Fltb _ _ Hle).
Qed.

Lemma idx_best_first_max {L : Type} (s1 : list (L * F)) l x s2 :
  is_nan x = false ->
  (forall l' x', In (l', x') s1 -> is_nan x' = true \/ Fltb x' x = true) ->
  (forall l' x', In (l', x') s2 -> is_nan x' = true \/ Fle x' x) ->
  idx_best (fun a b => Fltb b a) None (s1 ++ (l, x) :: s2) = Some (l, x).
Proof.
  intros Hx H1 H2. rewrite idx_best_app. simpl. rewrite Hx.
  destruct (idx_best (fun a b => Fltb b a) None s1) as [[l1 x1]|] eqn:E.
  - destruct (idx_best_max None s1 l1 x1) as (Hin & Hn & _);
      [discriminate | exact E |].
    destruct Hin as [Hin|Hin]; [discriminate|].
    destruct (H1 _ _ Hin) as [Hn'|Hlt]; [congruence|].
    rewrite Hlt. now apply idx_best_keeps.
  - now apply idx_best_keeps.
Qed.

(** X19. On a tie the first candidate wins: the selected scenario is the
    first one, in sweep order, whose NPV is not NaN and is reached by no
    earlier candidate and exceeded by no later one. *)
Theorem X19_first_maximum_is_selected (d1 d2 : dict Z Scenario) k sc :
  NoDup (map fst (d1 ++ (k, sc) :: d2)) ->
  keyed_by_capacity (d1 ++ (k, sc) :: d2) ->
  is_nan (npv_of sc) = false ->
  (forall k' sc', In (k', sc') d1 ->
     is_nan (npv_of sc') = true \/ Fltb (npv_of sc') (npv_of sc) = true) ->
  (forall k' sc', In (k', sc') d2 ->
     is_nan (npv_of sc') = true \/ Fle (npv_of sc') (npv_of sc)) ->
  PVSizing.highest_npv (d1 ++ (k, sc) :: d2)
    (PVSizing.aggregate_data (d1 ++ (k, sc) :: d2)) = Ok sc.
Proof.
  intros Hnd Hkey Hn H1 H2.
  unfold PVSizing.highest_npv, PVSizing.aggregate_data.
  destruct (map (fun ks : Z * Scenario => data (snd ks)) (d1 ++ (k, sc) :: d2))
    as [|r0 rs] eqn:Em.
  { apply (f_equal (@List.length _)) in Em.
    rewrite length_map, length_app in Em. simpl in Em. lia. }
  rewrite <- Em. clear Em r0 rs.
  rewrite map_map, map_app. simpl map. unfold idxmax.
  rewrite (idx_best_first_max _ (fst (data sc)) (npv_of sc)); [| exact Hn | |].
  - simpl. apply dict_get_In with (k := k); auto.
    + apply in_or_app. right. now left.
    + apply (Hkey k sc). apply in_or_app. right. now left.
  - intros l' x' Hin. apply in_map_iff in Hin.
    destruct Hin as [[k' sc'] [E Hin]]. inversion E; subst. eauto.
  - intros l' x' Hin. apply in_map_iff in Hin.
    destruct Hin as [[k' sc'] [E Hin]]. inversion E; subst. eauto.
Qed.

Lemma dict_set_Q_In {V : Type} (d : dict Q V) k v x :
  In x (dict_set Qeq_bool d k v) ->
  In x d \/ (snd x = v /\ (fst x == k)%Q).
Proof.
  induction d as [|[k' v'] d IH]; simpl.
  - intros [<-|[]]. right. split; reflexivity.
  - destruct (Qeq_bool k' k) eqn:E; simpl.
    + apply Qeq_bool_iff in E. intros [<-|H]; auto.
    + intros [H|H]; auto. destruct (IH H); auto.
Qed.

Local Open Scope string_scope.

(** The value assigned for a grid value [v] of the secondary variable. *)
Definition assigned_value (input_var : UnitVar) (v : Q) : Q :=
  if String.eqb (unit input_var) "%" then (round_decimals 4 v / 100)%Q
  else round_decimals 4 v.

Section SecondaryGrid.

Variable npf_irr : list F -> result F.
Variable float_pow : Q -> Q -> F.
Variable math_log10 : Q -> Q.
Variables (pv_var_min pv_var_max : Q) (pv_steps : Z) (pv_log_scale : bool).

Local Abbreviation value_loop :=
  (Sensitivity.value_loop npf_irr float_pow math_log10 pv_var_min pv_var_max
     pv_steps pv_log_scale).
Local Abbreviation run :=
  (Sensitivity.run_sensitivity npf_irr float_pow math_log10 pv_var_min
     pv_var_max pv_steps pv_log_scale).

Lemma value_loop_keys variable input_var variable_range results inputs res i' :
  value_loop variable input_var variable_range results inputs = (Ok res, i') ->
  forall x, In x res ->
    In x results \/
    exists v, In v variable_range /\ (fst x == assigned_value input_var v)%Q.
Proof.
  revert results inputs.
  induction variable_range as [|v rest IH]; intros results inputs H x Hx.
  - simpl in H. inversion H; subst. now left.
  - simpl in H.
    destruct (PVSizing.init _ _ _ _ _ _ _ _) as [[sz|e] i1]; [|discriminate].
    destruct (IH _ _ H x Hx) as [Hin|(v' & Hv' & Hk)].
    + apply dict_set_Q_In in Hin. destruct Hin as [Hin|[_ Hk]]; [now left|].
      right. exists v. split; [now left | exact Hk].
    + right. exists v'. split; [now right | exact Hk].
Qed.

(** The loop over the fields finds the variable once and runs the loop over
    its values there. *)
Lemma run_sensitivity_field variable variable_range inputs :
  In variable fields ->
  run variable variable_range inputs
  = match getattr inputs variable with
    | Raise e => (Raise e, inputs)
    | Ok input_var =>
        match value_loop variable input_var variable_range [] inputs with
        | (Raise e, inputs) => (Raise e, inputs)
        | (Ok results, inputs) => (Ok results, inputs)
        end
    end.
Proof.
  unfold fields. intros Hin.
  repeat (destruct Hin as [<-|Hin]; [reflexivity|]).
  destruct Hin.
Qed.

(** X16. The keys of a completed sensitivity sweep: every entry is stored
    under a grid value of the secondary variable rounded to four decimals,
    divided by 100 when the unit of the variable is a percentage. *)
Theorem X16_secondary_values_are_rounded_and_scaled variable variable_range
    inputs results inputs' :
  In variable fields ->
  run variable variable_range inputs = (Ok results, inputs') ->
  exists input_var,
    getattr inputs variable = Ok input_var /\
    forall k sz, In (k, sz) results ->
      exists v, In v variable_range /\ (k == assigned_value input_var v)%Q.
Proof.
  intros Hin H. rewrite (run_sensitivity_field _ _ _ Hin) in H.
  destruct (getattr inputs variable) as [input_var|e]; [|discriminate].
  exists input_var. split; [reflexivity|].
  destruct (value_loop variable input_var variable_range [] inputs)
    as [[res1|e] i1] eqn:Hloop; [|discriminate].
  inversion H; subst results inputs'. intros k sz Hk.
  destruct (value_loop_keys _ _ _ _ _ _ _ Hloop (k, sz) Hk) as [[]|Hv].
  exact Hv.
Qed.

End SecondaryGrid.

Local Close Scope string_scope.

(** * Evaluations on concrete inputs *)

(** The scenario built from [example_inputs]. *)
Definition example_scenario : Scenario :=
  Eval vm_compute in
    match Scenario_init no_irr no_float_pow example_inputs with
    | Ok sc => sc
    | Raise _ => synthetic_scenario 0 0
    end.

Lemma example_scenario_built :
  Scenario_init no_irr no_float_pow example_inputs = Ok example_scenario.
Proof. vm_compute. reflexivity. Qed.

(** The example with no PV installed. *)
(** The example with no PV capacity: every year's PV energy is zero. *)
Definition zero_pv_inputs : Inputs := set_pv_capacity (VInt 0) example_inputs.

Lemma C7_degenerate_inputs_unguarded_witness :
  (exists s,
     values_of zero_load_inputs = Ok s /\ 1 <= v_study_period s /\
     (Qsum (v_load s) == 0)%Q /\
     exists sc,
       Scenario_init no_irr no_float_pow zero_load_inputs = Ok sc /\
       is_finite (Summary.blcoe (snd (data sc))) = false) /\
  (exists s col,
     values_of zero_pv_inputs = Ok s /\ 1 <= v_study_period s /\
     irr_argument no_float_pow s = Ok col /\
     nth_error col 1 = Some NaN /\
     irr no_irr col = Raise LinAlgError /\
     Scenario_init no_irr no_float_pow zero_pv_inputs = Raise LinAlgError).
Proof.
  split.
  - eexists. split; [reflexivity|]. split; [simpl; lia|].
    split; [reflexivity|].
    destruct (C7_degenerate_inputs_unguarded no_irr no_float_pow
                zero_load_inputs _ eq_refl)
      as (ebs & col & Hebs & Hcol & _ & _ & Hok & _); [simpl; lia|].
    vm_compute in Hcol. injection Hcol as <-.
    destruct (Hok NaN) as (sc & Hsc & Hb); [reflexivity|].
    exists sc. split; [exact Hsc|]. apply Hb. reflexivity.
  - destruct (C7_degenerate_inputs_unguarded no_irr no_float_pow
                zero_pv_inputs _ eq_refl)
      as (ebs & col & Hebs & Hcol & _ & _ & _ & Hnan); [simpl; lia|].
    eexists. exists col. split; [reflexivity|]. split; [simpl; lia|].
    split; [exact Hcol|].
    vm_compute in Hebs. injection Hebs as <-.
    vm_compute in Hcol. injection Hcol as <-.
    edestruct (Hnan 1) as [H1 Hr]; [reflexivity|reflexivity|reflexivity|].
    split; [exact H1|]. split; [reflexivity|].
    apply (Hr 2%nat NaN); [|reflexivity|reflexivity].
    intro Hc. vm_compute in Hc. discriminate Hc.
Defined.

Local Open Scope string_scope.



Local Close Scope string_scope.

(** C7, as stated, fails: with a load that is zero at every hour the build
    raises nothing and returns a summary row whose LCOE and BLCOE are both
    positive infinity. *)
Lemma C7_zero_load_counterexample :
  exists sc,
    Scenario_init no_irr no_float_pow zero_load_inputs = Ok sc /\
    Qsum (v_load (self sc)) = 0%Q /\
    Summary.lcoe (snd (data sc)) = PInf /\
    Summary.blcoe (snd (data sc)) = PInf.
Proof.
  eexists. split; [vm_compute; reflexivity|].
  vm_compute. repeat split.
Qed.

Local Open Scope string_scope.

(** The example with no year to simulate. *)
Definition no_year_inputs : Inputs :=
  set_field_value "study_period" (VInt 0) example_inputs.

Lemma X1_build_outcome_witness :
  values_of example_inputs = Ok example_values /\
  Scenario_init no_irr no_float_pow no_year_inputs = Raise AttributeError /\
  exists col,
    irr_argument no_float_pow example_values = Ok col /\
    List.length col = 3%nat /\
    exists sc,
      Scenario_init no_irr no_float_pow example_inputs = Ok sc /\
      self sc = example_values.
Proof.
  split; [reflexivity|]. split.
  - eapply (proj1 (X1_build_outcome no_irr no_float_pow no_year_inputs _
                     eq_refl)).
    simpl. lia.
  - destruct (proj2 (X1_build_outcome no_irr no_float_pow example_inputs
                       example_values eq_refl))
      as (col & Hcol & Hlen & _ & Hok); [simpl; lia|].
    exists col. split; [exact Hcol|]. split; [exact Hlen|].
    destruct (Hok NaN) as (sc & Hsc & Hself & _).
    + vm_compute in Hcol. injection Hcol as <-. reflexivity.
    + exists sc. split; [exact Hsc | exact Hself].
Defined.

Lemma X2_tables_are_indexed_by_year_witness :
  Scenario_init no_irr no_float_pow example_inputs = Ok example_scenario /\
  index (cashflow example_scenario) = [0; 1; 2] /\
  index (energy_balance example_scenario) = [1; 2].
Proof.
  split; [exact example_scenario_built|].
  destruct (X2_tables_are_indexed_by_year no_irr no_float_pow example_inputs
              example_scenario example_scenario_built)
    as (_ & H1 & _ & H3 & _).
  split; [exact H3 | exact H1].
Defined.

Lemma X3_cash_balance_accumulates_witness :
  Scenario_init no_irr no_float_pow example_inputs = Ok example_scenario /\
  (exists year0,
     loc (cashflow example_scenario) 0 = Ok year0 /\
     Cash.cash_balance year0 = Cash.cashflow year0) /\
  (exists r before,
     loc (cashflow example_scenario) 2 = Ok r /\
     loc (cashflow example_scenario) 1 = Ok before /\
     Cash.cash_balance r = Fadd (Cash.cash_balance before) (Cash.cashflow r)).
Proof.
  split; [exact example_scenario_built|].
  destruct (X3_cash_balance_accumulates no_irr no_float_pow example_inputs
              example_scenario example_scenario_built) as [H0 Hy].
  split.
  - destruct H0 as (y0 & Hl & _ & Hb & _). exists y0. auto.
  - destruct (Hy 2) as (r & before & Hr & Hb & _ & Hc); [simpl; lia|].
    exists r, before. auto.
Defined.

Lemma X4_discounted_rows_witness :
  Scenario_init no_irr no_float_pow example_inputs = Ok example_scenario /\
  exists r rd,
    loc (cashflow example_scenario) 2 = Ok r /\
    loc (discounted_cashflow example_scenario) 2 = Ok rd /\
    Cash.opex rd = Fdiv (Cash.opex r) (Fin ((1 + (4 # 100)) ^ 2)).
Proof.
  split; [exact example_scenario_built|].
  destruct (X4_discounted_rows no_irr no_float_pow example_inputs
              example_scenario example_scenario_built 2)
    as (r & rd & before & Hr & Hrd & _ & H); [simpl; lia|].
  exists r, rd. split; [exact Hr|]. split; [exact Hrd|].
  exact (proj1 (proj2 (proj2 (proj2 (proj2 (proj2 (proj2 (proj2 H)))))))).
Defined.

Lemma X5_no_loan_payment_after_loan_period_witness :
  Scenario_init no_irr no_float_pow example_inputs = Ok example_scenario /\
  (v_loan_period (self example_scenario) < inject_Z 1)%Q /\
  exists r rd,
    loc (cashflow example_scenario) 1 = Ok r /\
    loc (discounted_cashflow example_scenario) 1 = Ok rd /\
    Cash.loan_payment r = Fin 0 /\
    Cash.loan_payment rd = Fin 0.
Proof.
  split; [exact example_scenario_built|].
  assert (H : (v_loan_period (self example_scenario) < inject_Z 1)%Q)
    by reflexivity.
  split; [exact H|].
  apply (X5_no_loan_payment_after_loan_period no_irr no_float_pow
           example_inputs example_scenario example_scenario_built 1);
    [simpl; lia | exact H].
Defined.

Lemma X6_discounted_cashflow_is_cashflow_over_factor_witness :
  Scenario_init no_irr no_float_pow example_inputs = Ok example_scenario /\
  exists r tariff,
    loc (cashflow example_scenario) 1 = Ok r /\
    Cash.combined_tariff r = Fin tariff /\
    exists rd x xd,
      loc (discounted_cashflow example_scenario) 1 = Ok rd /\
      Cash.cashflow r = Fin x /\
      Cash.cashflow rd = Fin xd /\
      (xd == x / (1 + v_discount_rate (self example_scenario)) ^ 1)%Q.
Proof.
  split; [exact example_scenario_built|].
  eexists. eexists. split; [vm_compute; reflexivity|].
  split; [vm_compute; reflexivity|].
  eapply (X6_discounted_cashflow_is_cashflow_over_factor no_irr no_float_pow
            example_inputs example_scenario example_scenario_built 1).
  - simpl. lia.
  - reflexivity.
  - vm_compute. discriminate.
  - vm_compute. reflexivity.
  - vm_compute. reflexivity.
Defined.

Lemma X7_annual_energy_conservation_witness :
  Scenario_init no_irr no_float_pow example_inputs = Ok example_scenario /\
  exists e ld pv sc_ im ex,
    loc (energy_balance_summary example_scenario) 1 = Ok e /\
    Annual.enLoad e = Fin ld /\ Annual.enPV_total e = Fin pv /\
    Annual.enPV_self_cons e = Fin sc_ /\
    Annual.enGrid_import e = Fin im /\ Annual.enGrid_export e = Fin ex /\
    (ld == sc_ + im)%Q /\ (pv == sc_ + ex)%Q.
Proof.
  split; [exact example_scenario_built|].
  destruct (X7_annual_energy_conservation no_irr no_float_pow example_inputs
              example_scenario example_scenario_built 1)
    as (e & ld & pv & sc_ & im & ex & He & H1 & H2 & H3 & H4 & H5 & HL & HP);
    [simpl; lia|].
  exists e, ld, pv, sc_, im, ex.
  repeat (split; [assumption|]). apply HP. simpl. lia.
Defined.

Lemma X8_never_import_and_export_witness :
  Scenario_init no_irr no_float_pow example_inputs = Ok example_scenario /\
  exists hours,
    loc (energy_balance example_scenario) 1 = Ok hours /\
    List.length hours = 2%nat /\
    exists row,
      nth_error hours 0 = Some row /\
      (Hourly.enGrid_import row = Fin 0 \/ Hourly.enGrid_export row = Fin 0).
Proof.
  split; [exact example_scenario_built|].
  assert (Hh : loc (energy_balance example_scenario) 1
               = Ok (year_data example_values 1))
    by (vm_compute; reflexivity).
  destruct (X8_never_import_and_export no_irr no_float_pow example_inputs
              example_scenario example_scenario_built 1 _ Hh)
    as [Hlen Hrows].
  exists (year_data example_values 1).
  split; [exact Hh|]. split; [exact Hlen|].
  destruct (Hrows 0%nat _ eq_refl) as [Hd _].
  eexists. split; [reflexivity | exact Hd].
Defined.

Local Close Scope string_scope.

Lemma X11_sweep_dictionary_witness :
  exists d inputs',
    PVSizing.run_pv_sensitivity no_irr no_float_pow
      [Fin (3 # 2); Fin (5 # 2)] zero_load_inputs = (Ok d, inputs') /\
    NoDup (map fst d) /\
    keyed_by_capacity d /\
    (List.length d <= 2)%nat.
Proof.
  eexists. eexists. split; [vm_compute; reflexivity|].
  destruct (X11_sweep_dictionary no_irr no_float_pow
              [Fin (3 # 2); Fin (5 # 2)] zero_load_inputs _ _
              ltac:(vm_compute; reflexivity))
    as (H1 & H2 & _ & H4).
  split; [exact H1|]. split; [exact H2 | exact H4].
Defined.

Lemma X12_failed_sweep_keeps_mutation_witness :
  py_round (Fin (7 # 2)) = Ok 4 /\
  Scenario_init no_irr no_float_pow (set_pv_capacity (VInt 4) no_year_inputs)
    = Raise AttributeError /\
  PVSizing.run_pv_sensitivity no_irr no_float_pow [Fin (7 # 2); Fin 9]
    no_year_inputs
  = (Raise AttributeError, set_pv_capacity (VInt 4) no_year_inputs).
Proof.
  split; [reflexivity|]. split; [reflexivity|].
  apply (proj2 (X12_failed_sweep_keeps_mutation no_irr no_float_pow
                  [Fin (7 # 2); Fin 9] no_year_inputs)
           (Fin (7 # 2)) [Fin 9] 4 AttributeError);
    reflexivity.
Defined.

Lemma X13_completed_sweep_witness :
  exists sz inputs',
    PVSizing.init no_irr no_float_pow no_log10 zero_load_inputs 1 3 2 false
    = (Ok sz, inputs') /\
    PVSizing.pv_range sz <> [] /\
    (exists k, In (k, PVSizing.best_result sz) (PVSizing.scenario sz)) /\
    exists c, py_round (last (PVSizing.pv_range sz) NaN) = Ok c /\
              inputs' = set_pv_capacity (VInt c) zero_load_inputs.
Proof.
  eexists. eexists. split; [vm_compute; reflexivity|].
  split; [discriminate|].
  destruct (X13_completed_sweep no_irr no_float_pow no_log10 zero_load_inputs
              1 3 2 false _ _ ltac:(vm_compute; reflexivity))
    as (_ & _ & _ & (k & Hk & _) & Hlast).
  split; [exists k; exact Hk|]. apply Hlast. discriminate.
Defined.

Lemma X14_degenerate_grids_witness :
  (1 < 100)%Q /\ -1 < 0 /\ (100 <= 100)%Q /\
  PVSizing.init no_irr no_float_pow no_log10 example_inputs 1 100 0 true
  = (Raise KeyError, example_inputs) /\
  PVSizing.init no_irr no_float_pow no_log10 example_inputs 1 100 (-1) true
  = (Raise ValueError, example_inputs) /\
  PVSizing.init no_irr no_float_pow no_log10 example_inputs 100 100 5 true
  = (Raise ValueError, example_inputs).
Proof.
  assert (H1 : (1 < 100)%Q) by reflexivity.
  assert (H2 : (100 <= 100)%Q) by (apply Qle_refl).
  split; [exact H1|]. split; [lia|]. split; [exact H2|].
  split; [|split].
  - exact (proj1 (proj2 (X14_degenerate_grids no_irr no_float_pow no_log10
                           example_inputs 1 100)) H1).
  - apply (proj1 (proj2 (proj2 (X14_degenerate_grids no_irr no_float_pow
                                  no_log10 example_inputs 1 100))));
      [lia | left; exact H1].
  - exact (proj2 (proj2 (proj2 (X14_degenerate_grids no_irr no_float_pow
                                  no_log10 example_inputs 100 100))) 5 H2).
Defined.

Local Open Scope string_scope.

Lemma X15_study_period_sensitivity_raises_witness :
  values_of example_inputs = Ok example_values /\ 1 <= 5 /\ 1 <= 3 /\
  fst (Sensitivity.init no_irr no_float_pow no_log10 example_inputs
         "study_period" 10 30 5 1 100 3 false)
  = Raise TypeError.
Proof.
  split; [reflexivity|]. split; [lia|]. split; [lia|].
  apply (X15_study_period_sensitivity_raises no_irr no_float_pow no_log10
           example_inputs example_values); [reflexivity | lia | lia].
Defined.

Lemma X16_secondary_values_are_rounded_and_scaled_witness :
  In "discount_rate" fields /\
  exists results inputs',
    Sensitivity.run_sensitivity no_irr no_float_pow no_log10 1 1 1 false
      "discount_rate" [4%Q] zero_load_inputs = (Ok results, inputs') /\
    exists input_var,
      getattr zero_load_inputs "discount_rate" = Ok input_var /\
      forall k sz, In (k, sz) results ->
        exists v, In v [4%Q] /\ (k == assigned_value input_var v)%Q.
Proof.
  assert (H : In "discount_rate" fields) by (unfold fields; simpl; tauto).
  split; [exact H|].
  eexists. eexists. split; [vm_compute; reflexivity|].
  eapply (X16_secondary_values_are_rounded_and_scaled no_irr no_float_pow
            no_log10 1 1 1 false "discount_rate" [4%Q] zero_load_inputs);
    [exact H | vm_compute; reflexivity].
Defined.

Local Close Scope string_scope.

Lemma X17_yield_normaliser_witness :
  List.length [-5; 10]%Q = List.length [1; 2]%Q /\
  List.length [-5; 10; 3]%Q <> List.length [1; 2]%Q /\
  Normaliser._format_file_inputs [1; 2]%Q [-5; 10; 3]%Q 10 (1 # 10)
  = Raise ValueError /\
  exists rows,
    Normaliser._format_file_inputs [1; 2]%Q [-5; 10]%Q 10 (1 # 10)
    = Ok ([1; 2]%Q, rows) /\
    List.length rows = 2%nat.
Proof.
  split; [reflexivity|]. split; [discriminate|]. split.
  - apply (proj1 (X17_yield_normaliser [1; 2]%Q [-5; 10; 3]%Q 10 (1 # 10))).
    discriminate.
  - destruct (proj2 (X17_yield_normaliser [1; 2]%Q [-5; 10]%Q 10 (1 # 10))
                eq_refl) as (rows & Hr & Hlen & _).
    exists rows. split; [exact Hr | exact Hlen].
Defined.

Lemma X18_payback_period_range_witness :
  1 <= 25 /\
  exists p,
    pay_back_period_of 25 synthetic_balance = Ok p /\
    (p = NaN \/ exists q, p = Fin q /\ (1 <= q <= inject_Z 25)%Q).
Proof.
  split; [lia|]. apply X18_payback_period_range. lia.
Defined.

(** A sweep in which two candidates tie for the largest NPV. *)
Definition tied_sweep : dict Z Scenario :=
  [(1000, synthetic_scenario 1000 100)]
    ++ (2000, synthetic_scenario 2000 500)
    :: [(3000, synthetic_scenario 3000 500)].

Lemma X19_first_maximum_is_selected_witness :
  NoDup (map fst tied_sweep) /\
  keyed_by_capacity tied_sweep /\
  PVSizing.highest_npv tied_sweep (PVSizing.aggregate_data tied_sweep)
  = Ok (synthetic_scenario 2000 500).
Proof.
  assert (Hnd : NoDup (map fst tied_sweep)).
  { simpl. repeat constructor; simpl; intuition lia. }
  assert (Hkey : keyed_by_capacity tied_sweep).
  { intros k sc [H|[H|[H|[]]]]; inversion H; subst; reflexivity. }
  split; [exact Hnd|]. split; [exact Hkey|].
  apply (X19_first_maximum_is_selected
           [(1000, synthetic_scenario 1000 100)]
           [(3000, synthetic_scenario 3000 500)]
           2000 (synthetic_scenario 2000 500) Hnd Hkey eq_refl).
  - intros k' sc' [H|[]]. inversion H; subst. right. reflexivity.
  - intros k' sc' [H|[]]. inversion H; subst. right.
    unfold npv_of. simpl. apply Qle_refl.
Defined.

(** * Further properties: the adapter's failures, annual bounds *)

Section AdapterMore.

Variable Scn : Type.
Variable setattr : string -> Q -> Scn -> Scn.
Variable update_scenario : Scn -> result Scn.
Variable summary : Scn -> string -> result F.

Local Abbreviation wrapper :=
  (ScipyOptimiser.optimising_function_wrapper Scn setattr update_scenario
     summary).

(** X20. How a call of the evaluation function fails on a supported
    variable: with no candidate value it raises IndexError and changes
    nothing; when the rerun raises, the error is passed on and the adapter
    keeps the scenario with the attribute already assigned; when the metric
    is unknown to the summary, the lookup error is passed on for each of the
    three strategies and the adapter keeps the rerun scenario. *)
Theorem X20_adapter_failures (o : ScipyOptimiser.t Scn) attribute :
  ScipyOptimiser.attribute_of (ScipyOptimiser.variable o) = Ok attribute ->
  wrapper o [] = (Raise IndexError, o) /\
  (forall x0 xs e,
     update_scenario (setattr attribute x0 (ScipyOptimiser.scenario o))
       = Raise e ->
     wrapper o (x0 :: xs)
     = (Raise e,
        ScipyOptimiser.with_scenario
          (setattr attribute x0 (ScipyOptimiser.scenario o)) o)) /\
  (forall x0 xs s e,
     update_scenario (setattr attribute x0 (ScipyOptimiser.scenario o))
       = Ok s ->
     summary s (ScipyOptimiser.objective o) = Raise e ->
     In (ScipyOptimiser.optimisation o)
        ["Min"; "Max"; "Goal-Seek"]%string ->
     wrapper o (x0 :: xs) = (Raise e, ScipyOptimiser.with_scenario s o)).
Proof.
  intros Ha. unfold ScipyOptimiser.optimising_function_wrapper. rewrite Ha.
  split; [reflexivity|]. split.
  - intros x0 xs e Hu. simpl. now rewrite Hu.
  - intros x0 xs s e Hu Hs Hopt. simpl. rewrite Hu.
    unfold ScipyOptimiser.objective_value. simpl.
    destruct Hopt as [<-|[<-|[<-|[]]]]; simpl; now rewrite Hs.
Qed.

End AdapterMore.

Lemma X20_adapter_failures_witness :
  ScipyOptimiser.attribute_of (ScipyOptimiser.variable example_adapter)
    = Ok "pv_capacity"%string /\
  ScipyOptimiser.optimising_function_wrapper attribute_store store_setattr
    store_update store_summary example_adapter []
  = (Raise IndexError, example_adapter).
Proof.
  split; [reflexivity|].
  exact (proj1 (X20_adapter_failures attribute_store store_setattr
                  store_update store_summary example_adapter
                  "pv_capacity"%string eq_refl)).
Defined.

Section AnnualBounds.

Variable npf_irr : list F -> result F.
Variable float_pow : Q -> Q -> F.

(** X21. In every year of a built scenario the annual grid import and grid
    export are not negative and the annual self-consumption does not exceed
    the annual load; it does not exceed the annual PV energy either when the
    specific-yield series has a value for every hour of the load. *)
Theorem X21_annual_self_consumption_bounds inputs sc :
  Scenario_init npf_irr float_pow inputs = Ok sc ->
  forall y, 1 <= y <= v_study_period (self sc) ->
    exists e ld pv sc_ im ex,
      loc (energy_balance_summary sc) y = Ok e /\
      Annual.enLoad e = Fin ld /\ Annual.enPV_total e = Fin pv /\
      Annual.enPV_self_cons e = Fin sc_ /\
      Annual.enGrid_import e = Fin im /\ Annual.enGrid_export e = Fin ex /\
      (0 <= im)%Q /\ (0 <= ex)%Q /\ (sc_ <= ld)%Q /\
      ((List.length (v_load (self sc))
        <= List.length (v_ref_specific_yield (self sc)))%nat ->
       (sc_ <= pv)%Q).
Proof.
  intros H y Hy.
  destruct (built_annual_cells npf_irr float_pow _ _ y H Hy)
    as (e & ld & pv & sc_ & im & ex & He & H1 & H2 & H3 & H4 & H5
        & HL & HI & HX & HP).
  exists e, ld, pv, sc_, im, ex.
  repeat (split; [assumption|]). split; [lra|].
  intros Hc. specialize (HP Hc). lra.
Qed.

End AnnualBounds.

Lemma X21_annual_self_consumption_bounds_witness :
  Scenario_init no_irr no_float_pow example_inputs = Ok example_scenario /\
  exists e ld pv sc_ im ex,
    loc (energy_balance_summary example_scenario) 2 = Ok e /\
    Annual.enLoad e = Fin ld /\ Annual.enPV_total e = Fin pv /\
    Annual.enPV_self_cons e = Fin sc_ /\
    Annual.enGrid_import e = Fin im /\ Annual.enGrid_export e = Fin ex /\
    (0 <= im)%Q /\ (0 <= ex)%Q /\ (sc_ <= ld)%Q /\ (sc_ <= pv)%Q.
Proof.
  split; [exact example_scenario_built|].
  destruct (X21_annual_self_consumption_bounds no_irr no_float_pow
              example_inputs example_scenario example_scenario_built 2)
    as (e & ld & pv & sc_ & im & ex & He & H1 & H2 & H3 & H4 & H5
        & HI & HX & HL & HP); [simpl; lia|].
  exists e, ld, pv, sc_, im, ex.
  repeat (split; [assumption|]). apply HP. simpl. lia.
Defined.

(** * Further properties of the capacity grid and of the sweep keys *)

Section GridAndKeys.

Variable npf_irr : list F -> result F.
Variable float_pow : Q -> Q -> F.
Variable math_log10 : Q -> Q.

(** X9. The scenarios of a completed sweep are built at rounded
    capacities: every capacity of the grid is a finite number and has an
    entry whose key is within one half of it and whose scenario was built
    with the key, not with the grid capacity, as its PV capacity. *)
Theorem X9_scenarios_use_rounded_capacity pv_range inputs d inputs' :
  PVSizing.run_pv_sensitivity npf_irr float_pow pv_range inputs
    = (Ok d, inputs') ->
  forall capacity, In capacity pv_range ->
    exists q k sc,
      capacity = Fin q /\ In (k, sc) d /\
      (- (1 # 2) <= inject_Z k - q <= 1 # 2)%Q /\
      v_pv_capacity (self sc) = inject_Z k.
Proof.
  intros H capacity Hin. unfold PVSizing.run_pv_sensitivity in H.
  destruct (run_loop_covers _ _ _ _ _ _ _ H) as (_ & Hcov & _).
  destruct (Hcov capacity Hin) as (k & Hk & Hkeys).
  destruct (dict_key_has_value _ _ Hkeys) as [sc Hsc].
  destruct capacity as [q| | |]; try discriminate.
  simpl in Hk. inversion Hk; subst k.
  exists q, (round_half_even q), sc.
  split; [reflexivity|]. split; [exact Hsc|].
  split; [exact (proj1 (round_half_even_spec q))|].
  destruct (run_loop_spec _ _ _ _ _ _ _ H) as [_ Hd].
  destruct (Hd _ _ Hsc) as [[]|(cap & _ & _ & Hb)].
  exact (proj1 (built_capacity _ _ _ _ _ Hb)).
Qed.

(** X10. A linear capacity grid: a negative number of steps raises
    ValueError; otherwise the grid has exactly the requested number of
    capacities, all finite, starting at var_min and, from two steps on,
    ending at var_max itself; with var_min < var_max the capacities are
    strictly increasing. *)
Theorem X10_linear_grid var_min var_max steps :
  (steps < 0 ->
   PVSizing.generate_pv_range float_pow math_log10 var_min var_max steps false
   = Raise ValueError) /\
  (0 <= steps ->
   exists g,
     PVSizing.generate_pv_range float_pow math_log10 var_min var_max steps
       false = Ok (map Fin g) /\
     List.length g = Z.to_nat steps /\
     (1 <= steps ->
      exists first, hd_error g = Some first /\ (first == var_min)%Q) /\
     (2 <= steps -> last g 0%Q = var_max) /\
     ((var_min < var_max)%Q ->
      forall i j x y, (i < j)%nat ->
        nth_error g i = Some x -> nth_error g j = Some y -> (x < y)%Q)).
Proof.
  unfold PVSizing.generate_pv_range.
  destruct (linspace_spec var_min var_max steps) as [Hneg Hpos]. split.
  - intros H. now rewrite (Hneg H).
  - intros H. destruct (Hpos H) as (g & Hg & Hrest).
    exists g. rewrite Hg. split; [reflexivity | exact Hrest].
Qed.

End GridAndKeys.

Lemma X9_scenarios_use_rounded_capacity_witness :
  exists d inputs',
    PVSizing.run_pv_sensitivity no_irr no_float_pow
      [Fin (3 # 2); Fin (5 # 2)] zero_load_inputs = (Ok d, inputs') /\
    In (Fin (5 # 2)) [Fin (3 # 2); Fin (5 # 2)] /\
    exists q k sc,
      Fin (5 # 2) = Fin q /\ In (k, sc) d /\
      (- (1 # 2) <= inject_Z k - q <= 1 # 2)%Q /\
      v_pv_capacity (self sc) = inject_Z k.
Proof.
  eexists. eexists. split; [vm_compute; reflexivity|].
  assert (Hin : In (Fin (5 # 2)) [Fin (3 # 2); Fin (5 # 2)])
    by (right; left; reflexivity).
  split; [exact Hin|].
  eapply (X9_scenarios_use_rounded_capacity no_irr no_float_pow
            [Fin (3 # 2); Fin (5 # 2)] zero_load_inputs);
    [vm_compute; reflexivity | exact Hin].
Defined.

Lemma X10_linear_grid_witness :
  0 <= 10 /\ (1000 < 10000)%Q /\
  exists g,
    PVSizing.generate_pv_range no_float_pow no_log10 1000 10000 10 false
    = Ok (map Fin g) /\
    List.length g = 10%nat /\
    last g 0%Q = 10000%Q /\
    forall i j x y, (i < j)%nat ->
      nth_error g i = Some x -> nth_error g j = Some y -> (x < y)%Q.
Proof.
  split; [lia|]. split; [reflexivity|].
  destruct (proj2 (X10_linear_grid no_float_pow no_log10 1000 10000 10)
              ltac:(lia))
    as (g & Hg & Hlen & _ & Hlast & Hinc).
  exists g. split; [exact Hg|]. split; [exact Hlen|].
  split; [apply Hlast; lia | apply Hinc; reflexivity].
Defined.
